(** * E1.31 (sACN) receiver: the [Server] object of [lib/server.js]

    A shallow embedding of the constructor, the socket callbacks and the
    [close] / [addUniverses] / [dropUniverses] methods, over a small store
    model of the JavaScript objects they share with their caller. *)

From stdpp Require Import gmap strings list fin_maps pretty.

Open Scope Z_scope.

(** ** The JavaScript fragment *)

(** Heap addresses of arrays and plain objects. *)
Definition loc := positive.

(** JavaScript values. Numbers are the integral ones (no NaN, no fractions,
    one zero); functions, symbols and bigints do not occur in the server. *)
Inductive val :=
| VUndef
| VNull
| VBool (b : bool)
| VNum (n : Z)
| VStr (s : string)
| VRef (l : loc).

Global Instance val_eq_dec : EqDecision val.
Proof. solve_decision. Defined.

(** Heap objects: dense arrays and plain objects with string-named own
    properties. *)
Inductive obj :=
| OArr (elems : list val)
| OObj (props : gmap string val).

(** [if (v)]: whether [v] is truthy. *)
Definition truthy (v : val) : bool :=
  match v with
  | VUndef | VNull => false
  | VBool b => b
  | VNum n => negb (n =? 0)
  | VStr s => negb (bool_decide (s = ""%string))
  | VRef _ => true
  end.

(** [v || w], for [w] without effects. *)
Definition js_or (v w : val) : val := if truthy v then v else w.

(** [v instanceof Object]: true of every array and plain object, false of
    every primitive. *)
Definition instanceof_Object (v : val) : bool :=
  match v with VRef _ => true | _ => false end.

(** [Array.isArray(v)]. *)
Definition isArray (h : gmap loc obj) (v : val) : bool :=
  match v with
  | VRef l => match h !! l with Some (OArr _) => true | _ => false end
  | _ => false
  end.

(** [v.name] for [v] an object; the names read by the server
    ([universes], [port], [mcastif], [bind], [loopback]) are not properties
    of arrays, so an array yields [undefined]. *)
Definition get (h : gmap loc obj) (v : val) (name : string) : val :=
  match v with
  | VRef l =>
      match h !! l with
      | Some (OObj ps) => default VUndef (ps !! name)
      | _ => VUndef
      end
  | _ => VUndef
  end.

(** [v.name = x] for [v] a plain object (the server assigns to no other). *)
Definition set (h : gmap loc obj) (v : val) (name : string) (x : val)
  : gmap loc obj :=
  match v with
  | VRef l =>
      match h !! l with
      | Some (OObj ps) => <[l := OObj (<[name := x]> ps)]> h
      | _ => h
      end
  | _ => h
  end.

(** An array or object literal: a fresh address. *)
Definition alloc (h : gmap loc obj) (o : obj) : loc * gmap loc obj :=
  let l := fresh (dom h) in (l, <[l := o]> h).

Global Arguments get : simpl never.
Global Arguments set : simpl never.
Global Arguments alloc : simpl never.
Global Arguments isArray : simpl never.

(** [ToPropertyKey] on primitives; an object used as a property key is
    outside the fragment. *)
Definition to_key (v : val) : option string :=
  match v with
  | VUndef => Some "undefined"%string
  | VNull => Some "null"%string
  | VBool true => Some "true"%string
  | VBool false => Some "false"%string
  | VNum n => Some (pretty n)
  | VStr s => Some s
  | VRef _ => None
  end.

(** [xs.includes(x)] (SameValueZero, which on this fragment is equality). *)
Definition includes (xs : list val) (x : val) : bool := bool_decide (x ∈ xs).

(** [xs.indexOf(x)]: the first index holding [x], or [-1]. *)
Fixpoint indexOf (xs : list val) (x : val) : Z :=
  match xs with
  | [] => -1
  | y :: ys =>
      if decide (y = x) then 0
      else let i := indexOf ys x in if i <? 0 then -1 else i + 1
  end.

(** [xs.splice(start, 1)]: a negative [start] counts from the end, and
    nothing is removed when the resulting index is past the end. *)
Definition splice1 (xs : list val) (start : Z) : list val :=
  let len := Z.of_nat (length xs) in
  let i := if start <? 0 then Z.max (len + start) 0 else Z.min start len in
  delete (Z.to_nat i) xs.

(** ** The [e131] module and the datagram socket *)

(** What [lib/server.js] uses of [require('./e131')]: the [Packet] class with
    its accessors, the multicast group of a universe and the default port. *)
Class E131 := {
  msg : Type;
  Packet : Type;
  group : Type;
  group_eq_dec :: EqDecision group;
  Packet_new : msg → Packet;
  validate : Packet → val;
  ERR_NONE : Packet → val;
  getUniverse : Packet → Z;
  getSequenceNumber : Packet → Z;
  discard : Packet → val → bool;
  getMulticastGroup : val → group;
  DEFAULT_PORT : val
}.

Section Server.
Context `{E131}.

(** Calls the server makes on its [dgram] socket. *)
Inductive sockcall :=
| Call_createSocket (reuseAddr : bool)
| Call_bind (port address : val)
| Call_setMulticastInterface (ifc : val)
| Call_setMulticastLoopback (flag : bool)
| Call_addMembership (g : group) (ifc : val)
| Call_dropMembership (g : group) (ifc : val)
| Call_close.

(** Events the server emits to its listeners. *)
Inductive event :=
| Ev_error (err : val)
| Ev_listening
| Ev_close
| Ev_packet_error (packet : Packet) (validation : val)
| Ev_packet_out_of_order (packet : Packet)
| Ev_packet (packet : Packet).

(** The callback given to [bind]: the arrow function of the
    configuration-object branch, which closes over [config], or
    [onListening] of the positional branch. *)
Inductive bindcb :=
| ConfigForm (config : val)
| PositionalForm.

(** The store together with the fields of one [Server]: [this.universes]
    is a reference into the store, [this._lastSequenceNumber] is private to
    the server, [_socket] is the log of calls made on [this._socket] (oldest
    first) and [emitted] the log of [self.emit] calls. *)
Record state := State {
  hp : gmap loc obj;
  universes : val;
  port : val;
  _mcastif : val;
  _lastSequenceNumber : gmap string val;
  callback : bindcb;
  _socket : list sockcall;
  emitted : list event
}.

(** Updates of the store and of [_lastSequenceNumber], a call on the
    socket and an emitted event. *)
Definition with_hp (h : gmap loc obj) (s : state) : state :=
  State h (universes s) (port s) (_mcastif s) (_lastSequenceNumber s)
        (callback s) (_socket s) (emitted s).

Definition with_seq (m : gmap string val) (s : state) : state :=
  State (hp s) (universes s) (port s) (_mcastif s) m
        (callback s) (_socket s) (emitted s).

Definition call (c : sockcall) (s : state) : state :=
  State (hp s) (universes s) (port s) (_mcastif s) (_lastSequenceNumber s)
        (callback s) (_socket s ++ [c]) (emitted s).

Definition emit (e : event) (s : state) : state :=
  State (hp s) (universes s) (port s) (_mcastif s) (_lastSequenceNumber s)
        (callback s) (_socket s) (emitted s ++ [e]).

(** The array [this.universes] refers to ([None]: not an array, so that a
    method call on it throws). *)
Definition array_at (h : gmap loc obj) (v : val) : option (list val) :=
  match v with
  | VRef l => match h !! l with Some (OArr xs) => Some xs | _ => None end
  | _ => None
  end.

Definition tracked (s : state) : option (list val) :=
  array_at (hp s) (universes s).

(** In-place update of the array [this.universes] refers to. *)
Definition store_tracked (xs : list val) (s : state) : state :=
  match universes s with
  | VRef l => with_hp (<[l := OArr xs]> (hp s)) s
  | _ => s
  end.

(** [this._lastSequenceNumber[k]]. *)
Definition lastSeq (s : state) (k : string) : val :=
  default VUndef (_lastSequenceNumber s !! k).

(** ** [Array.prototype.forEach] *)

(** The length is read once; each index below it is visited when the array
    still has it, with the element the array holds at that moment. [None]
    is a thrown exception or a step outside the fragment. *)
Fixpoint forEach_from (n : nat) (k : nat) (a : loc)
    (f : val → state → option state) (s : state) : option state :=
  match n with
  | O => Some s
  | S n' =>
      match hp s !! a with
      | Some (OArr xs) =>
          match xs !! k with
          | Some x => s' ← f x s; forEach_from n' (S k) a f s'
          | None => forEach_from n' (S k) a f s
          end
      | _ => None
      end
  end.

Definition forEach (v : val) (f : val → state → option state) (s : state)
  : option state :=
  match v with
  | VRef a =>
      match hp s !! a with
      | Some (OArr xs) => forEach_from (length xs) 0 a f s
      | _ => None
      end
  | _ => None
  end.

(** ** The constructor *)

(** [new Server(universes, port)] in store [h]; [Server(universes, port)]
    without [new] is the same call. *)
Definition Server_new (h : gmap loc obj) (universes0 port0 : val) : state :=
  if instanceof_Object universes0 || bool_decide (universes0 = VUndef) then
    (* const config = universes || {} *)
    let '(config, h1) :=
      if truthy universes0 then (universes0, h)
      else let '(l, h') := alloc h (OObj ∅) in (VRef l, h') in
    (* config.universes = [config.universes] *)
    let h2 :=
      if bool_decide (get h1 config "universes" ≠ VUndef)
         && negb (isArray h1 (get h1 config "universes"))
      then let '(a, h') := alloc h1 (OArr [get h1 config "universes"]) in
           set h' config "universes" (VRef a)
      else h1 in
    (* this.universes = config.universes || [] *)
    let '(us, h3) :=
      if truthy (get h2 config "universes")
      then (get h2 config "universes", h2)
      else let '(a, h') := alloc h2 (OArr []) in (VRef a, h') in
    (* this.port = config.port || port || e131.DEFAULT_PORT *)
    let p := js_or (js_or (get h3 config "port") port0) DEFAULT_PORT in
    {| hp := h3; universes := us; port := p;
       _mcastif := get h3 config "mcastif";
       _lastSequenceNumber := ∅;
       callback := ConfigForm config;
       _socket := [Call_createSocket true; Call_bind p (get h3 config "bind")];
       emitted := [] |}
  else
    (* universes = [universes] *)
    let '(u1, h1) :=
      if bool_decide (universes0 ≠ VUndef) && negb (isArray h universes0)
      then let '(a, h') := alloc h (OArr [universes0]) in (VRef a, h')
      else (universes0, h) in
    (* this.universes = universes || [0x01] *)
    let '(us, h2) :=
      if truthy u1 then (u1, h1)
      else let '(a, h') := alloc h1 (OArr [VNum 1]) in (VRef a, h') in
    (* this.port = port || e131.DEFAULT_PORT *)
    let p := js_or port0 DEFAULT_PORT in
    {| hp := h2; universes := us; port := p;
       _mcastif := VUndef;
       _lastSequenceNumber := ∅;
       callback := PositionalForm;
       _socket := [Call_createSocket false; Call_bind p VUndef];
       emitted := [] |}.

(** ** Socket callbacks *)

(** The callback passed to [bind], run when binding completes: the
    multicast options are set and the group of every tracked universe is
    joined; the configuration-object form also sets the last seen sequence
    number of each to 0. *)
Definition bind_callback (s : state) : option state :=
  match callback s with
  | ConfigForm config =>
      let s1 :=
        if bool_decide (_mcastif s ≠ VUndef)
        then call (Call_setMulticastInterface (_mcastif s)) s else s in
      let s2 :=
        if bool_decide (get (hp s1) config "loopback" = VBool true)
        then call (Call_setMulticastLoopback true) s1 else s1 in
      if bool_decide (universes s2 ≠ VUndef) then
        forEach (universes s2) (λ universe s,
          k ← to_key universe;
          let s := with_seq (<[k := VNum 0]> (_lastSequenceNumber s)) s in
          let multicastGroup := getMulticastGroup universe in
          Some (call (Call_addMembership multicastGroup (_mcastif s)) s)) s2
      else Some s2
  | PositionalForm =>
      forEach (universes s) (λ universe s,
        let multicastGroup := getMulticastGroup universe in
        Some (call (Call_addMembership multicastGroup VUndef) s)) s
  end.

(** The listeners of the socket's [error], [listening], [close] and
    [message] events. *)
Definition onError (err : val) (s : state) : state := emit (Ev_error err) s.

Definition onListening (s : state) : state := emit Ev_listening s.

Definition onClose (s : state) : state := emit Ev_close s.

(** [packet.getUniverse()] is a number, and the property key it makes in
    [_lastSequenceNumber] is its decimal numeral; the last seen sequence
    number is assigned after either event. *)
Definition onMessage (m : msg) (s : state) : state :=
  let packet := Packet_new m in
  let validation := validate packet in
  if bool_decide (validation ≠ ERR_NONE packet) then
    emit (Ev_packet_error packet validation) s
  else
    let k := pretty (getUniverse packet) in
    let s :=
      if discard packet (lastSeq s k)
      then emit (Ev_packet_out_of_order packet) s
      else emit (Ev_packet packet) s in
    with_seq (<[k := VNum (getSequenceNumber packet)]> (_lastSequenceNumber s)) s.

(** ** Methods *)

(** [Server.prototype.close]. *)
Definition Server_close (s : state) : state := call Call_close s.

(** The body of the arrow function of [addUniverses]. *)
Definition addUniverse (universe : val) (s : state) : option state :=
  us ← tracked s;
  if includes us universe then Some s
  else
    let s := store_tracked (us ++ [universe]) s in
    k ← to_key universe;
    let s := with_seq (<[k := VNum 0]> (_lastSequenceNumber s)) s in
    Some (call (Call_addMembership (getMulticastGroup universe) (_mcastif s)) s).

Definition addUniverses (universes0 : val) (s : state) : option state :=
  forEach universes0 addUniverse s.

(** The body of the arrow function of [dropUniverses]. *)
Definition dropUniverse (universe : val) (s : state) : option state :=
  us ← tracked s;
  if negb (includes us universe) then Some s
  else
    let s := store_tracked (splice1 us (indexOf us universe)) s in
    k ← to_key universe;
    let s := with_seq (delete k (_lastSequenceNumber s)) s in
    Some (call (Call_dropMembership (getMulticastGroup universe) (_mcastif s)) s).

Definition dropUniverses (universes0 : val) (s : state) : option state :=
  forEach universes0 dropUniverse s.

(** ** Runs of a server *)

(** What the socket and the caller can do to a server once constructed.
    The caller's [addUniverses] and [dropUniverses] come in two shapes: with
    an array literal, allocated for the call, and with any value the
    caller holds. *)
Inductive op :=
| Sock_listening
| Sock_message (m : msg)
| Sock_error (err : val)
| Sock_close
| Do_addUniverses (xs : list val)
| Do_dropUniverses (xs : list val)
| Do_addUniverses_of (v : val)
| Do_dropUniverses_of (v : val)
| Do_close.

(** The caller evaluates an array literal. *)
Definition literal (xs : list val) (s : state) : val * state :=
  let '(a, h) := alloc (hp s) (OArr xs) in (VRef a, with_hp h s).

(** The socket's [listening] event runs the callback given to [bind],
    registered first, and then [onListening]. *)
Definition step (o : op) (s : state) : option state :=
  match o with
  | Sock_listening => onListening <$> bind_callback s
  | Sock_message m => Some (onMessage m s)
  | Sock_error err => Some (onError err s)
  | Sock_close => Some (onClose s)
  | Do_addUniverses xs => let '(v, s) := literal xs s in addUniverses v s
  | Do_dropUniverses xs => let '(v, s) := literal xs s in dropUniverses v s
  | Do_addUniverses_of v => addUniverses v s
  | Do_dropUniverses_of v => dropUniverses v s
  | Do_close => Some (Server_close s)
  end.

Fixpoint run (os : list op) (s : state) : option state :=
  match os with
  | [] => Some s
  | o :: os => s' ← step o s; run os s'
  end.

(** ** Multicast membership *)

(** Whether the socket is a member of group [g] after the logged calls: the
    last [addMembership] or [dropMembership] naming [g] decides, and closing
    the socket ends every membership. *)
Definition joined (g : group) (calls : list sockcall) : bool :=
  foldl (λ b c,
    match c with
    | Call_addMembership g' _ => if decide (g' = g) then true else b
    | Call_dropMembership g' _ => if decide (g' = g) then false else b
    | Call_close => false
    | _ => b
    end) false calls.

End Server.

(** * Vocabulary of the properties *)

(** The list left by [xs.splice(xs.indexOf(x), 1)] when [x] is in [xs]:
    its first occurrence is gone. *)
Fixpoint remove_first (x : val) (xs : list val) : list val :=
  match xs with
  | [] => []
  | y :: ys => if decide (y = x) then ys else y :: remove_first x ys
  end.

(** The universes [addUniverses] pushes when handed [xs] while [us] is
    tracked: those not tracked yet, each at its first occurrence. *)
Fixpoint added (us xs : list val) : list val :=
  match xs with
  | [] => []
  | x :: xs =>
      if includes us x then added us xs else x :: added (us ++ [x]) xs
  end.

(** The tracked list a [universes] option [u] of a configuration object
    makes: none when omitted, the array when it is one, and otherwise the
    single value in a one-element list. *)
Definition config_universes (h : gmap loc obj) (u : val) : list val :=
  if decide (u = VUndef) then []
  else match u with
       | VRef a => match h !! a with Some (OArr us) => us | _ => [u] end
       | _ => [u]
       end.

(** A universe number. *)
Definition is_number (v : val) : bool :=
  match v with VNum _ => true | _ => false end.

(** A universe number of the protocol's range. *)
Definition is_universe (v : val) : bool :=
  match v with VNum n => (1 <=? n) && (n <=? 63999) | _ => false end.

Section Vocabulary.
Context `{E131}.

Implicit Types (s : state) (f : val → state → option state).

(** A callback applied to the elements of a list in turn. *)
Fixpoint each f (xs : list val) s : option state :=
  match xs with
  | [] => Some s
  | x :: xs => s' ← f x s; each f xs s'
  end.

(** Whether a run completes, and the state it then ends in. *)
Definition completes (os : list op) s : bool :=
  match run os s with Some _ => true | None => false end.

Definition after (os : list op) s : state := default s (run os s).

(** [this._lastSequenceNumber[universe]]. *)
Definition lastSeqOf s (universe : val) : option val :=
  lastSeq s <$> to_key universe.

(** The state with both logs emptied, and with logs put in front. *)
Definition clear_logs s : state :=
  State (hp s) (universes s) (port s) (_mcastif s) (_lastSequenceNumber s)
        (callback s) [] [].

Definition prefix_logs (cs : list sockcall) (es : list event) s : state :=
  State (hp s) (universes s) (port s) (_mcastif s) (_lastSequenceNumber s)
        (callback s) (cs ++ _socket s) (es ++ emitted s).

(** Bind completion, datagrams and socket events, and [addUniverses] /
    [dropUniverses] called with array literals of universe numbers. *)
Definition universe_op (o : op) : bool :=
  match o with
  | Sock_listening | Sock_message _ | Sock_error _ | Sock_close => true
  | Do_addUniverses xs | Do_dropUniverses xs => forallb is_universe xs
  | Do_addUniverses_of _ | Do_dropUniverses_of _ | Do_close => false
  end.

(** [us] is the tracked list, it holds distinct universe numbers, and only
    groups of tracked universes are joined. *)
Definition sound_with (us : list val) s : Prop :=
  tracked s = Some us
  ∧ Forall is_universe us
  ∧ NoDup us
  ∧ ∀ g, joined g (_socket s) = true →
         ∃ u, u ∈ us ∧ getMulticastGroup u = g.

(** The group of every universe of [us] is joined and, for a server of the
    configuration-object form, every universe of [us] has an entry in the
    map of last seen sequence numbers. *)
Definition complete_with (us : list val) s : Prop :=
  (∀ u, u ∈ us → joined (getMulticastGroup u) (_socket s) = true)
  ∧ (callback s ≠ PositionalForm →
     ∀ u, u ∈ us → ∃ k, to_key u = Some k
                        ∧ is_Some (_lastSequenceNumber s !! k)).

(** [this.universes] refers to the array at [l]. *)
Definition tracks (l : loc) s : Prop :=
  universes s = VRef l ∧ ∃ xs, hp s !! l = Some (OArr xs).

(** The [addMembership] calls for a list of universes, in order. *)
Definition joins (ifc : val) (us : list val) : list sockcall :=
  (λ u, Call_addMembership (getMulticastGroup u) ifc) <$> us.

(** The calls the callback given to [bind] makes on the socket when [us] is
    tracked. *)
Definition bind_calls s (us : list val) : list sockcall :=
  match callback s with
  | ConfigForm config =>
      (if bool_decide (_mcastif s ≠ VUndef)
       then [Call_setMulticastInterface (_mcastif s)] else [])
      ++ (if bool_decide (get (hp s) config "loopback" = VBool true)
          then [Call_setMulticastLoopback true] else [])
      ++ joins (_mcastif s) us
  | PositionalForm => joins VUndef us
  end.

(** The arrow function the configuration-object form runs on each tracked
    universe at bind completion, and that of the positional form. *)
Definition config_join (universe : val) s : option state :=
  k ← to_key universe;
  Some (call (Call_addMembership (getMulticastGroup universe) (_mcastif s))
          (with_seq (<[k := VNum 0]> (_lastSequenceNumber s)) s)).

Definition positional_join (universe : val) s : option state :=
  Some (call (Call_addMembership (getMulticastGroup universe) VUndef) s).

(** Universes of the protocol's range have distinct multicast groups. *)
Definition groups_distinct : Prop :=
  ∀ a b, is_universe a → is_universe b →
         getMulticastGroup a = getMulticastGroup b → a = b.

(** The [dropMembership] calls for a list of universes, in order. *)
Definition leaves (ifc : val) (us : list val) : list sockcall :=
  (λ u, Call_dropMembership (getMulticastGroup u) ifc) <$> us.

(** Steps taken by the socket, as opposed to calls of the caller. *)
Definition socket_event (o : op) : bool :=
  match o with
  | Sock_listening | Sock_message _ | Sock_error _ | Sock_close => true
  | _ => false
  end.

(** A membership call names the interface [i]; the other calls name
    none. *)
Definition uses_interface (i : val) (c : sockcall) : Prop :=
  match c with
  | Call_addMembership _ ifc | Call_dropMembership _ ifc => ifc = i
  | _ => True
  end.

(** [this._mcastif] is [i], every membership call so far named [i], and
    a server of the positional form has no interface. *)
Definition one_interface (i : val) s : Prop :=
  _mcastif s = i
  ∧ Forall (uses_interface i) (_socket s)
  ∧ (callback s = PositionalForm → i = VUndef).

(** The last seen sequence number of universe [U] after the datagrams
    [ms], when it was [d] before them: the sequence number of the latest
    valid packet of universe [U], if there is one. *)
Fixpoint latest (U : Z) (ms : list msg) (d : val) : val :=
  match ms with
  | [] => d
  | m :: ms =>
      latest U ms
        (if bool_decide (validate (Packet_new m) = ERR_NONE (Packet_new m))
            && bool_decide (getUniverse (Packet_new m) = U)
         then VNum (getSequenceNumber (Packet_new m)) else d)
  end.

(** A run changes no object of the store at an address other than [l]:
    what [s] holds there, [s'] holds. *)
Definition same_elsewhere (l : loc) s s' : Prop :=
  ∀ a o, a ≠ l → hp s !! a = Some o → hp s' !! a = Some o.

(** A call that changes the socket's multicast membership. *)
Definition membership_call (c : sockcall) : bool :=
  match c with
  | Call_addMembership _ _ | Call_dropMembership _ _ => true
  | _ => false
  end.

(** After the calls [cs], the membership state of the socket admits the
    call [c]: a group is joined only when it is not joined, and left only
    when it is. *)
Definition admits (cs : list sockcall) (c : sockcall) : Prop :=
  match c with
  | Call_addMembership g _ => joined g cs = false
  | Call_dropMembership g _ => joined g cs = true
  | _ => True
  end.

(** Every call of the log was admitted when it was made. *)
Inductive orderly : list sockcall → Prop :=
  | orderly_nil : orderly []
  | orderly_snoc cs c : orderly cs → admits cs c → orderly (cs ++ [c]).

(** What a bound, open socket is used for: datagrams, and [addUniverses] /
    [dropUniverses] called with array literals of universe numbers. *)
Definition service_op (o : op) : bool :=
  match o with
  | Sock_message _ => true
  | Do_addUniverses xs | Do_dropUniverses xs => forallb is_universe xs
  | _ => false
  end.

(** [config.mcastif] of the constructor's first argument: the property of
    a configuration object, and [undefined] when the argument is omitted,
    an array or not an object. *)
Definition mcastif_of (h : gmap loc obj) (v : val) : val :=
  match v with
  | VRef c =>
      match h !! c with
      | Some (OObj ps) => default VUndef (ps !! "mcastif"%string)
      | _ => VUndef
      end
  | _ => VUndef
  end.

End Vocabulary.

(** The universes [dropUniverses] drops when handed [xs] while [us] is
    tracked, those tracked at their turn, and the tracked list it leaves. *)
Fixpoint dropped (us xs : list val) : list val :=
  match xs with
  | [] => []
  | x :: xs =>
      if includes us x then x :: dropped (remove_first x us) xs
      else dropped us xs
  end.

Fixpoint kept (us xs : list val) : list val :=
  match xs with
  | [] => us
  | x :: xs =>
      if includes us x then kept (remove_first x us) xs else kept us xs
  end.

(** The elements at the even indices 0, 2, 4, ... of a list, and those at
    the odd indices. *)
Fixpoint evens (xs : list val) : list val :=
  match xs with
  | x :: _ :: xs' => x :: evens xs'
  | _ => xs
  end.

Fixpoint odds (xs : list val) : list val :=
  match xs with
  | _ :: y :: xs' => y :: odds xs'
  | _ => []
  end.

(** ** A concrete [e131] module *)

Module Sacn.

(** Modelled from the spec: the packet abstraction of [lib/e131], which is
    not part of [lib/server.js]. A packet is given by what its accessors
    return: the validation outcome, the universe and the 8-bit sequence
    number. *)
Record packet := Pkt {
  p_validation : val;
  p_universe : Z;
  p_seq : Z
}.

(** Modelled from the spec: the difference of two sequence numbers, read as
    a signed 8-bit number. *)
Definition signed8 (d : Z) : Z := (d + 128) mod 256 - 128.

(** Modelled from the spec: the discard predicate of the packet; a packet
    is stale when the signed 8-bit difference to the last seen sequence
    number lies in [-20, 0], and is accepted when nothing was seen yet. *)
Definition discard (p : packet) (lastSeen : val) : bool :=
  match lastSeen with
  | VNum s =>
      let d := signed8 (p_seq p - s) in (-20 <=? d) && (d <=? 0)
  | _ => false
  end.

(** An IPv4 address, as its four octets. *)
Definition ipv4 : Type := Z * Z * Z * Z.

(** Modelled from the spec: the multicast group of a universe,
    239.255.hi.lo with hi and lo the big-endian bytes of the universe
    number. *)
Definition getMulticastGroup (universe : val) : ipv4 :=
  match universe with
  | VNum n => (239, 255, (n / 256) mod 256, n mod 256)
  | _ => (239, 255, 0, 0)
  end.

(** Modelled from the spec: the default port registered for the protocol. *)
Definition DEFAULT_PORT : val := VNum 5568.

(** Modelled from the spec: the validation outcome of a well-formed packet. *)
Definition ERR_NONE : val := VNum 0.

#[global] Instance e131 : E131 :=
  Build_E131 packet packet ipv4 _ (λ m, m) p_validation (λ _, ERR_NONE)
             p_universe p_seq discard getMulticastGroup DEFAULT_PORT.

(** A store holding the configuration object [{universes: [1]}]. *)
Definition store1 : gmap loc obj :=
  {[ 1%positive := OArr [VNum 1];
     2%positive := OObj {[ "universes"%string := VRef 1%positive ]} ]}.

(** A store holding the configuration object [{universes: [1, 1]}]. *)
Definition store11 : gmap loc obj :=
  {[ 1%positive := OArr [VNum 1; VNum 1];
     2%positive := OObj {[ "universes"%string := VRef 1%positive ]} ]}.

(** A store holding the configuration object [{universes: 4}]. *)
Definition store4 : gmap loc obj :=
  {[ 2%positive := OObj {[ "universes"%string := VNum 4 ]} ]}.

(** A store holding the array [[2, 3]]. *)
Definition store23 : gmap loc obj :=
  {[ 1%positive := OArr [VNum 2; VNum 3] ]}.

(** A store holding the array [[5, 5, 7]]. *)
Definition store557 : gmap loc obj :=
  {[ 1%positive := OArr [VNum 5; VNum 5; VNum 7] ]}.

(** The servers of [new Server({universes: [1]})],
    [new Server({universes: [1, 1]})], [new Server()] and
    [new Server(1)]. *)
Definition server1 : state := Server_new store1 (VRef 2%positive) VUndef.
Definition server11 : state := Server_new store11 (VRef 2%positive) VUndef.
Definition server0 : state := Server_new ∅ VUndef VUndef.
Definition positional1 : state := Server_new ∅ (VNum 1) VUndef.

(** A valid packet of universe [u] with sequence number [n]. *)
Definition pkt (u n : Z) : packet := Pkt ERR_NONE u n.

(** [server1] once bind has completed, and then once a packet of universe
    1 with sequence number 10 has been received. *)
Definition listening1 : state := after [Sock_listening] server1.
Definition seen10 : state :=
  after [Sock_listening; Sock_message (pkt 1 10)] server1.

(** [server1] once bind has completed and a packet of universe 2 has been
    received. *)
Definition seen2 : state :=
  after [Sock_listening; Sock_message (pkt 2 0)] server1.

(** A store holding the configuration object [{universes: [1, 2, 3]}] and
    the array [[3, 1, 7]], the server constructed from it, and that server
    once bind has completed. *)
Definition store123 : gmap loc obj :=
  {[ 1%positive := OArr [VNum 1; VNum 2; VNum 3];
     2%positive := OObj {[ "universes"%string := VRef 1%positive ]};
     3%positive := OArr [VNum 3; VNum 1; VNum 7] ]}.

Definition server123 : state := Server_new store123 (VRef 2%positive) VUndef.
Definition listening123 : state := after [Sock_listening] server123.

(** A store holding the configuration object [{universes: 4, port: 7000}]
    and the array [[9]]. *)
Definition store4p : gmap loc obj :=
  {[ 2%positive := OObj {[ "universes"%string := VNum 4;
                           "port"%string := VNum 7000 ]};
     5%positive := OArr [VNum 9] ]}.

(** Runs of [server1] and of [server123]. *)
Definition busy_run : list op :=
  [Sock_listening; Do_addUniverses [VNum 5]; Sock_message (pkt 1 10);
   Do_close; Sock_close].

Definition service_run : list op :=
  [Sock_message (pkt 1 10); Do_addUniverses [VNum 5];
   Do_dropUniverses [VNum 1]].

Definition alias_run : list op :=
  [Sock_listening; Do_dropUniverses_of (VRef 3%positive);
   Do_addUniverses [VNum 8]].

(** Datagrams: universe 1 with sequence numbers 10 and 9, a malformed one
    and one of universe 2. *)
Definition datagrams : list (@msg e131) :=
  [pkt 1 10; pkt 1 9; Pkt (VNum 7) 1 30; pkt 2 40].

Definition datagram_run : list op := Sock_message <$> datagrams.

(** A store holding the configuration object
    [{universes: [1], mcastif: '10.0.0.1'}], the server constructed from
    it and a run of it. *)
Definition store_if : gmap loc obj :=
  {[ 1%positive := OArr [VNum 1];
     2%positive := OObj {[ "universes"%string := VRef 1%positive;
                           "mcastif"%string := VStr "10.0.0.1" ]} ]}.

Definition membership_run : list op :=
  [Sock_listening; Do_addUniverses [VNum 5]; Do_dropUniverses [VNum 1]].

End Sacn.

(** * Properties *)

(** ** Arrays *)

Lemma indexOf_bounds x xs :
  x ∈ xs → 0 ≤ indexOf xs x < Z.of_nat (length xs).
Proof.
  induction xs as [|y ys IH]; intros Hin.
  - by apply elem_of_nil in Hin.
  - simpl. destruct (decide (y = x)) as [->|Hne]; [lia|].
    apply elem_of_cons in Hin as [->|Hin]; [done|].
    specialize (IH Hin). destruct (Z.ltb_spec (indexOf ys x) 0); lia.
Qed.

Lemma indexOf_absent x xs : x ∉ xs → indexOf xs x = -1.
Proof.
  induction xs as [|y ys IH]; intros Hin; [done|].
  simpl. apply not_elem_of_cons in Hin as [Hne Hin].
  rewrite decide_False by done. rewrite IH by done. done.
Qed.

Lemma splice1_indexOf x xs :
  x ∈ xs → splice1 xs (indexOf xs x) = remove_first x xs.
Proof.
  induction xs as [|y ys IH]; intros Hin.
  - by apply elem_of_nil in Hin.
  - unfold splice1 in *. simpl indexOf. simpl remove_first.
    destruct (decide (y = x)) as [->|Hne]; [done|].
    apply elem_of_cons in Hin as [->|Hin]; [done|].
    pose proof (indexOf_bounds _ _ Hin) as Hb.
    specialize (IH Hin). revert IH.
    destruct (Z.ltb_spec (indexOf ys x) 0) as [|_]; [lia|].
    destruct (Z.ltb_spec (indexOf ys x + 1) 0) as [|_]; [lia|].
    rewrite Z.min_l by lia. intros <-.
    rewrite Z.min_l by (simpl length; lia).
    replace (Z.to_nat (indexOf ys x + 1)) with (S (Z.to_nat (indexOf ys x)))
      by lia.
    done.
Qed.

Lemma elem_of_remove_first y x xs :
  y ∈ remove_first x xs → y ∈ xs.
Proof.
  induction xs as [|z zs IH]; simpl; [done|].
  destruct (decide (z = x)); rewrite !elem_of_cons; intuition.
Qed.

Lemma elem_of_remove_first_ne y x xs :
  y ≠ x → y ∈ xs → y ∈ remove_first x xs.
Proof.
  intros Hne. induction xs as [|z zs IH]; simpl; [done|].
  destruct (decide (z = x)); rewrite !elem_of_cons; intuition congruence.
Qed.

Lemma NoDup_remove_first x xs :
  NoDup xs → NoDup (remove_first x xs) ∧ x ∉ remove_first x xs.
Proof.
  induction 1 as [|z zs Hz Hzs IH]; simpl.
  - split; [constructor | apply not_elem_of_nil].
  - destruct (decide (z = x)) as [->|Hne]; [done|].
    destruct IH as [IH1 IH2]. split.
    + constructor; [|done]. intros Hin. by apply elem_of_remove_first in Hin.
    + apply not_elem_of_cons. split; [congruence | done].
Qed.

(** Property keys of numbers are their decimal numerals. *)
Lemma to_key_num_inj a b : to_key (VNum a) = to_key (VNum b) → a = b.
Proof. simpl. intros [= Heq]. by apply (inj pretty) in Heq. Qed.

Lemma is_number_key v : is_number v → ∃ n, v = VNum n.
Proof. destruct v; try done. eauto. Qed.

Lemma is_universe_number v : is_universe v → is_number v.
Proof. by destruct v. Qed.

Lemma to_key_number_inj u v :
  is_number u → is_number v → to_key u = to_key v → u = v.
Proof.
  intros [a ->]%is_number_key [b ->]%is_number_key Heq.
  f_equal. by apply to_key_num_inj.
Qed.

(** What [added] pushes. *)
Lemma elem_of_added us xs x :
  x ∈ added us xs ↔ x ∈ xs ∧ x ∉ us.
Proof.
  revert us. induction xs as [|y ys IH]; intros us; simpl.
  - split; [by intros ?%elem_of_nil | by intros [?%elem_of_nil _]].
  - unfold includes. case_bool_decide as Hy.
    + rewrite IH, elem_of_cons. split; [intros [? ?]; by auto|].
      intros [[->|?] ?]; done.
    + rewrite !elem_of_cons, IH, elem_of_app, list_elem_of_singleton.
      split.
      * intros [->|[? ?]]; [by auto|]. split; [by auto|]. tauto.
      * intros [[->|?] ?]; [by left|].
        destruct (decide (x = y)) as [->|]; [by left|]. right. tauto.
Qed.

Lemma NoDup_added us xs : NoDup (added us xs).
Proof.
  revert us. induction xs as [|y ys IH]; intros us; simpl.
  - constructor.
  - unfold includes. case_bool_decide as Hy; [done|].
    constructor; [|done].
    rewrite elem_of_added, elem_of_app, list_elem_of_singleton. tauto.
Qed.

(** ** [forEach] *)

Section ForEach.
Context `{E131}.

Implicit Types (s : state) (f : val → state → option state).

(** Over an array the callback leaves alone, [forEach] visits the elements
    the array had at the call. *)
Lemma forEach_from_each (P : state → Prop) a f xs :
  (∀ x s s', P s → f x s = Some s' → P s' ∧ hp s' !! a = hp s !! a) →
  ∀ n k s,
    P s → hp s !! a = Some (OArr xs) → (n + k = length xs)%nat →
    forEach_from n k a f s = each f (drop k xs) s.
Proof.
  intros Hf. induction n as [|n IH]; intros k s HP Ha Hlen.
  - simpl. by rewrite drop_ge by lia.
  - simpl. rewrite Ha.
    destruct (lookup_lt_is_Some_2 xs k) as [x Hx]; [lia|].
    rewrite Hx. rewrite (drop_S _ _ _ Hx). simpl.
    destruct (f x s) as [s'|] eqn:Hfx; [simpl|done].
    destruct (Hf _ _ _ HP Hfx) as [HP' Hhp].
    apply IH; [done| |lia]. by rewrite Hhp.
Qed.

Lemma forEach_each (P : state → Prop) a f xs s :
  (∀ x s s', P s → f x s = Some s' → P s' ∧ hp s' !! a = hp s !! a) →
  P s → hp s !! a = Some (OArr xs) →
  forEach (VRef a) f s = each f xs s.
Proof.
  intros Hf HP Ha. unfold forEach. rewrite Ha.
  rewrite (forEach_from_each P a f xs Hf _ 0%nat s HP Ha) by lia. done.
Qed.

(** An invariant that keeps [a] an array of elements the callback accepts
    is kept by [forEach], which then completes. *)
Lemma forEach_from_inv (P : state → Prop) (Q : val → Prop) a f :
  (∀ s, P s → ∃ xs, hp s !! a = Some (OArr xs) ∧ Forall Q xs) →
  (∀ x s, P s → Q x → ∃ s', f x s = Some s' ∧ P s') →
  ∀ n k s, P s → ∃ s', forEach_from n k a f s = Some s' ∧ P s'.
Proof.
  intros Harr Hf. induction n as [|n IH]; intros k s HP; simpl; [eauto|].
  destruct (Harr s HP) as (xs & -> & HQ).
  destruct (xs !! k) as [x|] eqn:Hx; [|by apply IH].
  destruct (Hf x s HP) as (s' & -> & HP').
  { eapply Forall_lookup_1; eauto. }
  simpl. by apply IH.
Qed.

(** What the callback keeps whenever it completes, [forEach] keeps. *)
Lemma forEach_from_preserve (P : state → Prop) a f :
  (∀ x s s', P s → f x s = Some s' → P s') →
  ∀ n k s s', P s → forEach_from n k a f s = Some s' → P s'.
Proof.
  intros Hf. induction n as [|n IH]; intros k s s' HP; simpl.
  - by intros [= <-].
  - destruct (hp s !! a) as [[xs|]|]; try done.
    destruct (xs !! k) as [x|]; [|by apply IH].
    destruct (f x s) as [s1|] eqn:Hfx; [simpl|done].
    apply IH. by apply (Hf x s).
Qed.

Lemma forEach_preserve (P : state → Prop) v f s s' :
  (∀ x s s', P s → f x s = Some s' → P s') →
  P s → forEach v f s = Some s' → P s'.
Proof.
  intros Hf HP. unfold forEach. destruct v as [| | | | |a]; try done.
  destruct (hp s !! a) as [[xs|]|]; try done.
  by apply forEach_from_preserve.
Qed.

(** A callback that only appends to the logs can be run with the logs
    emptied. *)
Lemma forEach_from_prefix cs es a f :
  (∀ x s, f x (prefix_logs cs es s) = prefix_logs cs es <$> f x s) →
  ∀ n k s, forEach_from n k a f (prefix_logs cs es s)
           = prefix_logs cs es <$> forEach_from n k a f s.
Proof.
  intros Hf. induction n as [|n IH]; intros k s; simpl; [done|].
  destruct (hp s !! a) as [[xs|]|]; try done.
  destruct (xs !! k) as [x|]; [|by apply IH].
  rewrite Hf. destruct (f x s) as [s'|]; simpl; [by apply IH|done].
Qed.

Lemma forEach_prefix cs es v f s :
  (∀ x s, f x (prefix_logs cs es s) = prefix_logs cs es <$> f x s) →
  forEach v f (prefix_logs cs es s) = prefix_logs cs es <$> forEach v f s.
Proof.
  intros Hf. unfold forEach. destruct v; try done. simpl.
  destruct (hp s !! l) as [[xs|]|]; try done.
  by apply forEach_from_prefix.
Qed.

End ForEach.

(** ** The receive path *)

Section Receive.
Context `{E131}.

Implicit Types (m : msg) (s : state).

Lemma lastSeq_with_seq_insert s s0 k k' v :
  lastSeq (with_seq (<[k := v]> (_lastSequenceNumber s0)) s) k'
  = if decide (k = k') then v else lastSeq s0 k'.
Proof.
  unfold lastSeq; simpl. rewrite lookup_insert.
  by destruct (decide (k = k')).
Qed.

(** C6: a datagram that fails validation emits [packet-error] with the
    packet and the validation outcome, and nothing else changes: the map of
    last seen sequence numbers is the same map (no entry created, modified
    or deleted), and so are the tracked list and the socket log. *)
Theorem onMessage_invalid m s :
  validate (Packet_new m) ≠ ERR_NONE (Packet_new m) →
  emitted (onMessage m s)
  = emitted s ++ [Ev_packet_error (Packet_new m) (validate (Packet_new m))]
  ∧ _lastSequenceNumber (onMessage m s) = _lastSequenceNumber s
  ∧ hp (onMessage m s) = hp s
  ∧ universes (onMessage m s) = universes s
  ∧ _socket (onMessage m s) = _socket s.
Proof.
  intros Hbad. unfold onMessage.
  rewrite bool_decide_eq_true_2 by done. done.
Qed.

(** C7: a valid datagram emits exactly one event, [packet-out-of-order]
    when the packet's discard predicate holds of the last seen sequence
    number of its universe and [packet] otherwise; when the predicate
    accepts, the event is [packet] and the last seen sequence number of the
    universe becomes the packet's. *)
Theorem onMessage_valid m s :
  validate (Packet_new m) = ERR_NONE (Packet_new m) →
  emitted (onMessage m s)
  = emitted s
    ++ [if discard (Packet_new m)
             (lastSeq s (pretty (getUniverse (Packet_new m))))
        then Ev_packet_out_of_order (Packet_new m)
        else Ev_packet (Packet_new m)]
  ∧ (discard (Packet_new m)
       (lastSeq s (pretty (getUniverse (Packet_new m)))) = false →
     emitted (onMessage m s) = emitted s ++ [Ev_packet (Packet_new m)]
     ∧ lastSeq (onMessage m s) (pretty (getUniverse (Packet_new m)))
       = VNum (getSequenceNumber (Packet_new m))).
Proof.
  intros Hok. unfold onMessage.
  set (packet := Packet_new m) in *.
  set (k := pretty (getUniverse packet)).
  rewrite bool_decide_eq_false_2 by (intros Hne; by apply Hne).
  split.
  - by destruct (discard packet (lastSeq s k)).
  - intros Hacc. rewrite Hacc. split; [done|].
    rewrite lastSeq_with_seq_insert. by rewrite decide_True.
Qed.

(** C1, as the code has it: a valid datagram that the discard predicate
    classifies as stale emits [packet-out-of-order], and the last seen
    sequence number of its universe becomes the stale packet's own sequence
    number; the entries of the other universes are unchanged. *)
Theorem onMessage_stale m s :
  validate (Packet_new m) = ERR_NONE (Packet_new m) →
  discard (Packet_new m)
    (lastSeq s (pretty (getUniverse (Packet_new m)))) = true →
  emitted (onMessage m s)
  = emitted s ++ [Ev_packet_out_of_order (Packet_new m)]
  ∧ lastSeq (onMessage m s) (pretty (getUniverse (Packet_new m)))
    = VNum (getSequenceNumber (Packet_new m))
  ∧ ∀ k', k' ≠ pretty (getUniverse (Packet_new m)) →
          lastSeq (onMessage m s) k' = lastSeq s k'.
Proof.
  intros Hok Hstale. unfold onMessage.
  set (packet := Packet_new m) in *.
  set (k := pretty (getUniverse packet)) in *.
  rewrite bool_decide_eq_false_2 by (intros Hne; by apply Hne).
  rewrite Hstale. split; [done|]. split.
  - rewrite lastSeq_with_seq_insert. by rewrite decide_True.
  - intros k' Hk'. rewrite lastSeq_with_seq_insert.
    by rewrite decide_False.
Qed.

End Receive.

(** ** The constructor *)

Section Constructor.
Context `{E131}.

Implicit Types (h : gmap loc obj) (v p u : val).

Lemma get_obj h c ps name :
  h !! c = Some (OObj ps) → get h (VRef c) name = default VUndef (ps !! name).
Proof. unfold get. by intros ->. Qed.

Lemma get_insert_obj h c ps name :
  get (<[c := OObj ps]> h) (VRef c) name = default VUndef (ps !! name).
Proof. apply get_obj. apply lookup_insert_eq. Qed.

Lemma fresh_None h : h !! fresh (dom h) = None.
Proof. apply not_elem_of_dom. apply is_fresh. Qed.

Lemma fresh_ne h c o : h !! c = Some o → fresh (dom h) ≠ c.
Proof. intros Hc Heq. pose proof (fresh_None h) as Hf. congruence. Qed.

(** The constructor makes no membership call, emits nothing and starts
    with an empty map of last seen sequence numbers. *)
Lemma Server_new_fresh h v p :
  _lastSequenceNumber (Server_new h v p) = ∅
  ∧ emitted (Server_new h v p) = []
  ∧ ∀ g, joined g (_socket (Server_new h v p)) = false.
Proof.
  unfold Server_new.
  repeat (case_match; simpl); done.
Qed.

(** The configuration-object branch on an object [c]. *)
Lemma Server_new_object h c ps p :
  h !! c = Some (OObj ps) →
  tracked (Server_new h (VRef c) p)
  = Some (config_universes h (default VUndef (ps !! "universes")))
  ∧ port (Server_new h (VRef c) p)
    = js_or (js_or (default VUndef (ps !! "port")) p) DEFAULT_PORT
  ∧ _mcastif (Server_new h (VRef c) p) = default VUndef (ps !! "mcastif")
  ∧ callback (Server_new h (VRef c) p) = ConfigForm (VRef c).
Proof.
  intros Hc. unfold Server_new. simpl.
  rewrite !(get_obj h c ps) by done.
  set (u := default VUndef (ps !! "universes")).
  pose proof (fresh_ne h c _ Hc) as Hne.
  unfold config_universes. destruct (decide (u = VUndef)) as [Hu|Hu].
  - rewrite bool_decide_eq_false_2 by (intros Hn; by apply Hn). simpl.
    rewrite (get_obj h c ps) by done. fold u. rewrite Hu. simpl.
    unfold alloc. simpl. unfold tracked. simpl. rewrite lookup_insert_eq.
    unfold get. rewrite !lookup_insert_ne by done. by rewrite Hc.
  - rewrite bool_decide_eq_true_2 by done. simpl.
    destruct (isArray h u) eqn:Harr; simpl.
    + rewrite (get_obj h c ps) by done. fold u.
      unfold isArray in Harr. destruct u as [| | | | |a]; try done.
      destruct (h !! a) as [[us|]|] eqn:Ha; try done. simpl.
      unfold tracked. simpl. rewrite Ha.
      by rewrite !(get_obj h c ps) by done.
    + unfold alloc. simpl.
      set (a := fresh (dom h)) in *.
      assert (set (<[a := OArr [u]]> h) (VRef c) "universes" (VRef a)
              = <[c := OObj (<["universes"%string := VRef a]> ps)]>
                  (<[a := OArr [u]]> h)) as ->.
      { unfold set. rewrite lookup_insert_ne by done. by rewrite Hc. }
      repeat rewrite get_insert_obj.
      rewrite lookup_insert_eq. simpl.
      repeat rewrite get_insert_obj.
      rewrite !(lookup_insert_ne ps) by done.
      unfold tracked. simpl. rewrite lookup_insert_ne by done.
      rewrite lookup_insert_eq.
      repeat split; try done.
      unfold isArray in Harr. destruct u as [| | | | |b]; try done.
      by destruct (h !! b) as [[us|]|].
Qed.

(** A configuration object whose [universes] is an array: the store is
    left as it is and [this.universes] is that array. *)
Lemma Server_new_array h c ps p a us :
  h !! c = Some (OObj ps) →
  ps !! "universes"%string = Some (VRef a) → h !! a = Some (OArr us) →
  hp (Server_new h (VRef c) p) = h
  ∧ universes (Server_new h (VRef c) p) = VRef a.
Proof.
  intros Hc Hps Ha. unfold Server_new. simpl.
  rewrite !(get_obj h c ps) by done. rewrite Hps. simpl.
  assert (isArray h (VRef a) = true) as ->.
  { unfold isArray. by rewrite Ha. }
  simpl. rewrite (get_obj h c ps) by done. rewrite Hps. done.
Qed.

(** A configuration object whose [universes] is a single value: a fresh
    one-element array is stored in the caller's object and is
    [this.universes]. *)
Lemma Server_new_single h c ps p u :
  h !! c = Some (OObj ps) →
  ps !! "universes"%string = Some u → u ≠ VUndef → isArray h u = false →
  hp (Server_new h (VRef c) p)
  = <[c := OObj (<["universes"%string := VRef (fresh (dom h))]> ps)]>
      (<[fresh (dom h) := OArr [u]]> h)
  ∧ universes (Server_new h (VRef c) p) = VRef (fresh (dom h)).
Proof.
  intros Hc Hps Hu Harr. unfold Server_new. simpl.
  pose proof (fresh_ne h c _ Hc) as Hne.
  rewrite !(get_obj h c ps) by done. rewrite Hps. simpl.
  rewrite bool_decide_eq_true_2 by done. rewrite Harr. simpl.
  unfold alloc. simpl. set (a := fresh (dom h)) in *.
  assert (set (<[a := OArr [u]]> h) (VRef c) "universes" (VRef a)
          = <[c := OObj (<["universes"%string := VRef a]> ps)]>
              (<[a := OArr [u]]> h)) as ->.
  { unfold set. rewrite lookup_insert_ne by done. by rewrite Hc. }
  repeat rewrite get_insert_obj. rewrite lookup_insert_eq. done.
Qed.

End Constructor.

(** ** [addUniverses] and [dropUniverses] *)

Section Methods.
Context `{E131}.

Implicit Types (s : state) (x u : val) (us xs : list val).

Lemma tracked_inv s us :
  tracked s = Some us →
  ∃ l, universes s = VRef l ∧ hp s !! l = Some (OArr us).
Proof.
  unfold tracked, array_at. intros Ht.
  destruct (universes s) as [| | | | |l]; try done.
  exists l. split; [done|].
  destruct (hp s !! l) as [[ys|]|]; by simplify_eq.
Qed.

Lemma tracked_intro s l us :
  universes s = VRef l → hp s !! l = Some (OArr us) → tracked s = Some us.
Proof. unfold tracked, array_at. by intros -> ->. Qed.

Lemma addUniverse_tracked x s us :
  tracked s = Some us → x ∈ us → addUniverse x s = Some s.
Proof.
  intros Ht Hin. unfold addUniverse. rewrite Ht. simpl.
  unfold includes. by rewrite bool_decide_eq_true_2.
Qed.

Lemma addUniverse_new x s us l k :
  universes s = VRef l → hp s !! l = Some (OArr us) →
  x ∉ us → to_key x = Some k →
  addUniverse x s
  = Some (call (Call_addMembership (getMulticastGroup x) (_mcastif s))
            (with_seq (<[k := VNum 0]> (_lastSequenceNumber s))
               (with_hp (<[l := OArr (us ++ [x])]> (hp s)) s))).
Proof.
  intros Hu Hl Hin Hk. unfold addUniverse.
  rewrite (tracked_intro _ _ _ Hu Hl). simpl.
  unfold includes. rewrite bool_decide_eq_false_2 by done.
  unfold store_tracked. rewrite Hu. rewrite Hk. done.
Qed.

Lemma dropUniverse_absent x s us :
  tracked s = Some us → x ∉ us → dropUniverse x s = Some s.
Proof.
  intros Ht Hin. unfold dropUniverse. rewrite Ht. simpl.
  unfold includes. by rewrite bool_decide_eq_false_2.
Qed.

Lemma dropUniverse_tracked x s us l k :
  universes s = VRef l → hp s !! l = Some (OArr us) →
  x ∈ us → to_key x = Some k →
  dropUniverse x s
  = Some (call (Call_dropMembership (getMulticastGroup x) (_mcastif s))
            (with_seq (delete k (_lastSequenceNumber s))
               (with_hp (<[l := OArr (remove_first x us)]> (hp s)) s))).
Proof.
  intros Hu Hl Hin Hk. unfold dropUniverse.
  rewrite (tracked_intro _ _ _ Hu Hl). simpl.
  unfold includes. rewrite bool_decide_eq_true_2 by done. simpl.
  unfold store_tracked. rewrite Hu. rewrite Hk.
  by rewrite splice1_indexOf.
Qed.

(** Neither callback touches an array other than the tracked one, and
    [this.universes] keeps referring to the same array. *)
Lemma addUniverse_frame x s s' l :
  universes s = VRef l → addUniverse x s = Some s' →
  universes s' = VRef l ∧ ∀ a, a ≠ l → hp s' !! a = hp s !! a.
Proof.
  intros Hu. unfold addUniverse.
  destruct (tracked s) as [us|]; [simpl|done].
  destruct (includes us x); [by intros [= <-]|].
  unfold store_tracked. rewrite Hu.
  destruct (to_key x) as [k|]; [simpl|done].
  intros [= <-]. simpl. split; [done|].
  intros a Ha. by rewrite lookup_insert_ne.
Qed.

Lemma dropUniverse_frame x s s' l :
  universes s = VRef l → dropUniverse x s = Some s' →
  universes s' = VRef l ∧ ∀ a, a ≠ l → hp s' !! a = hp s !! a.
Proof.
  intros Hu. unfold dropUniverse.
  destruct (tracked s) as [us|]; [simpl|done].
  destruct (includes us x); simpl; [|by intros [= <-]].
  unfold store_tracked. rewrite Hu.
  destruct (to_key x) as [k|]; [simpl|done].
  intros [= <-]. simpl. split; [done|].
  intros a Ha. by rewrite lookup_insert_ne.
Qed.

Lemma added_tracked us xs : xs ⊆ us → added us xs = [].
Proof.
  induction xs as [|x xs IH]; intros Hsub; [done|].
  simpl. unfold includes. rewrite bool_decide_eq_true_2.
  - apply IH. intros y Hy. apply Hsub. by right.
  - apply Hsub. by left.
Qed.

(** The effect of the callback of [addUniverses] on a list of universes. *)
Lemma each_addUniverse xs : ∀ s us l,
  universes s = VRef l → hp s !! l = Some (OArr us) →
  Forall (λ x, is_Some (to_key x)) xs →
  ∃ s', each addUniverse xs s = Some s'
    ∧ universes s' = VRef l
    ∧ hp s' = <[l := OArr (us ++ added us xs)]> (hp s)
    ∧ _socket s'
      = _socket s
        ++ ((λ x, Call_addMembership (getMulticastGroup x) (_mcastif s))
              <$> added us xs)
    ∧ emitted s' = emitted s
    ∧ _mcastif s' = _mcastif s
    ∧ callback s' = callback s
    ∧ port s' = port s
    ∧ (∀ x k, x ∈ added us xs → to_key x = Some k →
              _lastSequenceNumber s' !! k = Some (VNum 0))
    ∧ (∀ k, (∀ x, x ∈ added us xs → to_key x ≠ Some k) →
            _lastSequenceNumber s' !! k = _lastSequenceNumber s !! k).
Proof.
  induction xs as [|x xs IH]; intros s us l Hu Hl Hkeys.
  - exists s. simpl. rewrite app_nil_r, insert_id by done.
    rewrite app_nil_r. repeat split; try done.
    intros x k Hx. by apply elem_of_nil in Hx.
  - apply Forall_cons in Hkeys as [[k Hk] Hkeys]. simpl.
    unfold includes. case_bool_decide as Hx.
    + rewrite (addUniverse_tracked x s us) by eauto using tracked_intro.
      simpl. by apply IH.
    + rewrite (addUniverse_new x s us l k) by done. simpl.
      set (s1 := call _ _).
      destruct (IH s1 (us ++ [x]) l) as
        (s' & -> & Hu' & Hhp & Hsock & Hem & Hif & Hcb & Hport & Hzero & Hrest);
        [done | by apply lookup_insert_eq | done |].
      exists s'. split; [done|]. split; [done|]. split.
      { rewrite Hhp. simpl. rewrite insert_insert_eq.
        by rewrite <- app_assoc. }
      split.
      { rewrite Hsock. simpl. by rewrite <- app_assoc. }
      do 4 (split; [done|]). split.
      * intros y ky Hy Hky.
        destruct (decide (Exists (λ z, to_key z = Some ky)
                            (added (us ++ [x]) xs))) as [Hex|Hnex].
        { apply Exists_exists in Hex as (z & Hz & Hkz). eauto. }
        rewrite Hrest.
        2:{ intros z Hz Hkz. apply Hnex. apply Exists_exists. eauto. }
        apply elem_of_cons in Hy as [->|Hy].
        { simpl. assert (k = ky) as -> by congruence.
          by rewrite lookup_insert_eq. }
        exfalso. apply Hnex. apply Exists_exists. eauto.
      * intros k' Hk'. rewrite Hrest.
        { simpl. rewrite lookup_insert_ne; [done|].
          intros ->. apply (Hk' x); [by left | done]. }
        intros z Hz. apply Hk'. by right.
Qed.

Lemma array_at_inv h v xs :
  array_at h v = Some xs → ∃ a, v = VRef a ∧ h !! a = Some (OArr xs).
Proof.
  unfold array_at. destruct v as [| | | | |a]; try done.
  intros Ha. exists a. split; [done|].
  destruct (h !! a) as [[ys|]|]; by simplify_eq.
Qed.

Lemma is_number_to_key x : is_number x → is_Some (to_key x).
Proof. intros [n ->]%is_number_key. by eexists. Qed.

(** [addUniverses] called with an array holding [xs] while [us] is
    tracked, in full. *)
Lemma addUniverses_effect v xs us s :
  array_at (hp s) v = Some xs →
  tracked s = Some us →
  Forall (λ x, is_Some (to_key x)) xs →
  ∃ s', addUniverses v s = Some s'
    ∧ universes s' = universes s
    ∧ tracked s' = Some (us ++ added us xs)
    ∧ (∀ a, universes s ≠ VRef a → hp s' !! a = hp s !! a)
    ∧ _socket s'
      = _socket s
        ++ ((λ x, Call_addMembership (getMulticastGroup x) (_mcastif s))
              <$> added us xs)
    ∧ emitted s' = emitted s
    ∧ _mcastif s' = _mcastif s
    ∧ callback s' = callback s
    ∧ port s' = port s
    ∧ (∀ x k, x ∈ added us xs → to_key x = Some k →
              _lastSequenceNumber s' !! k = Some (VNum 0))
    ∧ (∀ k, (∀ x, x ∈ added us xs → to_key x ≠ Some k) →
            _lastSequenceNumber s' !! k = _lastSequenceNumber s !! k).
Proof.
  intros (a & -> & Ha)%array_at_inv Ht Hkeys.
  destruct (tracked_inv _ _ Ht) as (l & Hu & Hl).
  unfold addUniverses. destruct (decide (a = l)) as [->|Hal].
  - assert (xs = us) as -> by congruence.
    unfold forEach. rewrite Hl.
    destruct (forEach_from_inv (λ s0, s0 = s) (λ x, x ∈ us) l addUniverse)
      with (n := length us) (k := 0%nat) (s := s) as (s' & -> & ->);
      [ | |done|].
    { intros ? ->. exists us. split; [done|]. by apply Forall_forall. }
    { intros x ? -> Hx. exists s. split; [|done].
      by apply (addUniverse_tracked x s us). }
    exists s. rewrite added_tracked by done. simpl.
    rewrite !app_nil_r. repeat split; try done.
    intros x k Hx. by apply elem_of_nil in Hx.
  - rewrite (forEach_each (λ s0, universes s0 = VRef l) a addUniverse xs);
      [ | |done|done].
    2:{ intros x s0 s0' Hu0 Hadd.
        destruct (addUniverse_frame _ _ _ _ Hu0 Hadd) as [? Hfr]. auto. }
    destruct (each_addUniverse xs s us l Hu Hl Hkeys) as
      (s' & -> & Hu' & Hhp & Hsock & Hem & Hif & Hcb & Hport & Hzero & Hrest).
    exists s'. split; [done|]. split; [congruence|]. split.
    { apply (tracked_intro _ l); [done|]. rewrite Hhp.
      by rewrite lookup_insert_eq. }
    split.
    { intros b Hb. rewrite Hhp. rewrite lookup_insert_ne; [done|].
      intros ->. by apply Hb. }
    done.
Qed.

(** C4: [addUniverses], called with an array of universe numbers [xs]
    while [us] is tracked, completes; the universes it adds, [added us xs],
    are the members of [xs] not tracked before, each once (a later
    duplicate is tracked by then); they are appended to the tracked list,
    each gets last seen sequence number 0, and one [addMembership] call is
    made for the group of each, in order. A universe tracked before keeps
    its place in the list and its last seen sequence number, and no call is
    made for it; no event is emitted. *)
Theorem addUniverses_spec v xs us s :
  array_at (hp s) v = Some xs →
  tracked s = Some us →
  Forall is_number xs →
  ∃ s', addUniverses v s = Some s'
    ∧ tracked s' = Some (us ++ added us xs)
    ∧ NoDup (added us xs)
    ∧ (∀ x, x ∈ added us xs ↔ x ∈ xs ∧ x ∉ us)
    ∧ (∀ x, x ∈ added us xs → lastSeqOf s' x = Some (VNum 0))
    ∧ (∀ u, u ∈ us → is_number u → lastSeqOf s' u = lastSeqOf s u)
    ∧ _socket s'
      = _socket s
        ++ ((λ x, Call_addMembership (getMulticastGroup x) (_mcastif s))
              <$> added us xs)
    ∧ emitted s' = emitted s.
Proof.
  intros Harr Ht Hnum.
  assert (Forall (λ x, is_Some (to_key x)) xs) as Hkeys.
  { eapply Forall_impl; [exact Hnum|]. intros x. apply is_number_to_key. }
  destruct (addUniverses_effect v xs us s Harr Ht Hkeys) as
    (s' & Hrun & _ & Ht' & _ & Hsock & Hem & _ & _ & _ & Hzero & Hrest).
  exists s'. split; [done|]. split; [done|].
  split; [apply NoDup_added|]. split; [apply elem_of_added|].
  split; [|split; [|done]].
  - intros x Hx. unfold lastSeqOf.
    assert (is_number x) as Hxn.
    { apply elem_of_added in Hx as [Hx _].
      eapply Forall_forall in Hnum; eauto. }
    destruct (is_number_to_key x Hxn) as [k Hk]. rewrite Hk. simpl.
    unfold lastSeq. by rewrite (Hzero x k Hx Hk).
  - intros u Hu Hun. unfold lastSeqOf.
    destruct (is_number_to_key u Hun) as [k Hk]. rewrite Hk. simpl.
    unfold lastSeq. rewrite Hrest; [done|].
    intros x Hx Hkx. apply elem_of_added in Hx as [Hx Hxus].
    assert (is_number x) as Hxn by (eapply Forall_forall in Hnum; eauto).
    assert (x = u) as -> by (apply to_key_number_inj; congruence).
    done.
Qed.

End Methods.

(** ** Multicast membership and bind completion *)

Section Membership.
Context `{E131}.

Implicit Types (s : state) (x u : val) (us xs : list val) (g : group).

Lemma joined_snoc g cs c :
  joined g (cs ++ [c])
  = match c with
    | Call_addMembership g' _ => if decide (g' = g) then true else joined g cs
    | Call_dropMembership g' _ =>
        if decide (g' = g) then false else joined g cs
    | Call_close => false
    | _ => joined g cs
    end.
Proof. unfold joined. by rewrite foldl_app. Qed.

Lemma joined_joins g cs ifc us :
  joined g (cs ++ joins ifc us) = true
  ↔ joined g cs = true ∨ ∃ u, u ∈ us ∧ getMulticastGroup u = g.
Proof.
  revert cs. induction us as [|u us IH]; intros cs.
  - unfold joins. simpl. rewrite app_nil_r. split; [by left|].
    intros [?|(u & Hu & _)]; [done|]. by apply elem_of_nil in Hu.
  - unfold joins in *. simpl.
    rewrite cons_middle, (assoc_L (++)). rewrite IH. rewrite joined_snoc.
    split.
    + intros [Hj|(v & Hv & Hg)].
      * destruct (decide (getMulticastGroup u = g)) as [Hg|Hg].
        { right. exists u. split; [by left|done]. }
        by left.
      * right. exists v. split; [by right|done].
    + intros [Hj|(v & Hv & Hg)].
      * left. by destruct (decide (getMulticastGroup u = g)).
      * apply elem_of_cons in Hv as [->|Hv].
        { left. by rewrite decide_True. }
        right. eauto.
Qed.

Lemma joined_app_quiet g cs cs' :
  Forall (λ c, match c with
               | Call_setMulticastInterface _ | Call_setMulticastLoopback _ =>
                   True
               | _ => False
               end) cs' →
  joined g (cs ++ cs') = joined g cs.
Proof.
  induction cs' as [|c cs' IH] using rev_ind; intros Hq.
  - by rewrite app_nil_r.
  - apply Forall_app in Hq as [Hq Hc]. apply Forall_inv in Hc.
    rewrite (assoc_L (++)). rewrite joined_snoc. rewrite IH by done.
    by destruct c.
Qed.

Lemma config_join_key u s k :
  to_key u = Some k →
  config_join u s
  = Some (call (Call_addMembership (getMulticastGroup u) (_mcastif s))
            (with_seq (<[k := VNum 0]> (_lastSequenceNumber s)) s)).
Proof. unfold config_join. by intros ->. Qed.

Lemma each_config_join us : ∀ s,
  Forall (λ x, is_Some (to_key x)) us →
  ∃ s', each config_join us s = Some s'
    ∧ hp s' = hp s ∧ universes s' = universes s
    ∧ _mcastif s' = _mcastif s ∧ callback s' = callback s
    ∧ port s' = port s ∧ emitted s' = emitted s
    ∧ _socket s' = _socket s ++ joins (_mcastif s) us
    ∧ (∀ u k, u ∈ us → to_key u = Some k →
              _lastSequenceNumber s' !! k = Some (VNum 0))
    ∧ (∀ k, (∀ u, u ∈ us → to_key u ≠ Some k) →
            _lastSequenceNumber s' !! k = _lastSequenceNumber s !! k).
Proof.
  induction us as [|u us IH]; intros s Hkeys.
  - exists s. simpl. unfold joins. simpl. rewrite app_nil_r.
    repeat split; try done. intros u k Hu. by apply elem_of_nil in Hu.
  - apply Forall_cons in Hkeys as [[k Hk] Hkeys]. simpl.
    rewrite (config_join_key u s k Hk). simpl.
    set (s1 := call _ _).
    destruct (IH s1 Hkeys) as
      (s' & -> & Hhp & Hu & Hif & Hcb & Hport & Hem & Hsock & Hzero & Hrest).
    exists s'. split; [done|]. do 6 (split; [done|]). split.
    { rewrite Hsock. simpl. unfold joins. simpl. by rewrite <- app_assoc. }
    split.
    + intros v kv Hv Hkv.
      destruct (decide (Exists (λ z, to_key z = Some kv) us)) as [Hex|Hnex].
      { apply Exists_exists in Hex as (z & Hz & Hkz). eauto. }
      rewrite Hrest.
      2:{ intros z Hz Hkz. apply Hnex. apply Exists_exists. eauto. }
      apply elem_of_cons in Hv as [->|Hv].
      { simpl. assert (k = kv) as -> by congruence.
        by rewrite lookup_insert_eq. }
      exfalso. apply Hnex. apply Exists_exists. eauto.
    + intros k' Hk'. rewrite Hrest.
      { simpl. rewrite lookup_insert_ne; [done|].
        intros ->. apply (Hk' u); [by left | done]. }
      intros z Hz. apply Hk'. by right.
Qed.

Lemma each_positional_join us : ∀ s,
  each positional_join us s
  = Some (State (hp s) (universes s) (port s) (_mcastif s)
            (_lastSequenceNumber s) (callback s)
            (_socket s ++ joins VUndef us) (emitted s)).
Proof.
  induction us as [|u us IH]; intros s.
  - simpl. unfold joins. simpl. rewrite app_nil_r. by destruct s.
  - simpl. rewrite IH. simpl. unfold joins. simpl.
    by rewrite <- app_assoc.
Qed.

(** Bind completion: the callback given to [bind] completes, makes the
    calls [bind_calls] on the socket and, in the configuration-object form,
    sets the last seen sequence number of every tracked universe to 0; the
    tracked list is as before. *)
Lemma bind_callback_effect s us :
  tracked s = Some us →
  Forall (λ x, is_Some (to_key x)) us →
  ∃ s', bind_callback s = Some s'
    ∧ hp s' = hp s ∧ universes s' = universes s
    ∧ _mcastif s' = _mcastif s ∧ callback s' = callback s
    ∧ port s' = port s ∧ emitted s' = emitted s
    ∧ _socket s' = _socket s ++ bind_calls s us
    ∧ (callback s ≠ PositionalForm →
       ∀ u k, u ∈ us → to_key u = Some k →
              _lastSequenceNumber s' !! k = Some (VNum 0))
    ∧ (∀ k, (∀ u, u ∈ us → to_key u ≠ Some k) →
            _lastSequenceNumber s' !! k = _lastSequenceNumber s !! k)
    ∧ (callback s = PositionalForm →
       _lastSequenceNumber s' = _lastSequenceNumber s).
Proof.
  intros Ht Hkeys. destruct (tracked_inv _ _ Ht) as (l & Hu & Hl).
  unfold bind_callback, bind_calls.
  destruct (callback s) as [config|] eqn:Hcb.
  - set (s1 := if bool_decide (_mcastif s ≠ VUndef) then _ else s).
    set (s2 := if bool_decide (get (hp s1) config "loopback" = VBool true)
               then _ else s1).
    assert (hp s1 = hp s ∧ universes s1 = universes s
            ∧ _mcastif s1 = _mcastif s ∧ callback s1 = callback s
            ∧ port s1 = port s ∧ emitted s1 = emitted s
            ∧ _lastSequenceNumber s1 = _lastSequenceNumber s
            ∧ _socket s1 = _socket s
                ++ (if bool_decide (_mcastif s ≠ VUndef)
                    then [Call_setMulticastInterface (_mcastif s)] else []))
      as (H1hp & H1u & H1if & H1cb & H1port & H1em & H1seq & H1sock).
    { subst s1. destruct (bool_decide (_mcastif s ≠ VUndef)); simpl;
        by rewrite ?app_nil_r. }
    assert (hp s2 = hp s ∧ universes s2 = universes s
            ∧ _mcastif s2 = _mcastif s ∧ callback s2 = callback s
            ∧ port s2 = port s ∧ emitted s2 = emitted s
            ∧ _lastSequenceNumber s2 = _lastSequenceNumber s
            ∧ _socket s2 = _socket s1
                ++ (if bool_decide (get (hp s) config "loopback" = VBool true)
                    then [Call_setMulticastLoopback true] else []))
      as (H2hp & H2u & H2if & H2cb & H2port & H2em & H2seq & H2sock).
    { subst s2. rewrite H1hp.
      destruct (bool_decide (get (hp s) config "loopback" = VBool true));
        simpl; rewrite ?app_nil_r; repeat split; congruence. }
    rewrite bool_decide_eq_true_2 by (rewrite H2u, Hu; done).
    rewrite H2u, Hu.
    change (forEach (VRef l) _ s2) with (forEach (VRef l) config_join s2).
    rewrite (forEach_each (λ _, True) l config_join us);
      [ | |done|by rewrite H2hp].
    2:{ intros x s0 s0' _. unfold config_join.
        destruct (to_key x); [simpl|done]. by intros [= <-]. }
    destruct (each_config_join us s2 Hkeys) as
      (s' & -> & Hhp & Hu' & Hif & Hcb' & Hport & Hem & Hsock & Hzero & Hrest).
    exists s'. split; [done|].
    split; [congruence|]. split; [congruence|]. split; [congruence|].
    split; [congruence|]. split; [congruence|]. split; [congruence|].
    split.
    { rewrite Hsock, H2sock, H1sock, H2if. by rewrite <- !app_assoc. }
    split; [by intros _|]. split; [|done].
    intros k Hk. rewrite Hrest by done. by rewrite H2seq.
  - rewrite Hu.
    change (forEach (VRef l) _ s) with (forEach (VRef l) positional_join s).
    rewrite (forEach_each (λ _, True) l positional_join us); [ | |done|done].
    2:{ intros x s0 s0' _. unfold positional_join. by intros [= <-]. }
    rewrite each_positional_join. eexists. split; [done|]. simpl.
    repeat split; try done.
Qed.

End Membership.

(** ** What runs of a server preserve *)

Section Invariant.
Context `{E131}.

Implicit Types (s : state) (x u : val) (us xs : list val) (g : group).

Lemma is_universe_to_key x : is_universe x → is_Some (to_key x).
Proof. intros Hx. by apply is_number_to_key, is_universe_number. Qed.

Lemma is_universe_key_inj u v :
  is_universe u → is_universe v → to_key u = to_key v → u = v.
Proof.
  intros Hu Hv. apply to_key_number_inj; by apply is_universe_number.
Qed.

Lemma joined_bind_calls g s us :
  joined g (_socket s ++ bind_calls s us) = true
  ↔ joined g (_socket s) = true ∨ ∃ u, u ∈ us ∧ getMulticastGroup u = g.
Proof.
  unfold bind_calls. destruct (callback s) as [config|].
  - rewrite !(assoc_L (++)). rewrite joined_joins.
    rewrite <- (assoc_L (++)). rewrite joined_app_quiet; [done|].
    apply Forall_app. split; case_bool_decide; by repeat constructor.
  - apply joined_joins.
Qed.

(** The callback of [addUniverses], on a universe number. *)
Lemma addUniverse_ok x s us :
  is_universe x → sound_with us s →
  ∃ s' us', addUniverse x s = Some s'
    ∧ sound_with us' s'
    ∧ (complete_with us s → complete_with us' s')
    ∧ universes s' = universes s
    ∧ (∀ a, universes s ≠ VRef a → hp s' !! a = hp s !! a).
Proof.
  intros Hx (Ht & Hval & Hnd & Hj).
  destruct (tracked_inv _ _ Ht) as (l & Hu & Hl).
  destruct (decide (x ∈ us)) as [Hin|Hin].
  { exists s, us. rewrite (addUniverse_tracked x s us) by done.
    split; [done|]. split; [by repeat split|]. by auto. }
  destruct (is_universe_to_key x Hx) as [k Hk].
  rewrite (addUniverse_new x s us l k) by done.
  eexists _, (us ++ [x]). split; [done|]. split; [|split; [|split]].
  - split.
    { unfold tracked. simpl. rewrite Hu. simpl. by rewrite lookup_insert_eq. }
    split; [apply Forall_app; by repeat constructor|]. split.
    { apply NoDup_app. split; [done|]. split; [|apply NoDup_singleton].
      intros y Hy Hy'. apply list_elem_of_singleton in Hy' as ->. done. }
    intros g. simpl. rewrite joined_snoc.
    destruct (decide (getMulticastGroup x = g)) as [Hg|Hg].
    + intros _. exists x. split; [|done]. apply elem_of_app. right. by left.
    + intros (u & Hu' & Hgu)%Hj. exists u. split; [|done].
      apply elem_of_app. by left.
  - intros [Hall Hkeys]. split.
    + intros u Hu'. simpl. rewrite joined_snoc.
      destruct (decide (getMulticastGroup x = getMulticastGroup u)); [done|].
      apply elem_of_app in Hu' as [Hu'|Hu']; [auto|].
      apply list_elem_of_singleton in Hu' as ->. done.
    + simpl. intros Hcb u Hu'.
      apply elem_of_app in Hu' as [Hu'|Hu'];
        [|apply list_elem_of_singleton in Hu' as ->].
      * destruct (Hkeys Hcb u Hu') as (ku & Hku & Hsome).
        exists ku. split; [done|]. rewrite lookup_insert.
        by destruct (decide (k = ku)).
      * exists k. split; [done|]. by rewrite lookup_insert_eq.
  - done.
  - simpl. intros a Ha. rewrite lookup_insert_ne; [done|].
    intros ->. by apply Ha.
Qed.

(** The callback of [dropUniverses], on a universe number. *)
Lemma dropUniverse_ok x s us :
  is_universe x → sound_with us s →
  ∃ s' us', dropUniverse x s = Some s'
    ∧ sound_with us' s'
    ∧ (groups_distinct → complete_with us s → complete_with us' s')
    ∧ universes s' = universes s
    ∧ (∀ a, universes s ≠ VRef a → hp s' !! a = hp s !! a).
Proof.
  intros Hx (Ht & Hval & Hnd & Hj).
  destruct (tracked_inv _ _ Ht) as (l & Hu & Hl).
  destruct (decide (x ∈ us)) as [Hin|Hin].
  2:{ exists s, us. rewrite (dropUniverse_absent x s us) by done.
      split; [done|]. split; [by repeat split|]. by auto. }
  destruct (is_universe_to_key x Hx) as [k Hk].
  rewrite (dropUniverse_tracked x s us l k) by done.
  destruct (NoDup_remove_first x us Hnd) as [Hnd' Hx'].
  eexists _, (remove_first x us). split; [done|].
  split; [|split; [|split]].
  - split.
    { unfold tracked. simpl. rewrite Hu. simpl. by rewrite lookup_insert_eq. }
    split.
    { apply Forall_forall. intros y Hy%elem_of_remove_first.
      eapply Forall_forall in Hval; eauto. }
    split; [done|].
    intros g. simpl. rewrite joined_snoc.
    destruct (decide (getMulticastGroup x = g)) as [Hg|Hg]; [done|].
    intros (u & Hu' & Hgu)%Hj. exists u. split; [|done].
    apply elem_of_remove_first_ne; [|done]. intros ->. done.
  - intros Hdist [Hall Hkeys].
    assert (∀ u, u ∈ remove_first x us → u ∈ us ∧ is_universe u ∧ u ≠ x)
      as Hrem.
    { intros u Hu'. pose proof (elem_of_remove_first _ _ _ Hu') as Hu''.
      split; [done|]. split; [eapply Forall_forall in Hval; eauto|].
      intros ->. done. }
    split.
    + intros u (Hu' & Huv & Hne)%Hrem. simpl. rewrite joined_snoc.
      destruct (decide (getMulticastGroup x = getMulticastGroup u)) as [Hg|Hg];
        [|auto].
      exfalso. apply Hne. symmetry. by apply Hdist.
    + simpl. intros Hcb u (Hu' & Huv & Hne)%Hrem.
      destruct (Hkeys Hcb u Hu') as (ku & Hku & Hsome).
      exists ku. split; [done|]. rewrite lookup_delete_ne; [done|].
      intros ->. apply Hne. apply is_universe_key_inj; congruence.
  - done.
  - simpl. intros a Ha. rewrite lookup_insert_ne; [done|].
    intros ->. by apply Ha.
Qed.

(** An array literal is allocated away from every array in the store. *)
Lemma literal_spec xs s :
  ∃ a, literal xs s = (VRef a, with_hp (<[a := OArr xs]> (hp s)) s)
       ∧ hp s !! a = None.
Proof.
  exists (fresh (dom (hp s))). split; [done|].
  apply not_elem_of_dom. apply is_fresh.
Qed.

Lemma tracked_literal a o s us :
  hp s !! a = None → tracked s = Some us →
  tracked (with_hp (<[a := o]> (hp s)) s) = Some us
  ∧ universes s ≠ VRef a.
Proof.
  intros Ha Ht. destruct (tracked_inv _ _ Ht) as (l & Hu & Hl).
  assert (a ≠ l) as Hne by congruence. split.
  - unfold tracked. simpl. rewrite Hu. simpl.
    rewrite lookup_insert_ne by done. by rewrite Hl.
  - rewrite Hu. congruence.
Qed.

(** [forEach] over an array of universe numbers other than the tracked
    one, for a callback that behaves like those of [addUniverses] and
    [dropUniverses]. *)
Lemma forEach_ok (C : Prop) (f : val → state → option state) :
  (∀ x s us, is_universe x → sound_with us s →
     ∃ s' us', f x s = Some s'
       ∧ sound_with us' s'
       ∧ (C → complete_with us s → complete_with us' s')
       ∧ universes s' = universes s
       ∧ (∀ a, universes s ≠ VRef a → hp s' !! a = hp s !! a)) →
  ∀ a xs s us,
    Forall is_universe xs → hp s !! a = Some (OArr xs) →
    universes s ≠ VRef a → sound_with us s →
    ∃ s' us', forEach (VRef a) f s = Some s'
      ∧ sound_with us' s'
      ∧ (C → complete_with us s → complete_with us' s').
Proof.
  intros Hf a xs s us Hxs Ha Hne Hs. unfold forEach. rewrite Ha.
  destruct (forEach_from_inv
    (λ s0, (∃ us0, sound_with us0 s0
                   ∧ (C → complete_with us s → complete_with us0 s0))
           ∧ hp s0 !! a = Some (OArr xs) ∧ universes s0 ≠ VRef a)
    (λ x, is_universe x) a f) with (n := length xs) (k := 0%nat) (s := s)
    as (s' & Hrun & (us' & Hs' & Hc') & _).
  - intros s0 (_ & Ha0 & _). eauto.
  - intros x s0 ((us0 & Hs0 & Hc0) & Ha0 & Hne0) Hx.
    destruct (Hf x s0 us0 Hx Hs0) as (s1 & us1 & Hrun & Hs1 & Hc1 & Hu1 & Hfr).
    exists s1. split; [done|]. split; [|split].
    + exists us1. split; [done|]. auto.
    + rewrite Hfr; done.
    + by rewrite Hu1.
  - split; [|done]. exists us. auto.
  - exists s', us'. auto.
Qed.

Lemma onMessage_frame m s :
  hp (onMessage m s) = hp s
  ∧ universes (onMessage m s) = universes s
  ∧ _socket (onMessage m s) = _socket s
  ∧ callback (onMessage m s) = callback s
  ∧ ∀ k, is_Some (_lastSequenceNumber s !! k) →
         is_Some (_lastSequenceNumber (onMessage m s) !! k).
Proof.
  unfold onMessage. case_bool_decide; [done|].
  destruct (discard _ _); simpl; repeat split; try done.
  all: intros k Hk; rewrite lookup_insert; by destruct (decide _).
Qed.

(** One step of a run. *)
Lemma step_ok o s us :
  universe_op o → sound_with us s →
  ∃ s' us', step o s = Some s'
    ∧ sound_with us' s'
    ∧ (groups_distinct → complete_with us s ∨ o = Sock_listening →
       complete_with us' s').
Proof.
  intros Hop Hs. destruct o as [|m|err| |xs|xs|v|v|]; try done; cbn [step].
  - (* bind completion *)
    destruct Hs as (Ht & Hval & Hnd & Hj).
    destruct (bind_callback_effect s us Ht) as
      (s1 & -> & Hhp & Hu & Hif & Hcb & Hport & Hem & Hsock & Hzero & _).
    { eapply Forall_impl; [exact Hval|]. apply is_universe_to_key. }
    exists (onListening s1), us. split; [done|]. split.
    + split. { unfold tracked in *. simpl. by rewrite Hhp, Hu. }
      do 2 (split; [done|]). simpl. intros g. rewrite Hsock.
      rewrite joined_bind_calls. intros [Hg|Hg]; [auto|done].
    + intros _ _. split; simpl.
      * intros u Hu'. rewrite Hsock. apply joined_bind_calls. eauto.
      * rewrite Hcb. intros Hne u Hu'.
        eapply Forall_forall in Hval; [|exact Hu'].
        destruct (is_universe_to_key u Hval) as [k Hk].
        exists k. split; [done|]. by rewrite (Hzero Hne u k).
  - (* a datagram *)
    destruct (onMessage_frame m s) as (Hhp & Hu & Hsock & Hcb & Hkeys).
    destruct Hs as (Ht & Hval & Hnd & Hj).
    exists (onMessage m s), us. split; [done|]. split.
    + split. { unfold tracked in *. by rewrite Hhp, Hu. }
      do 2 (split; [done|]). by rewrite Hsock.
    + intros _ [[Hall Hk]|?]; [|done]. split.
      * by rewrite Hsock.
      * rewrite Hcb. intros Hne u Hu'.
        destruct (Hk Hne u Hu') as (k & ? & ?). eauto.
  - exists (onError err s), us. split; [done|]. split; [done|].
    by intros _ [?|?].
  - exists (onClose s), us. split; [done|]. split; [done|].
    by intros _ [?|?].
  - (* addUniverses with an array literal *)
    destruct (literal_spec xs s) as (a & -> & Ha).
    destruct Hs as (Ht & Hval & Hnd & Hj).
    destruct (tracked_literal a (OArr xs) s us Ha Ht) as [Ht' Hne].
    destruct (forEach_ok True addUniverse) with
      (a := a) (xs := xs) (us := us)
      (s := with_hp (<[a := OArr xs]> (hp s)) s) as (s' & us' & Hrun & Hs' & Hc').
    + intros x s0 us0 Hx Hs0.
      destruct (addUniverse_ok x s0 us0 Hx Hs0) as (s1 & us1 & ? & ? & ? & ?).
      exists s1, us1. auto.
    + by apply forallb_True.
    + simpl. by rewrite lookup_insert_eq.
    + done.
    + done.
    + exists s', us'. split; [done|]. split; [done|].
      intros _ [Hc|?]; [|done]. by apply Hc'.
  - (* dropUniverses with an array literal *)
    destruct (literal_spec xs s) as (a & -> & Ha).
    destruct Hs as (Ht & Hval & Hnd & Hj).
    destruct (tracked_literal a (OArr xs) s us Ha Ht) as [Ht' Hne].
    destruct (forEach_ok groups_distinct dropUniverse) with
      (a := a) (xs := xs) (us := us)
      (s := with_hp (<[a := OArr xs]> (hp s)) s) as (s' & us' & Hrun & Hs' & Hc').
    + intros x s0 us0 Hx Hs0. by apply dropUniverse_ok.
    + by apply forallb_True.
    + simpl. by rewrite lookup_insert_eq.
    + done.
    + done.
    + exists s', us'. split; [done|]. split; [done|].
      intros Hd [Hc|?]; [|done]. by apply Hc'.
Qed.

(** A run of such steps completes and keeps the tracked list sound; once
    bind has completed, the tracked list is also complete. *)
Lemma run_ok os : ∀ s us,
  Forall universe_op os → sound_with us s →
  ∃ s' us', run os s = Some s'
    ∧ sound_with us' s'
    ∧ (groups_distinct → complete_with us s ∨ Sock_listening ∈ os →
       complete_with us' s').
Proof.
  induction os as [|o os IH]; intros s us Hops Hs.
  - exists s, us. split; [done|]. split; [done|].
    intros _ [?|Hin]; [done|]. by apply elem_of_nil in Hin.
  - apply Forall_cons in Hops as [Ho Hops]. simpl.
    destruct (step_ok o s us Ho Hs) as (s1 & us1 & -> & Hs1 & Hc1). simpl.
    destruct (IH s1 us1 Hops Hs1) as (s' & us' & Hrun & Hs' & Hc').
    exists s', us'. split; [done|]. split; [done|].
    intros Hd Hc. apply Hc'; [done|].
    destruct Hc as [Hc|Hin]; [left; apply Hc1; auto|].
    apply elem_of_cons in Hin as [<-|Hin]; [|by right].
    left. apply Hc1; auto.
Qed.

Lemma run_after os s : completes os s = true → run os s = Some (after os s).
Proof.
  unfold completes, after. by destruct (run os s).
Qed.

Lemma step_after o s : completes [o] s = true → step o s = Some (after [o] s).
Proof.
  unfold completes, after. simpl. by destruct (step o s).
Qed.

End Invariant.

(** ** The constructor's calling conventions *)

Section Claims.
Context `{E131}.

Implicit Types (s : state) (x u v p : val) (us xs : list val) (g : group)
  (h : gmap loc obj).

(** An omitted first argument is an empty configuration object. *)
Lemma Server_new_omitted h p :
  Server_new h VUndef p
  = Server_new (<[fresh (dom h) := OObj ∅]> h) (VRef (fresh (dom h))) p.
Proof. done. Qed.

(** C3, as the code has it: the constructor takes the configuration-object
    form when its first argument is a plain object or is omitted, and the
    positional form when it is a value that is not an object. For a
    configuration object, the tracked list is empty when [universes] is
    omitted, is the array when [universes] is one, and otherwise holds the
    single [universes] value; the port is the first truthy one of
    [config.port], the [port] argument and the default port. An omitted
    first argument is an empty configuration object, so that the tracked
    list is empty, not [[1]]. In the positional form the single value given
    is the one-element tracked list, and the port is the [port] argument if
    truthy and the default port otherwise. A first argument that is itself
    an array is not covered. *)
Theorem Server_new_spec h v p :
  (∀ c ps, v = VRef c → h !! c = Some (OObj ps) →
     tracked (Server_new h v p)
     = Some (config_universes h (default VUndef (ps !! "universes")))
     ∧ port (Server_new h v p)
       = js_or (js_or (default VUndef (ps !! "port")) p) DEFAULT_PORT
     ∧ callback (Server_new h v p) = ConfigForm v)
  ∧ (v = VUndef →
     tracked (Server_new h v p) = Some []
     ∧ port (Server_new h v p) = js_or p DEFAULT_PORT
     ∧ callback (Server_new h v p) = ConfigForm (VRef (fresh (dom h))))
  ∧ (instanceof_Object v = false → v ≠ VUndef →
     tracked (Server_new h v p) = Some [v]
     ∧ port (Server_new h v p) = js_or p DEFAULT_PORT
     ∧ callback (Server_new h v p) = PositionalForm).
Proof.
  split; [|split].
  - intros c ps -> Hc.
    destruct (Server_new_object h c ps p Hc) as (? & ? & _ & ?). done.
  - intros ->. rewrite Server_new_omitted.
    destruct (Server_new_object (<[fresh (dom h) := OObj ∅]> h)
                (fresh (dom h)) ∅ p) as (Ht & Hp & _ & Hcb).
    { apply lookup_insert_eq. }
    rewrite Ht, Hp, Hcb. done.
  - intros Hobj Hv. unfold Server_new. rewrite Hobj.
    rewrite (bool_decide_eq_false_2 (v = VUndef)) by done. simpl.
    rewrite bool_decide_eq_true_2 by done.
    assert (isArray h v = false) as -> by (by destruct v).
    simpl. unfold alloc. simpl. unfold tracked. simpl.
    by rewrite lookup_insert_eq.
Qed.

(** ** Dropping and adding again *)

Lemma step_dropUniverses_single x s :
  ∃ a, hp s !! a = None
       ∧ step (Do_dropUniverses [x]) s
         = dropUniverse x (with_hp (<[a := OArr [x]]> (hp s)) s).
Proof.
  destruct (literal_spec [x] s) as (a & Hlit & Ha).
  exists a. split; [done|]. cbn [step]. rewrite Hlit.
  unfold dropUniverses, forEach. simpl. rewrite lookup_insert_eq. simpl.
  rewrite lookup_insert_eq. simpl.
  by destruct (dropUniverse x _).
Qed.

Lemma step_addUniverses_single x s :
  ∃ a, hp s !! a = None
       ∧ step (Do_addUniverses [x]) s
         = addUniverse x (with_hp (<[a := OArr [x]]> (hp s)) s).
Proof.
  destruct (literal_spec [x] s) as (a & Hlit & Ha).
  exists a. split; [done|]. cbn [step]. rewrite Hlit.
  unfold addUniverses, forEach. simpl. rewrite lookup_insert_eq. simpl.
  rewrite lookup_insert_eq. simpl.
  by destruct (addUniverse x _).
Qed.

Lemma literal_tracked a o s us :
  hp s !! a = None → tracked s = Some us →
  ∃ l, a ≠ l ∧ universes s = VRef l
       ∧ (<[a := o]> (hp s)) !! l = Some (OArr us).
Proof.
  intros Ha Ht. destruct (tracked_inv _ _ Ht) as (l & Hu & Hl).
  assert (a ≠ l) as Hne by congruence.
  exists l. split; [done|]. split; [done|].
  by rewrite lookup_insert_ne.
Qed.

(** C5, as the code has it: [dropUniverses([U])] for a tracked universe
    number [U] removes the first occurrence of [U] from the tracked list,
    deletes its entry of the map of last seen sequence numbers and calls
    [dropMembership] for its group, after which the group is not joined.
    When [U] occurred once in the list, [U] is then no longer tracked, and a
    following [addUniverses([U])] tracks it again with last seen sequence
    number 0, whatever it was before, and joins its group. A universe that
    is not tracked is ignored: the tracked list, the map, the socket and
    the events are as before. *)
Theorem dropUniverses_spec U us s :
  tracked s = Some us → is_number U → U ∈ us →
  ∃ s1, step (Do_dropUniverses [U]) s = Some s1
    ∧ tracked s1 = Some (remove_first U us)
    ∧ lastSeqOf s1 U = Some VUndef
    ∧ (∀ k, to_key U = Some k → _lastSequenceNumber s1 !! k = None)
    ∧ _socket s1
      = _socket s ++ [Call_dropMembership (getMulticastGroup U) (_mcastif s)]
    ∧ joined (getMulticastGroup U) (_socket s1) = false
    ∧ (U ∉ remove_first U us →
       ∃ s2, step (Do_addUniverses [U]) s1 = Some s2
         ∧ tracked s2 = Some (remove_first U us ++ [U])
         ∧ lastSeqOf s2 U = Some (VNum 0)
         ∧ joined (getMulticastGroup U) (_socket s2) = true)
    ∧ (∀ V, V ∉ us →
       ∃ s', step (Do_dropUniverses [V]) s = Some s'
         ∧ tracked s' = Some us
         ∧ _lastSequenceNumber s' = _lastSequenceNumber s
         ∧ _socket s' = _socket s
         ∧ emitted s' = emitted s).
Proof.
  intros Ht HU Hin.
  destruct (is_number_to_key U HU) as [k Hk].
  destruct (step_dropUniverses_single U s) as (a & Ha & ->).
  destruct (literal_tracked a (OArr [U]) s us Ha Ht) as (l & Hal & Hu & Hl).
  rewrite (dropUniverse_tracked U _ us l k) by done.
  set (s1 := call _ _).
  assert (tracked s1 = Some (remove_first U us)) as Ht1.
  { unfold tracked. simpl. rewrite Hu. simpl. by rewrite lookup_insert_eq. }
  assert (_lastSequenceNumber s1 = delete k (_lastSequenceNumber s)) as Hseq1
    by done.
  assert (_socket s1
          = _socket s
            ++ [Call_dropMembership (getMulticastGroup U) (_mcastif s)])
    as Hsock1 by done.
  clearbody s1.
  exists s1. split; [done|]. split; [done|].
  split. { unfold lastSeqOf, lastSeq. rewrite Hk, Hseq1. simpl.
           by rewrite lookup_delete_eq. }
  split. { intros k' Hk'. assert (k' = k) as -> by congruence.
           rewrite Hseq1. apply lookup_delete_eq. }
  split; [done|].
  split. { rewrite Hsock1, joined_snoc. by rewrite decide_True. }
  split.
  - intros Hgone.
    destruct (step_addUniverses_single U s1) as (a2 & Ha2 & ->).
    destruct (literal_tracked a2 (OArr [U]) s1 _ Ha2 Ht1)
      as (l2 & Hal2 & Hu2 & Hl2).
    rewrite (addUniverse_new U _ (remove_first U us) l2 k) by done.
    eexists. split; [done|]. simpl.
    split. { unfold tracked. simpl. rewrite Hu2. simpl.
             by rewrite lookup_insert_eq. }
    split. { unfold lastSeqOf, lastSeq. rewrite Hk. simpl.
             by rewrite lookup_insert_eq. }
    rewrite joined_snoc. by rewrite decide_True.
  - intros V HV.
    destruct (step_dropUniverses_single V s) as (a2 & Ha2 & ->).
    destruct (tracked_literal a2 (OArr [V]) s us Ha2 Ht) as [Ht2 _].
    rewrite (dropUniverse_absent V _ us) by done.
    eexists. split; [done|]. done.
Qed.

(** ** [addUniverses] before bind completion *)

(** The socket of a server just constructed has been created and told to
    bind to [this.port], and nothing else. *)
Lemma Server_new_socket h v p :
  ∃ r a, _socket (Server_new h v p)
         = [Call_createSocket r; Call_bind (port (Server_new h v p)) a].
Proof.
  unfold Server_new.
  destruct (instanceof_Object v || bool_decide (v = VUndef)).
  - destruct (if truthy v then _ else _) as [config h1].
    destruct (if truthy (get _ config "universes") then _ else _)
      as [us h3].
    by eexists _, _.
  - destruct (if bool_decide (v ≠ VUndef) && negb (isArray h v) then _ else _)
      as [u1 h1].
    destruct (if truthy u1 then _ else _) as [us h2].
    by eexists _, _.
Qed.

(** C8, as the code has it: [addUniverses] called with universe numbers on
    a server just constructed, before bind completion, is carried out at
    once by the server's own code: the requested universes are tracked,
    the last seen sequence number of each universe newly tracked is 0, and
    [addMembership] has been called for each of them, in order, on the
    socket still binding - the calls follow [createSocket] and [bind] in
    the socket's log. Nothing is deferred: no event is emitted, and the
    callback given to [bind] is as the constructor registered it. *)
Theorem addUniverses_before_bind h v p us xs :
  tracked (Server_new h v p) = Some us → Forall is_number xs →
  ∃ s1,
    step (Do_addUniverses xs) (Server_new h v p) = Some s1
    ∧ tracked s1 = Some (us ++ added us xs)
    ∧ (∀ x, x ∈ xs → x ∈ us ++ added us xs)
    ∧ (∀ x, x ∈ added us xs → lastSeqOf s1 x = Some (VNum 0))
    ∧ (∃ r a, _socket s1
              = [Call_createSocket r; Call_bind (port (Server_new h v p)) a]
                ++ joins (_mcastif (Server_new h v p)) (added us xs))
    ∧ emitted s1 = []
    ∧ callback s1 = callback (Server_new h v p).
Proof.
  intros Ht Hxs. cbn [step].
  destruct (Server_new_fresh h v p) as (_ & Hem0 & _).
  destruct (Server_new_socket h v p) as (r & b & Hsock0).
  set (s0 := Server_new h v p) in *. clearbody s0.
  destruct (literal_spec xs s0) as (a & -> & Ha).
  destruct (tracked_literal a (OArr xs) s0 us Ha Ht) as [Ht' Hne].
  destruct (addUniverses_effect (VRef a) xs us
              (with_hp (<[a := OArr xs]> (hp s0)) s0)) as
    (s1 & Hrun & _ & Ht1 & _ & Hsock1 & Hem1 & _ & Hcb1 & _ & Hzero & _).
  { unfold array_at. simpl. by rewrite lookup_insert_eq. }
  { done. }
  { eapply Forall_impl; [exact Hxs|]. apply is_number_to_key. }
  exists s1. split; [done|]. split; [done|]. split.
  { intros x Hx. apply elem_of_app.
    destruct (decide (x ∈ us)); [by left|]. right. by apply elem_of_added. }
  split.
  { intros x Hx. pose proof Hx as [Hx' _]%elem_of_added.
    assert (is_number x) as Hn by (eapply Forall_forall in Hxs; eauto).
    destruct (is_number_to_key x Hn) as [k Hk].
    unfold lastSeqOf, lastSeq. rewrite Hk. simpl.
    by rewrite (Hzero x k Hx Hk). }
  split.
  { exists r, b. rewrite Hsock1. simpl. by rewrite Hsock0. }
  split; [by rewrite Hem1|]. done.
Qed.

(** ** Membership and tracked state over runs *)

(** C2, as the code has it: for a server constructed with distinct
    universe numbers, where universes have distinct groups, every run of
    [addUniverses] / [dropUniverses] calls with universe numbers, datagrams
    and socket events in which bind has completed ends in a state where the
    joined groups are exactly those of the universes of the tracked list
    [this.universes]; in the configuration-object form every tracked
    universe moreover has an entry in the map of last seen sequence
    numbers. *)
Theorem membership_invariant h v p us0 pre post :
  groups_distinct →
  tracked (Server_new h v p) = Some us0 →
  Forall is_universe us0 → NoDup us0 →
  Forall universe_op pre → Forall universe_op post →
  ∃ s us, run (pre ++ Sock_listening :: post) (Server_new h v p) = Some s
    ∧ tracked s = Some us
    ∧ (∀ u, is_universe u →
            (joined (getMulticastGroup u) (_socket s) = true ↔ u ∈ us))
    ∧ (∀ g, joined g (_socket s) = true →
            ∃ u, u ∈ us ∧ getMulticastGroup u = g)
    ∧ (callback s ≠ PositionalForm →
       ∀ u, u ∈ us → ∃ k, to_key u = Some k
                          ∧ is_Some (_lastSequenceNumber s !! k)).
Proof.
  intros Hdist Ht Hval Hnd Hpre Hpost.
  destruct (Server_new_fresh h v p) as (_ & _ & Hnone).
  destruct (run_ok (pre ++ Sock_listening :: post) (Server_new h v p) us0)
    as (s & us & Hrun & (Ht' & Hval' & Hnd' & Hj) & Hc).
  { apply Forall_app. split; [done|]. by constructor. }
  { repeat split; try done. intros g. by rewrite Hnone. }
  destruct Hc as [Hall Hkeys]; [done| |].
  { right. apply elem_of_app. right. by left. }
  exists s, us. split; [done|]. split; [done|]. split; [|by split].
  intros u Hu. split; [|by apply Hall].
  intros (u' & Hu' & Hg)%Hj.
  assert (u' = u) as <-; [|done].
  apply Hdist; [|done..]. eapply Forall_forall in Hval'; eauto.
Qed.

(** ** After [close] *)

Lemma call_prefix cs es c s :
  call c (prefix_logs cs es s) = prefix_logs cs es (call c s).
Proof. unfold call, prefix_logs. simpl. by rewrite app_assoc. Qed.

Lemma emit_prefix cs es e s :
  emit e (prefix_logs cs es s) = prefix_logs cs es (emit e s).
Proof. unfold emit, prefix_logs. simpl. by rewrite app_assoc. Qed.

Lemma addUniverse_prefix cs es x s :
  addUniverse x (prefix_logs cs es s) = prefix_logs cs es <$> addUniverse x s.
Proof.
  unfold addUniverse. change (tracked (prefix_logs cs es s)) with (tracked s).
  destruct (tracked s) as [us|]; [simpl|done].
  destruct (includes us x); [done|].
  unfold store_tracked. simpl.
  destruct (universes s); destruct (to_key x); simpl; try done.
  all: by rewrite <- call_prefix.
Qed.

Lemma dropUniverse_prefix cs es x s :
  dropUniverse x (prefix_logs cs es s)
  = prefix_logs cs es <$> dropUniverse x s.
Proof.
  unfold dropUniverse. change (tracked (prefix_logs cs es s)) with (tracked s).
  destruct (tracked s) as [us|]; [simpl|done].
  destruct (includes us x); [simpl|done].
  unfold store_tracked. simpl.
  destruct (universes s); destruct (to_key x); simpl; try done.
  all: by rewrite <- call_prefix.
Qed.

Lemma bind_callback_prefix cs es s :
  bind_callback (prefix_logs cs es s) = prefix_logs cs es <$> bind_callback s.
Proof.
  unfold bind_callback. simpl. destruct (callback s) as [config|].
  - set (s1 := if bool_decide (_mcastif s ≠ VUndef) then _ else s).
    set (s1' := if bool_decide (_mcastif s ≠ VUndef) then _ else _).
    assert (s1' = prefix_logs cs es s1) as ->.
    { subst s1 s1'. destruct (bool_decide (_mcastif s ≠ VUndef)); [|done].
      apply call_prefix. }
    change (hp (prefix_logs cs es s1)) with (hp s1).
    set (s2 := if bool_decide (get (hp s1) config "loopback" = VBool true)
               then call _ s1 else s1).
    set (s2' := if bool_decide (get (hp s1) config "loopback" = VBool true)
                then _ else _).
    assert (s2' = prefix_logs cs es s2) as ->.
    { subst s2 s2'.
      destruct (bool_decide (get (hp s1) config "loopback" = VBool true));
        [|done].
      apply call_prefix. }
    change (universes (prefix_logs cs es s2)) with (universes s2).
    case_bool_decide; [|done].
    apply forEach_prefix. intros x s0.
    destruct (to_key x); simpl; [|done]. by rewrite <- call_prefix.
  - change (universes (prefix_logs cs es s)) with (universes s).
    apply forEach_prefix. intros x s0. simpl. by rewrite <- call_prefix.
Qed.

Lemma onMessage_prefix cs es m s :
  onMessage m (prefix_logs cs es s) = prefix_logs cs es (onMessage m s).
Proof.
  unfold onMessage. case_bool_decide; [apply emit_prefix|].
  change (lastSeq (prefix_logs cs es s)) with (lastSeq s).
  destruct (discard _ _); rewrite emit_prefix; done.
Qed.

Lemma literal_prefix cs es xs s :
  literal xs (prefix_logs cs es s)
  = let '(v, s0) := literal xs s in (v, prefix_logs cs es s0).
Proof. done. Qed.

(** Steps only append to the logs. *)
Lemma step_prefix cs es o s :
  step o (prefix_logs cs es s) = prefix_logs cs es <$> step o s.
Proof.
  destruct o as [|m|err| |xs|xs|v|v|]; cbn [step].
  - rewrite bind_callback_prefix. destruct (bind_callback s); [simpl|done].
    unfold onListening. by rewrite emit_prefix.
  - by rewrite onMessage_prefix.
  - unfold onError. by rewrite emit_prefix.
  - unfold onClose. by rewrite emit_prefix.
  - rewrite literal_prefix. destruct (literal xs s) as [v s0].
    apply forEach_prefix. intros x s1. apply addUniverse_prefix.
  - rewrite literal_prefix. destruct (literal xs s) as [v s0].
    apply forEach_prefix. intros x s1. apply dropUniverse_prefix.
  - apply forEach_prefix. intros x s0. apply addUniverse_prefix.
  - apply forEach_prefix. intros x s0. apply dropUniverse_prefix.
  - unfold Server_close. by rewrite call_prefix.
Qed.

(** C9, as the code has it: [close] makes one call, [close], on the socket,
    emits nothing and changes no field of the server; the socket's [close]
    event makes the server emit [close], and nothing else. The server keeps
    no record of having been closed and guards nothing with it: afterwards
    [addUniverses([U])], for a universe number [U] that is not tracked,
    still appends [U] to the tracked list and sets its last seen sequence
    number to 0, and [dropUniverses([U])], for a tracked [U], still removes
    its first occurrence and deletes its last seen sequence number; the
    membership call is what each does last, in a state [s1] where the list
    and the map are updated already and the last call on the socket was
    [close]. The message handler, were the socket to invoke it, would emit
    after [close] the event it emits before it, and set the same last seen
    sequence number. *)
Theorem close_keeps_no_state s us U m :
  tracked s = Some us → is_number U →
  _socket (Server_close s) = _socket s ++ [Call_close]
  ∧ emitted (Server_close s) = emitted s
  ∧ clear_logs (onClose (Server_close s)) = clear_logs s
  ∧ emitted (onClose (Server_close s)) = emitted s ++ [Ev_close]
  ∧ (U ∉ us →
     ∃ s1, step (Do_addUniverses [U]) (onClose (Server_close s))
           = Some (call (Call_addMembership (getMulticastGroup U)
                           (_mcastif s)) s1)
       ∧ tracked s1 = Some (us ++ [U])
       ∧ lastSeqOf s1 U = Some (VNum 0)
       ∧ _socket s1 = _socket s ++ [Call_close]
       ∧ emitted s1 = emitted s ++ [Ev_close])
  ∧ (U ∈ us →
     ∃ s1, step (Do_dropUniverses [U]) (onClose (Server_close s))
           = Some (call (Call_dropMembership (getMulticastGroup U)
                           (_mcastif s)) s1)
       ∧ tracked s1 = Some (remove_first U us)
       ∧ lastSeqOf s1 U = Some VUndef
       ∧ _socket s1 = _socket s ++ [Call_close]
       ∧ emitted s1 = emitted s ++ [Ev_close])
  ∧ (∃ e, emitted (onMessage m s) = emitted s ++ [e]
          ∧ emitted (onMessage m (onClose (Server_close s)))
            = emitted s ++ [Ev_close; e]
          ∧ _lastSequenceNumber (onMessage m (onClose (Server_close s)))
            = _lastSequenceNumber (onMessage m s)).
Proof.
  intros Ht HU. destruct (is_number_to_key U HU) as [k Hk].
  assert (tracked (onClose (Server_close s)) = Some us) as Htc by done.
  split; [done|]. split; [done|]. split; [done|]. split; [done|].
  split; [|split].
  - intros Hin.
    destruct (step_addUniverses_single U (onClose (Server_close s)))
      as (a & Ha & ->).
    destruct (literal_tracked a (OArr [U]) _ us Ha Htc) as (l & Hne & Hu & Hl).
    rewrite (addUniverse_new U _ us l k) by done.
    eexists. split; [done|]. simpl in Hu. simpl.
    split. { unfold tracked. simpl. rewrite Hu. simpl.
             by rewrite lookup_insert_eq. }
    split; [|done].
    unfold lastSeqOf, lastSeq. rewrite Hk. simpl.
    by rewrite lookup_insert_eq.
  - intros Hin.
    destruct (step_dropUniverses_single U (onClose (Server_close s)))
      as (a & Ha & ->).
    destruct (literal_tracked a (OArr [U]) _ us Ha Htc) as (l & Hne & Hu & Hl).
    rewrite (dropUniverse_tracked U _ us l k) by done.
    eexists. split; [done|]. simpl in Hu. simpl.
    split. { unfold tracked. simpl. rewrite Hu. simpl.
             by rewrite lookup_insert_eq. }
    split; [|done].
    unfold lastSeqOf, lastSeq. rewrite Hk. simpl.
    by rewrite lookup_delete_eq.
  - unfold onMessage. simpl. case_bool_decide.
    + eexists. split; [done|]. split; [|done].
      simpl. by rewrite <- (assoc_L (++)).
    + unfold lastSeq. simpl. destruct (discard _ _).
      * eexists. split; [done|]. split; [|done].
        simpl. by rewrite <- (assoc_L (++)).
      * eexists. split; [done|]. split; [|done].
        simpl. by rewrite <- (assoc_L (++)).
Qed.

(** ** Sharing with the caller *)

Lemma addUniverse_tracks l x s s' :
  tracks l s → addUniverse x s = Some s' → tracks l s'.
Proof.
  intros Hs. pose proof Hs as [Hu [xs Hl]]. unfold addUniverse.
  destruct (tracked s) as [us|]; [simpl|done].
  destruct (includes us x); [by intros [= <-]|].
  unfold store_tracked. rewrite Hu.
  destruct (to_key x) as [k|]; [simpl|done].
  intros [= <-]. split; [done|]. simpl. eexists. apply lookup_insert_eq.
Qed.

Lemma dropUniverse_tracks l x s s' :
  tracks l s → dropUniverse x s = Some s' → tracks l s'.
Proof.
  intros Hs. pose proof Hs as [Hu [xs Hl]]. unfold dropUniverse.
  destruct (tracked s) as [us|]; [simpl|done].
  destruct (includes us x); simpl; [|by intros [= <-]].
  unfold store_tracked. rewrite Hu.
  destruct (to_key x) as [k|]; [simpl|done].
  intros [= <-]. split; [done|]. simpl. eexists. apply lookup_insert_eq.
Qed.

Lemma literal_tracks l xs s :
  tracks l s → tracks l (literal xs s).2.
Proof.
  intros [Hu [ys Hl]]. destruct (literal_spec xs s) as (a & -> & Ha).
  split; [done|]. exists ys. simpl.
  rewrite lookup_insert_ne; [done|]. congruence.
Qed.

(** No step reassigns [this.universes] or replaces the array it refers
    to. *)
Lemma step_tracks l o s s' : tracks l s → step o s = Some s' → tracks l s'.
Proof.
  intros Hs. destruct o as [|m|err| |xs|xs|v|v|]; cbn [step].
  - destruct (bind_callback s) as [s1|] eqn:Hb; [simpl|done].
    intros [= <-]. change (tracks l s1). revert Hb. unfold bind_callback.
    destruct (callback s) as [config|].
    + set (s1' := if bool_decide (_mcastif s ≠ VUndef) then _ else s).
      set (s2 := if bool_decide (get (hp s1') config "loopback" = VBool true)
                 then _ else s1').
      assert (tracks l s2) as Hs2.
      { subst s2 s1'. repeat case_bool_decide; exact Hs. }
      case_bool_decide; [|intros [= <-]; exact Hs2].
      intros Hb. eapply forEach_preserve; [|exact Hs2|exact Hb].
      intros x s0 s0' Hs0. cbv beta.
      destruct (to_key x) as [k|]; simpl; [|intros [=]].
      intros [= <-]. exact Hs0.
    + intros Hb. eapply forEach_preserve; [|exact Hs|exact Hb].
      intros x s0 s0' Hs0. intros [= <-]. exact Hs0.
  - intros [= <-]. destruct (onMessage_frame m s) as (Hhp & Hu & _).
    unfold tracks. by rewrite Hhp, Hu.
  - intros [= <-]. exact Hs.
  - intros [= <-]. exact Hs.
  - pose proof (literal_tracks l xs s Hs) as Hlit.
    destruct (literal xs s) as [v s0]. simpl in Hlit.
    intros Hrun. eapply forEach_preserve; [|exact Hlit|exact Hrun].
    intros x s1 s1'. apply addUniverse_tracks.
  - pose proof (literal_tracks l xs s Hs) as Hlit.
    destruct (literal xs s) as [v s0]. simpl in Hlit.
    intros Hrun. eapply forEach_preserve; [|exact Hlit|exact Hrun].
    intros x s1 s1'. apply dropUniverse_tracks.
  - intros Hrun. eapply forEach_preserve; [|exact Hs|exact Hrun].
    intros x s1 s1'. apply addUniverse_tracks.
  - intros Hrun. eapply forEach_preserve; [|exact Hs|exact Hrun].
    intros x s1 s1'. apply dropUniverse_tracks.
  - intros [= <-]. exact Hs.
Qed.

Lemma run_tracks l os : ∀ s s', tracks l s → run os s = Some s' → tracks l s'.
Proof.
  induction os as [|o os IH]; intros s s' Hs; simpl.
  - by intros [= <-].
  - destruct (step o s) as [s1|] eqn:Hstep; [simpl|done].
    apply IH. by apply (step_tracks l o s).
Qed.

(** C10: the configuration-object form shares its configuration with the
    caller. When [universes] is a single value, the caller's object is
    updated in place: its [universes] becomes a fresh one-element array,
    which is also [this.universes]. When [universes] is an array, the
    store is left as it is and [this.universes] is that very array, after
    construction and after every run; so [addUniverses] of a universe not
    tracked appends it to the caller's array, and [dropUniverses] of a
    tracked one removes its first occurrence from the caller's array. *)
Theorem config_is_shared h c ps p :
  h !! c = Some (OObj ps) →
  (∀ u, ps !! "universes"%string = Some u → u ≠ VUndef →
        isArray h u = false →
     ∃ a, h !! a = None
       ∧ hp (Server_new h (VRef c) p) !! c
         = Some (OObj (<["universes"%string := VRef a]> ps))
       ∧ hp (Server_new h (VRef c) p) !! a = Some (OArr [u])
       ∧ universes (Server_new h (VRef c) p) = VRef a)
  ∧ (∀ a us, ps !! "universes"%string = Some (VRef a) →
             h !! a = Some (OArr us) →
     hp (Server_new h (VRef c) p) = h
     ∧ universes (Server_new h (VRef c) p) = VRef a
     ∧ ∀ os s, run os (Server_new h (VRef c) p) = Some s →
         universes s = VRef a
         ∧ ∃ xs, hp s !! a = Some (OArr xs)
             ∧ tracked s = Some xs
             ∧ ∀ x, is_number x →
                 (x ∉ xs →
                  ∃ s', step (Do_addUniverses [x]) s = Some s'
                        ∧ hp s' !! a = Some (OArr (xs ++ [x])))
                 ∧ (x ∈ xs →
                    ∃ s', step (Do_dropUniverses [x]) s = Some s'
                          ∧ hp s' !! a = Some (OArr (remove_first x xs)))).
Proof.
  intros Hc. split.
  - intros u Hps Hu Harr.
    destruct (Server_new_single h c ps p u Hc Hps Hu Harr) as [Hhp Hus].
    pose proof (fresh_ne h c _ Hc) as Hne.
    exists (fresh (dom h)). split; [apply fresh_None|].
    rewrite Hhp, Hus. split; [apply lookup_insert_eq|]. split; [|done].
    rewrite lookup_insert_ne by done. apply lookup_insert_eq.
  - intros a us Hps Ha.
    destruct (Server_new_array h c ps p a us Hc Hps Ha) as [Hhp Hus].
    split; [done|]. split; [done|].
    intros os s Hrun.
    destruct (run_tracks a os (Server_new h (VRef c) p) s) as [Hu [xs Hxs]];
      [|done|].
    { split; [done|]. exists us. by rewrite Hhp. }
    split; [done|]. exists xs. split; [done|].
    assert (tracked s = Some xs) as Ht by by apply (tracked_intro _ a).
    split; [done|]. intros x Hx.
    destruct (is_number_to_key x Hx) as [k Hk]. split.
    + intros Hnew.
      destruct (step_addUniverses_single x s) as (b & Hb & ->).
      destruct (literal_tracked b (OArr [x]) s xs Hb Ht)
        as (l & Hbl & Hul & Hl).
      assert (l = a) as -> by congruence.
      rewrite (addUniverse_new x _ xs a k) by done.
      eexists. split; [done|]. simpl. apply lookup_insert_eq.
    + intros Hold.
      destruct (step_dropUniverses_single x s) as (b & Hb & ->).
      destruct (literal_tracked b (OArr [x]) s xs Hb Ht)
        as (l & Hbl & Hul & Hl).
      assert (l = a) as -> by congruence.
      rewrite (dropUniverse_tracked x _ xs a k) by done.
      eexists. split; [done|]. simpl. apply lookup_insert_eq.
Qed.

End Claims.

(** * Further properties of the server *)

(** ** [dropUniverses] on a list *)

Lemma remove_first_absent x xs : x ∉ xs → remove_first x xs = xs.
Proof.
  induction xs as [|y ys IH]; intros Hx; [done|].
  apply not_elem_of_cons in Hx as [Hne Hx]. simpl.
  rewrite decide_False by done. by rewrite IH.
Qed.

Lemma elem_of_kept us xs x : x ∈ kept us xs → x ∈ us.
Proof.
  revert us. induction xs as [|y ys IH]; intros us; simpl; [done|].
  unfold includes. case_bool_decide; [|by apply IH].
  intros Hx%IH. by apply elem_of_remove_first in Hx.
Qed.

Lemma elem_of_kept_other us xs x : x ∈ us → x ∉ xs → x ∈ kept us xs.
Proof.
  revert us. induction xs as [|y ys IH]; intros us Hx Hxs; simpl; [done|].
  apply not_elem_of_cons in Hxs as [Hne Hxs].
  unfold includes. case_bool_decide; [|by apply IH].
  apply IH; [|done]. by apply elem_of_remove_first_ne.
Qed.

Lemma NoDup_kept us xs : NoDup us → NoDup (kept us xs).
Proof.
  revert us. induction xs as [|y ys IH]; intros us Hnd; simpl; [done|].
  unfold includes. case_bool_decide; [|by apply IH].
  apply IH. by apply NoDup_remove_first.
Qed.

Lemma kept_drops_all us xs x : NoDup us → x ∈ xs → x ∉ kept us xs.
Proof.
  revert us. induction xs as [|y ys IH]; intros us Hnd Hx.
  - by apply elem_of_nil in Hx.
  - simpl. unfold includes.
    destruct (NoDup_remove_first y us Hnd) as [Hnd' Hy'].
    apply elem_of_cons in Hx as [->|Hx].
    + case_bool_decide as Hy.
      * intros Hin%elem_of_kept. done.
      * intros Hin%elem_of_kept. done.
    + case_bool_decide; by apply IH.
Qed.

Lemma elem_of_dropped us xs x : x ∈ dropped us xs → x ∈ xs ∧ x ∈ us.
Proof.
  revert us. induction xs as [|y ys IH]; intros us; simpl.
  - by intros ?%elem_of_nil.
  - unfold includes. case_bool_decide as Hy.
    + intros [->|Hx]%elem_of_cons; [split; [by left|done]|].
      apply IH in Hx as [? Hx]. split; [by right|].
      by apply elem_of_remove_first in Hx.
    + intros [? ?]%IH. split; [by right|done].
Qed.

Lemma dropped_tracked us xs x : x ∈ xs → x ∈ us → x ∈ dropped us xs.
Proof.
  revert us. induction xs as [|y ys IH]; intros us Hx Hus.
  - by apply elem_of_nil in Hx.
  - simpl. unfold includes. case_bool_decide as Hy.
    + destruct (decide (x = y)) as [->|Hne]; [by left|]. right.
      apply elem_of_cons in Hx as [->|Hx]; [done|].
      apply IH; [done|]. by apply elem_of_remove_first_ne.
    + apply elem_of_cons in Hx as [->|Hx]; [done|]. by apply IH.
Qed.

Section DropList.
Context `{E131}.

Implicit Types (s : state) (x u v : val) (us xs : list val).

(** The effect of the callback of [dropUniverses] on a list of
    universes. *)
Lemma each_dropUniverse xs : ∀ s us l,
  universes s = VRef l → hp s !! l = Some (OArr us) →
  Forall (λ x, is_Some (to_key x)) xs →
  ∃ s', each dropUniverse xs s = Some s'
    ∧ universes s' = VRef l
    ∧ hp s' = <[l := OArr (kept us xs)]> (hp s)
    ∧ _socket s' = _socket s ++ leaves (_mcastif s) (dropped us xs)
    ∧ emitted s' = emitted s
    ∧ _mcastif s' = _mcastif s
    ∧ (∀ x k, x ∈ dropped us xs → to_key x = Some k →
              _lastSequenceNumber s' !! k = None)
    ∧ (∀ k, (∀ x, x ∈ dropped us xs → to_key x ≠ Some k) →
            _lastSequenceNumber s' !! k = _lastSequenceNumber s !! k).
Proof.
  induction xs as [|x xs IH]; intros s us l Hu Hl Hkeys.
  - exists s. simpl. unfold leaves. simpl. rewrite app_nil_r.
    rewrite insert_id by done. repeat split; try done.
    intros x k Hx. by apply elem_of_nil in Hx.
  - apply Forall_cons in Hkeys as [[k Hk] Hkeys]. simpl.
    unfold includes. case_bool_decide as Hx.
    + rewrite (dropUniverse_tracked x s us l k) by done. simpl.
      set (s1 := call _ _).
      destruct (IH s1 (remove_first x us) l) as
        (s' & -> & Hu' & Hhp & Hsock & Hem & Hif & Hgone & Hrest);
        [done | by apply lookup_insert_eq | done |].
      exists s'. split; [done|]. split; [done|]. split.
      { rewrite Hhp. simpl. by rewrite insert_insert_eq. }
      split.
      { rewrite Hsock. simpl. unfold leaves. simpl.
        by rewrite <- app_assoc. }
      do 2 (split; [done|]). split.
      * intros y ky Hy Hky.
        destruct (decide (Exists (λ z, to_key z = Some ky)
                            (dropped (remove_first x us) xs))) as [Hex|Hnex].
        { apply Exists_exists in Hex as (z & Hz & Hkz). eauto. }
        rewrite Hrest.
        2:{ intros z Hz Hkz. apply Hnex. apply Exists_exists. eauto. }
        apply elem_of_cons in Hy as [->|Hy].
        { simpl. assert (k = ky) as -> by congruence.
          by rewrite lookup_delete_eq. }
        exfalso. apply Hnex. apply Exists_exists. eauto.
      * intros k' Hk'. rewrite Hrest.
        { simpl. rewrite lookup_delete_ne; [done|].
          intros ->. apply (Hk' x); [by left | done]. }
        intros z Hz. apply Hk'. by right.
    + rewrite (dropUniverse_absent x s us) by eauto using tracked_intro.
      simpl. by apply IH.
Qed.

(** [dropUniverses] called with an array holding [xs], other than the
    tracked array, while [us] is tracked. *)
Lemma dropUniverses_effect a xs us s :
  hp s !! a = Some (OArr xs) →
  tracked s = Some us →
  universes s ≠ VRef a →
  Forall (λ x, is_Some (to_key x)) xs →
  ∃ s', dropUniverses (VRef a) s = Some s'
    ∧ universes s' = universes s
    ∧ tracked s' = Some (kept us xs)
    ∧ (∀ b, universes s ≠ VRef b → hp s' !! b = hp s !! b)
    ∧ _socket s' = _socket s ++ leaves (_mcastif s) (dropped us xs)
    ∧ emitted s' = emitted s
    ∧ _mcastif s' = _mcastif s
    ∧ (∀ x k, x ∈ dropped us xs → to_key x = Some k →
              _lastSequenceNumber s' !! k = None)
    ∧ (∀ k, (∀ x, x ∈ dropped us xs → to_key x ≠ Some k) →
            _lastSequenceNumber s' !! k = _lastSequenceNumber s !! k).
Proof.
  intros Ha Ht Hne Hkeys.
  destruct (tracked_inv _ _ Ht) as (l & Hu & Hl).
  assert (a ≠ l) as Hal by (intros ->; by apply Hne).
  unfold dropUniverses.
  rewrite (forEach_each (λ s0, universes s0 = VRef l) a dropUniverse xs);
    [ | |done|done].
  2:{ intros x s0 s0' Hu0 Hdrop.
      destruct (dropUniverse_frame _ _ _ _ Hu0 Hdrop) as [? Hfr]. auto. }
  destruct (each_dropUniverse xs s us l Hu Hl Hkeys) as
    (s' & -> & Hu' & Hhp & Hsock & Hem & Hif & Hgone & Hrest).
  exists s'. split; [done|]. split; [congruence|]. split.
  { apply (tracked_intro _ l); [done|]. rewrite Hhp.
    by rewrite lookup_insert_eq. }
  split.
  { intros b Hb. rewrite Hhp. rewrite lookup_insert_ne; [done|].
    intros ->. by apply Hb. }
  done.
Qed.

(** [dropUniverses], called with an array of universe numbers [xs] other
    than the tracked array while [us] is tracked, on a socket whose
    [dropMembership] calls return: in the order
    of [xs], each universe tracked at its turn loses its first occurrence
    in the tracked list and its last seen sequence number, and one
    [dropMembership] call is made for its group; a universe that is not
    tracked at its turn is skipped. The tracked universes that [xs] does
    not name stay tracked with their last seen sequence numbers, no event
    is emitted and, when the tracked list had no duplicates, no universe of
    [xs] is tracked afterwards. *)
Theorem dropUniverses_list_spec a xs us s :
  hp s !! a = Some (OArr xs) →
  tracked s = Some us →
  universes s ≠ VRef a →
  Forall is_number xs →
  ∃ s', dropUniverses (VRef a) s = Some s'
    ∧ tracked s' = Some (kept us xs)
    ∧ (∀ x, x ∈ dropped us xs ↔ x ∈ xs ∧ x ∈ us)
    ∧ (∀ x, x ∈ dropped us xs → lastSeqOf s' x = Some VUndef)
    ∧ (∀ u, u ∈ us → u ∉ xs → is_number u →
            u ∈ kept us xs ∧ lastSeqOf s' u = lastSeqOf s u)
    ∧ (NoDup us → ∀ x, x ∈ xs → x ∉ kept us xs)
    ∧ _socket s' = _socket s ++ leaves (_mcastif s) (dropped us xs)
    ∧ emitted s' = emitted s.
Proof.
  intros Ha Ht Hne Hnum.
  assert (Forall (λ x, is_Some (to_key x)) xs) as Hkeys.
  { eapply Forall_impl; [exact Hnum|]. intros x. apply is_number_to_key. }
  destruct (dropUniverses_effect a xs us s Ha Ht Hne Hkeys) as
    (s' & Hrun & _ & Ht' & _ & Hsock & Hem & _ & Hgone & Hrest).
  exists s'. split; [done|]. split; [done|]. split.
  { intros x. split; [apply elem_of_dropped|].
    intros [? ?]. by apply dropped_tracked. }
  split.
  { intros x Hx. unfold lastSeqOf.
    assert (is_number x) as Hxn.
    { apply elem_of_dropped in Hx as [Hx _].
      eapply Forall_forall in Hnum; eauto. }
    destruct (is_number_to_key x Hxn) as [k Hk]. rewrite Hk. simpl.
    unfold lastSeq. by rewrite (Hgone x k Hx Hk). }
  split.
  { intros u Hu Hux Hun. split; [by apply elem_of_kept_other|].
    unfold lastSeqOf.
    destruct (is_number_to_key u Hun) as [k Hk]. rewrite Hk. simpl.
    unfold lastSeq. rewrite Hrest; [done|].
    intros x Hx Hkx. apply elem_of_dropped in Hx as [Hx _].
    assert (is_number x) as Hxn by (eapply Forall_forall in Hnum; eauto).
    assert (x = u) as -> by (apply to_key_number_inj; congruence).
    done. }
  split; [|done].
  intros Hnd x Hx. by apply kept_drops_all.
Qed.

End DropList.

(** ** [dropUniverses] on the tracked array itself *)

(** Induction on lists two elements at a time. *)
Lemma list_pair_ind (P : list val → Prop) :
  P [] → (∀ x, P [x]) → (∀ x y xs, P xs → P (x :: y :: xs)) → ∀ xs, P xs.
Proof.
  intros Hnil Hone Hstep xs.
  assert (P xs ∧ ∀ x, P (x :: xs)) as [? _]; [|done].
  induction xs as [|y ys [IH1 IH2]]; [by split|].
  split; [apply IH2|]. intros x. by apply Hstep.
Qed.

Lemma elem_of_evens xs x : x ∈ evens xs → x ∈ xs.
Proof.
  induction xs as [|y|y z ys IH] using list_pair_ind; simpl; [done..|].
  intros [->|Hx]%elem_of_cons; [by left|]. do 2 right. by apply IH.
Qed.

Lemma elem_of_odds xs x : x ∈ odds xs → x ∈ xs.
Proof.
  induction xs as [|y|y z ys IH] using list_pair_ind; simpl.
  - done.
  - by intros ?%elem_of_nil.
  - intros [->|Hx]%elem_of_cons; [right; by left|]. do 2 right. by apply IH.
Qed.

Lemma evens_odds_disjoint xs x :
  NoDup xs → x ∈ evens xs → x ∈ odds xs → False.
Proof.
  induction xs as [|y|y z ys IH] using list_pair_ind; simpl.
  - by intros _ ?%elem_of_nil.
  - by intros _ _ ?%elem_of_nil.
  - intros Hnd He Ho.
    apply NoDup_cons in Hnd as [Hy Hnd]. apply NoDup_cons in Hnd as [Hz Hnd].
    apply elem_of_cons in He as [->|He], Ho as [->|Ho].
    + apply Hy. by left.
    + apply Hy. right. by apply elem_of_odds.
    + apply Hz. by apply elem_of_evens.
    + by apply IH.
Qed.

Lemma evens_or_odds xs x : x ∈ xs → x ∈ evens xs ∨ x ∈ odds xs.
Proof.
  induction xs as [|y|y z ys IH] using list_pair_ind; simpl.
  - by intros ?%elem_of_nil.
  - by left.
  - intros [->|[->|Hx]%elem_of_cons]%elem_of_cons.
    + left. by left.
    + right. by left.
    + destruct (IH Hx); [left|right]; by right.
Qed.

Lemma remove_first_middle p x rest :
  x ∉ p → remove_first x (p ++ x :: rest) = p ++ rest.
Proof.
  induction p as [|y p IH]; intros Hx; simpl.
  - by rewrite decide_True.
  - apply not_elem_of_cons in Hx as [Hne Hx].
    rewrite decide_False by done. by rewrite IH.
Qed.

Section DropTracked.
Context `{E131}.

Implicit Types (s : state) (x u v : val) (us xs : list val).

(** Indices past the end of the array are skipped. *)
Lemma forEach_from_past_end f l xs : ∀ n k s,
  hp s !! l = Some (OArr xs) → (length xs ≤ k)%nat →
  forEach_from n k l f s = Some s.
Proof.
  induction n as [|n IH]; intros k s Hl Hk; simpl; [done|].
  rewrite Hl. rewrite lookup_ge_None_2 by done. apply IH; [done|lia].
Qed.

(** [forEach] over the array its callback splices: after the element at
    index [k] is removed the next one slides into its place and is passed
    over, so that every other element stays. *)
Lemma forEach_from_dropUniverse l : ∀ n p rest k s,
  universes s = VRef l → hp s !! l = Some (OArr (p ++ rest)) →
  length p = k → (length rest ≤ n)%nat →
  NoDup (p ++ rest) → Forall (λ x, is_Some (to_key x)) rest →
  ∃ s', forEach_from n k l dropUniverse s = Some s'
    ∧ universes s' = VRef l
    ∧ hp s' = <[l := OArr (p ++ odds rest)]> (hp s)
    ∧ _socket s' = _socket s ++ leaves (_mcastif s) (evens rest)
    ∧ emitted s' = emitted s
    ∧ (∀ x kx, x ∈ evens rest → to_key x = Some kx →
               _lastSequenceNumber s' !! kx = None)
    ∧ (∀ kx, (∀ x, x ∈ evens rest → to_key x ≠ Some kx) →
             _lastSequenceNumber s' !! kx = _lastSequenceNumber s !! kx).
Proof.
  induction n as [|n IH]; intros p rest k s Hu Hl Hp Hn Hnd Hkeys.
  - destruct rest as [|? ?]; [|simpl in Hn; lia].
    exists s. simpl. unfold leaves. simpl. rewrite !app_nil_r in *.
    rewrite insert_id by done. repeat split; try done.
    intros x kx Hx. by apply elem_of_nil in Hx.
  - destruct rest as [|x rest].
    { exists s. rewrite app_nil_r in *.
      rewrite (forEach_from_past_end dropUniverse l p) by (done || lia).
      simpl. unfold leaves. simpl. rewrite !app_nil_r.
      rewrite insert_id by done. repeat split; try done.
      intros x kx Hx. by apply elem_of_nil in Hx. }
    apply Forall_cons in Hkeys as [[kx Hkx] Hkeys].
    assert (x ∉ p) as Hxp.
    { apply NoDup_app in Hnd as (_ & Hdisj & _). intros Hin.
      apply (Hdisj x Hin). by left. }
    cbn [forEach_from]. rewrite Hl.
    rewrite lookup_app_r by lia. rewrite Hp, Nat.sub_diag. simpl.
    rewrite (dropUniverse_tracked x s (p ++ x :: rest) l kx); [|done..| |done].
    2:{ apply elem_of_app. right. by left. }
    rewrite remove_first_middle by done. simpl.
    set (s1 := call _ _).
    assert (NoDup (p ++ rest)) as Hnd1.
    { apply NoDup_app in Hnd as (Hp1 & Hdisj & Hr).
      apply NoDup_cons in Hr as [_ Hr]. apply NoDup_app.
      split; [done|]. split; [|done].
      intros y Hy Hin. apply (Hdisj y Hy). by right. }
    destruct rest as [|y rest].
    + (* the last element *)
      rewrite (forEach_from_past_end dropUniverse l (p ++ []));
        [|by apply lookup_insert_eq|rewrite length_app; simpl; lia].
      exists s1. split; [done|]. split; [done|].
      split; [done|]. split; [done|]. split; [done|].
      split.
      * intros z kz Hz Hkz. apply list_elem_of_singleton in Hz as ->.
        simpl. assert (kx = kz) as -> by congruence.
        apply lookup_delete_eq.
      * intros kz Hkz. simpl. rewrite lookup_delete_ne; [done|].
        intros ->. apply (Hkz x); [by left|done].
    + (* [y] slides to index [k] and is passed over *)
      apply Forall_cons in Hkeys as [_ Hkeys].
      destruct (IH (p ++ [y]) rest (S k) s1) as
        (s' & -> & Hu' & Hhp & Hsock & Hem & Hgone & Hrest).
      * done.
      * simpl. rewrite lookup_insert_eq. by rewrite <- app_assoc.
      * rewrite length_app. simpl. lia.
      * simpl in Hn. lia.
      * by rewrite <- app_assoc.
      * done.
      * exists s'. split; [done|]. split; [done|]. split.
        { rewrite Hhp. simpl. rewrite insert_insert_eq.
          by rewrite <- app_assoc. }
        split.
        { rewrite Hsock. simpl. unfold leaves. simpl.
          by rewrite <- app_assoc. }
        split; [done|]. split.
        -- intros z kz Hz Hkz.
           destruct (decide (Exists (λ w, to_key w = Some kz) (evens rest)))
             as [Hex|Hnex].
           { apply Exists_exists in Hex as (w & Hw & Hkw). eauto. }
           rewrite Hrest.
           2:{ intros w Hw Hkw. apply Hnex. apply Exists_exists. eauto. }
           simpl in Hz. apply elem_of_cons in Hz as [->|Hz].
           { simpl. assert (kx = kz) as -> by congruence.
             apply lookup_delete_eq. }
           exfalso. apply Hnex. apply Exists_exists. eauto.
        -- intros kz Hkz. rewrite Hrest.
           { simpl. rewrite lookup_delete_ne; [done|].
             intros ->. apply (Hkz x); [by left|done]. }
           intros w Hw. apply Hkz. simpl. by right.
Qed.

(** [dropUniverses(server.universes)], the tracked array itself holding
    distinct universe numbers, completes and drops only the universes at
    its even indices 0, 2, 4, ...: those at the odd indices stay tracked,
    with their last seen sequence numbers, and no [dropMembership] call is
    made for them. *)
Theorem dropUniverses_of_tracked_array us s :
  tracked s = Some us → NoDup us → Forall is_number us →
  ∃ s', dropUniverses (universes s) s = Some s'
    ∧ tracked s' = Some (odds us)
    ∧ _socket s' = _socket s ++ leaves (_mcastif s) (evens us)
    ∧ (∀ x, x ∈ evens us → lastSeqOf s' x = Some VUndef)
    ∧ (∀ x, x ∈ odds us → lastSeqOf s' x = lastSeqOf s x)
    ∧ (∀ x, x ∈ us → x ∈ evens us ∨ x ∈ odds us)
    ∧ emitted s' = emitted s.
Proof.
  intros Ht Hnd Hnum.
  destruct (tracked_inv _ _ Ht) as (l & Hu & Hl).
  assert (Forall (λ x, is_Some (to_key x)) us) as Hkeys.
  { eapply Forall_impl; [exact Hnum|]. intros x. apply is_number_to_key. }
  unfold dropUniverses, forEach. rewrite Hu, Hl.
  destruct (forEach_from_dropUniverse l (length us) [] us 0%nat s)
    as (s' & -> & Hu' & Hhp & Hsock & Hem & Hgone & Hrest); try done.
  exists s'. split; [done|]. split.
  { apply (tracked_intro _ l); [done|]. rewrite Hhp.
    by rewrite lookup_insert_eq. }
  split; [done|]. split.
  { intros x Hx. unfold lastSeqOf.
    assert (is_number x) as Hxn.
    { apply elem_of_evens in Hx. eapply Forall_forall in Hnum; eauto. }
    destruct (is_number_to_key x Hxn) as [k Hk]. rewrite Hk. simpl.
    unfold lastSeq. by rewrite (Hgone x k Hx Hk). }
  split.
  { intros x Hx. unfold lastSeqOf.
    assert (is_number x) as Hxn.
    { apply elem_of_odds in Hx. eapply Forall_forall in Hnum; eauto. }
    destruct (is_number_to_key x Hxn) as [k Hk]. rewrite Hk. simpl.
    unfold lastSeq. rewrite Hrest; [done|].
    intros y Hy Hky.
    assert (is_number y) as Hyn.
    { apply elem_of_evens in Hy. eapply Forall_forall in Hnum; eauto. }
    assert (y = x) as -> by (apply to_key_number_inj; congruence).
    by apply (evens_odds_disjoint us x). }
  split; [|done]. intros x. apply evens_or_odds.
Qed.

End DropTracked.

(** ** Calling twice, and adding then dropping *)

Lemma remove_first_app_r x us a :
  x ∉ us → remove_first x (us ++ a) = us ++ remove_first x a.
Proof.
  induction us as [|y us IH]; intros Hx; simpl; [done|].
  apply not_elem_of_cons in Hx as [Hne Hx].
  rewrite decide_False by done. by rewrite IH.
Qed.

Lemma kept_app_disjoint us xs : ∀ a,
  (∀ x, x ∈ xs → x ∉ us) → kept (us ++ a) xs = us ++ kept a xs.
Proof.
  induction xs as [|x xs IH]; intros a Hdisj; simpl; [done|].
  assert (x ∉ us) as Hx by (apply Hdisj; by left).
  assert (∀ y, y ∈ xs → y ∉ us) as Hdisj' by (intros y Hy; apply Hdisj; by right).
  unfold includes. destruct (decide (x ∈ a)) as [Ha|Ha].
  - rewrite !bool_decide_eq_true_2; [|done|apply elem_of_app; by right].
    rewrite remove_first_app_r by done. by apply IH.
  - rewrite !bool_decide_eq_false_2; [by apply IH|done|].
    rewrite elem_of_app. tauto.
Qed.

Lemma kept_all xs : ∀ a, NoDup a → (∀ y, y ∈ a → y ∈ xs) → kept a xs = [].
Proof.
  induction xs as [|x xs IH]; intros a Hnd Hsub; simpl.
  - destruct a as [|y a]; [done|].
    exfalso. eapply elem_of_nil, Hsub. by left.
  - unfold includes. destruct (NoDup_remove_first x a Hnd) as [Hnd' Hx'].
    case_bool_decide as Hx.
    + apply IH; [done|]. intros y Hy.
      pose proof (elem_of_remove_first _ _ _ Hy) as Hya.
      apply Hsub in Hya. apply elem_of_cons in Hya as [->|?]; done.
    + apply IH; [done|]. intros y Hy.
      pose proof (Hsub y Hy) as Hya.
      apply elem_of_cons in Hya as [->|?]; done.
Qed.

Section Compose.
Context `{E131}.

Implicit Types (s : state) (x u v : val) (us xs : list val) (g : group).

Lemma joined_leaves g cs ifc us :
  joined g (cs ++ leaves ifc us) = true
  ↔ joined g cs = true ∧ ∀ u, u ∈ us → getMulticastGroup u ≠ g.
Proof.
  revert cs. induction us as [|u us IH]; intros cs.
  - unfold leaves. simpl. rewrite app_nil_r. split; [|by intros [? _]].
    intros ?. split; [done|]. intros u Hu. by apply elem_of_nil in Hu.
  - unfold leaves in *. simpl.
    rewrite cons_middle, (assoc_L (++)). rewrite IH. rewrite joined_snoc.
    split.
    + intros [Hj Hall].
      destruct (decide (getMulticastGroup u = g)) as [Hg|Hg]; [done|].
      split; [done|]. intros v [->|Hv]%elem_of_cons; auto.
    + intros [Hj Hall]. split.
      * rewrite decide_False; [done|]. apply Hall. by left.
      * intros v Hv. apply Hall. by right.
Qed.

(** A call that names only tracked universes, or only universes that are
    not tracked, changes nothing. *)
Lemma addUniverses_noop a ys us s :
  hp s !! a = Some (OArr ys) → tracked s = Some us →
  (∀ y, y ∈ ys → y ∈ us) → addUniverses (VRef a) s = Some s.
Proof.
  intros Ha Ht Hsub. unfold addUniverses, forEach. rewrite Ha.
  destruct (forEach_from_inv (λ s0, s0 = s) (λ x, x ∈ us) a addUniverse)
    with (n := length ys) (k := 0%nat) (s := s) as (s' & -> & ->);
    [ | |done|done].
  - intros ? ->. exists ys. split; [done|]. by apply Forall_forall.
  - intros x ? -> Hx. exists s. split; [|done].
    by apply (addUniverse_tracked x s us).
Qed.

Lemma dropUniverses_noop a ys us s :
  hp s !! a = Some (OArr ys) → tracked s = Some us →
  (∀ y, y ∈ ys → y ∉ us) → dropUniverses (VRef a) s = Some s.
Proof.
  intros Ha Ht Hsub. unfold dropUniverses, forEach. rewrite Ha.
  destruct (forEach_from_inv (λ s0, s0 = s) (λ x, x ∉ us) a dropUniverse)
    with (n := length ys) (k := 0%nat) (s := s) as (s' & -> & ->);
    [ | |done|done].
  - intros ? ->. exists ys. split; [done|]. by apply Forall_forall.
  - intros x ? -> Hx. exists s. split; [|done].
    by apply (dropUniverse_absent x s us).
Qed.

(** [addUniverses] is idempotent: called again with the same array, it
    leaves the state it made as it is - the tracked list, the last seen
    sequence numbers, also those that datagrams have moved on, and the
    socket, on which no second [addMembership] is called. *)
Theorem addUniverses_idempotent v xs us s :
  array_at (hp s) v = Some xs → tracked s = Some us →
  Forall is_number xs →
  ∃ s', addUniverses v s = Some s' ∧ addUniverses v s' = Some s'.
Proof.
  intros Harr Ht Hnum.
  assert (Forall (λ x, is_Some (to_key x)) xs) as Hkeys.
  { eapply Forall_impl; [exact Hnum|]. intros x. apply is_number_to_key. }
  destruct (addUniverses_effect v xs us s Harr Ht Hkeys) as
    (s' & Hrun & Hu' & Ht' & Hfr & _).
  exists s'. split; [done|].
  apply array_at_inv in Harr as (a & -> & Ha).
  destruct (tracked_inv _ _ Ht) as (l & Hu & Hl).
  destruct (decide (a = l)) as [->|Hal].
  - destruct (tracked_inv _ _ Ht') as (l' & Hul' & Hl').
    assert (l' = l) as -> by congruence.
    by apply (addUniverses_noop l (us ++ added us xs) (us ++ added us xs)).
  - apply (addUniverses_noop a xs (us ++ added us xs)); [|done|].
    + rewrite Hfr; [done|]. rewrite Hu. congruence.
    + intros y Hy. apply elem_of_app.
      destruct (decide (y ∈ us)); [by left|]. right. by apply elem_of_added.
Qed.

(** [dropUniverses] is idempotent on a tracked list without duplicates:
    called again with the same array (other than the tracked one), it
    leaves the state it made as it is. *)
Theorem dropUniverses_idempotent a xs us s :
  hp s !! a = Some (OArr xs) → tracked s = Some us →
  universes s ≠ VRef a → NoDup us → Forall is_number xs →
  ∃ s', dropUniverses (VRef a) s = Some s'
        ∧ dropUniverses (VRef a) s' = Some s'.
Proof.
  intros Ha Ht Hne Hnd Hnum.
  assert (Forall (λ x, is_Some (to_key x)) xs) as Hkeys.
  { eapply Forall_impl; [exact Hnum|]. intros x. apply is_number_to_key. }
  destruct (dropUniverses_effect a xs us s Ha Ht Hne Hkeys) as
    (s' & Hrun & Hu' & Ht' & Hfr & _).
  exists s'. split; [done|].
  apply (dropUniverses_noop a xs (kept us xs)); [|done|].
  - by rewrite Hfr.
  - intros y Hy. by apply kept_drops_all.
Qed.

(** The steps of the caller, with an array literal. *)
Lemma step_addUniverses_effect xs us s :
  tracked s = Some us → Forall (λ x, is_Some (to_key x)) xs →
  ∃ s', step (Do_addUniverses xs) s = Some s'
    ∧ universes s' = universes s
    ∧ tracked s' = Some (us ++ added us xs)
    ∧ _socket s' = _socket s ++ joins (_mcastif s) (added us xs)
    ∧ emitted s' = emitted s
    ∧ _mcastif s' = _mcastif s
    ∧ (∀ x k, x ∈ added us xs → to_key x = Some k →
              _lastSequenceNumber s' !! k = Some (VNum 0))
    ∧ (∀ k, (∀ x, x ∈ added us xs → to_key x ≠ Some k) →
            _lastSequenceNumber s' !! k = _lastSequenceNumber s !! k).
Proof.
  intros Ht Hkeys. cbn [step].
  destruct (literal_spec xs s) as (a & -> & Ha).
  destruct (tracked_literal a (OArr xs) s us Ha Ht) as [Ht' Hne].
  destruct (addUniverses_effect (VRef a) xs us
              (with_hp (<[a := OArr xs]> (hp s)) s)) as
    (s' & Hrun & Hu & Ht1 & _ & Hsock & Hem & Hif & _ & _ & Hzero & Hrest);
    [|done|done|].
  { unfold array_at. simpl. by rewrite lookup_insert_eq. }
  exists s'. done.
Qed.

Lemma step_dropUniverses_effect xs us s :
  tracked s = Some us → Forall (λ x, is_Some (to_key x)) xs →
  ∃ s', step (Do_dropUniverses xs) s = Some s'
    ∧ universes s' = universes s
    ∧ tracked s' = Some (kept us xs)
    ∧ _socket s' = _socket s ++ leaves (_mcastif s) (dropped us xs)
    ∧ emitted s' = emitted s
    ∧ _mcastif s' = _mcastif s
    ∧ (∀ x k, x ∈ dropped us xs → to_key x = Some k →
              _lastSequenceNumber s' !! k = None)
    ∧ (∀ k, (∀ x, x ∈ dropped us xs → to_key x ≠ Some k) →
            _lastSequenceNumber s' !! k = _lastSequenceNumber s !! k).
Proof.
  intros Ht Hkeys. cbn [step].
  destruct (literal_spec xs s) as (a & -> & Ha).
  destruct (tracked_literal a (OArr xs) s us Ha Ht) as [Ht' Hne].
  destruct (dropUniverses_effect a xs us
              (with_hp (<[a := OArr xs]> (hp s)) s)) as
    (s' & Hrun & Hu & Ht1 & _ & Hsock & Hem & Hif & Hgone & Hrest);
    [|done|done|done|].
  { simpl. by rewrite lookup_insert_eq. }
  exists s'. done.
Qed.

(** Adding universe numbers none of which is tracked and then dropping the
    same list restores the tracked list, in its order; the universes of
    the list end with no last seen sequence number and with their groups
    left, the tracked ones keep their last seen sequence numbers, and no
    event is emitted. *)
Theorem add_then_drop_restores xs us s :
  tracked s = Some us → Forall is_number xs →
  (∀ x, x ∈ xs → x ∉ us) →
  ∃ s1 s2,
    step (Do_addUniverses xs) s = Some s1
    ∧ step (Do_dropUniverses xs) s1 = Some s2
    ∧ tracked s2 = Some us
    ∧ (∀ x, x ∈ xs →
            lastSeqOf s2 x = Some VUndef
            ∧ joined (getMulticastGroup x) (_socket s2) = false)
    ∧ (∀ u, u ∈ us → is_number u → lastSeqOf s2 u = lastSeqOf s u)
    ∧ emitted s2 = emitted s.
Proof.
  intros Ht Hnum Hdisj.
  assert (Forall (λ x, is_Some (to_key x)) xs) as Hkeys.
  { eapply Forall_impl; [exact Hnum|]. intros x. apply is_number_to_key. }
  destruct (step_addUniverses_effect xs us s Ht Hkeys) as
    (s1 & Hadd & _ & Ht1 & _ & Hem1 & _ & _ & Hrest1).
  destruct (step_dropUniverses_effect xs (us ++ added us xs) s1 Ht1 Hkeys) as
    (s2 & Hdrop & _ & Ht2 & Hsock2 & Hem2 & _ & Hgone2 & Hrest2).
  assert (∀ x, x ∈ xs → x ∈ dropped (us ++ added us xs) xs) as Hall.
  { intros x Hx. apply dropped_tracked; [done|].
    apply elem_of_app. right. apply elem_of_added. auto. }
  exists s1, s2. split; [done|]. split; [done|]. split.
  { rewrite Ht2. f_equal. rewrite kept_app_disjoint by done.
    rewrite (kept_all xs); [by rewrite app_nil_r|apply NoDup_added|].
    by intros y [? _]%elem_of_added. }
  split.
  { intros x Hx. split.
    - unfold lastSeqOf.
      assert (is_number x) as Hxn by (eapply Forall_forall in Hnum; eauto).
      destruct (is_number_to_key x Hxn) as [k Hk]. rewrite Hk. simpl.
      unfold lastSeq. by rewrite (Hgone2 x k (Hall x Hx) Hk).
    - rewrite Hsock2. apply not_true_is_false. intros Hj.
      apply joined_leaves in Hj as [_ Hj]. by apply (Hj x (Hall x Hx)). }
  split; [|congruence].
  intros u Hu Hun. unfold lastSeqOf.
  destruct (is_number_to_key u Hun) as [k Hk]. rewrite Hk. simpl.
  unfold lastSeq.
  assert (∀ x, x ∈ xs → to_key x ≠ Some k) as Hother.
  { intros x Hx Hkx.
    assert (is_number x) as Hxn by (eapply Forall_forall in Hnum; eauto).
    assert (x = u) as -> by (apply to_key_number_inj; congruence).
    by apply (Hdisj u). }
  rewrite Hrest2, Hrest1; [done| |].
  - intros x [Hx _]%elem_of_added. by apply Hother.
  - intros x [Hx _]%elem_of_dropped. by apply Hother.
Qed.

End Compose.

(** ** What the receive path and the methods leave alone *)

Section Frames.
Context `{E131}.

Implicit Types (s : state) (x u v p : val) (us xs : list val) (g : group)
  (h : gmap loc obj).

Lemma onMessage_emits m s : ∃ e, emitted (onMessage m s) = emitted s ++ [e].
Proof.
  unfold onMessage. case_bool_decide; [by eexists|].
  destruct (discard _ _); by eexists.
Qed.

Lemma onMessage_hp m s : hp (onMessage m s) = hp s.
Proof.
  unfold onMessage. case_bool_decide; [done|]. by destruct (discard _ _).
Qed.

(** Every datagram, valid or not, makes the server emit exactly one event
    and does nothing else but, at most, set the last seen sequence number
    of the universe the packet carries: the store, the tracked list and
    the socket are as before, every other entry of the map is as before,
    and no entry is removed. *)
Theorem onMessage_touches_one_entry m s :
  (∃ e, emitted (onMessage m s) = emitted s ++ [e])
  ∧ hp (onMessage m s) = hp s
  ∧ tracked (onMessage m s) = tracked s
  ∧ _socket (onMessage m s) = _socket s
  ∧ (∀ k, k ≠ pretty (getUniverse (Packet_new m)) →
          _lastSequenceNumber (onMessage m s) !! k
          = _lastSequenceNumber s !! k)
  ∧ (∀ k, is_Some (_lastSequenceNumber s !! k) →
          is_Some (_lastSequenceNumber (onMessage m s) !! k)).
Proof.
  unfold onMessage. case_bool_decide.
  - split; [by eexists|]. done.
  - destruct (discard _ _); (split; [by eexists|]); simpl;
      repeat split; try done.
    all: try (intros k Hk; by rewrite lookup_insert_ne).
    all: intros k Hk; rewrite lookup_insert; by destruct (decide _).
Qed.

(** What survives a call on the socket and an update of the map survives
    the callback given to [bind]. *)
Lemma bind_callback_preserve (P : state → Prop) s s' :
  (∀ c s0, P s0 → P (call c s0)) →
  (∀ m s0, P s0 → P (with_seq m s0)) →
  P s → bind_callback s = Some s' → P s'.
Proof.
  intros Hcall Hseq HP. unfold bind_callback.
  destruct (callback s) as [config|].
  - set (s1 := if bool_decide (_mcastif s ≠ VUndef) then _ else s).
    set (s2 := if bool_decide (get (hp s1) config "loopback" = VBool true)
               then _ else s1).
    assert (P s1) as HP1.
    { subst s1. destruct (bool_decide (_mcastif s ≠ VUndef)); auto. }
    assert (P s2) as HP2.
    { subst s2.
      destruct (bool_decide (get (hp s1) config "loopback" = VBool true));
        auto. }
    case_bool_decide; [|intros [= <-]; exact HP2].
    intros Hb. eapply forEach_preserve; [|exact HP2|exact Hb].
    intros x s0 s0' Hs0. cbv beta.
    destruct (to_key x) as [k|]; simpl; [|intros [=]].
    intros [= <-]. auto.
  - intros Hb. eapply forEach_preserve; [|exact HP|exact Hb].
    intros x s0 s0' Hs0. intros [= <-]. auto.
Qed.

Lemma addUniverse_emitted x s s' :
  addUniverse x s = Some s' → emitted s' = emitted s.
Proof.
  unfold addUniverse. destruct (tracked s) as [us|]; [simpl|done].
  destruct (includes us x); [by intros [= <-]|].
  unfold store_tracked.
  destruct (universes s); destruct (to_key x); simpl; try done.
  all: by intros [= <-].
Qed.

Lemma dropUniverse_emitted x s s' :
  dropUniverse x s = Some s' → emitted s' = emitted s.
Proof.
  unfold dropUniverse. destruct (tracked s) as [us|]; [simpl|done].
  destruct (includes us x); simpl; [|by intros [= <-]].
  unfold store_tracked.
  destruct (universes s); destruct (to_key x); simpl; try done.
  all: by intros [= <-].
Qed.

Lemma step_emits o s s' :
  step o s = Some s' →
  ∃ es, emitted s' = emitted s ++ es
        ∧ length es = if socket_event o then 1%nat else 0%nat.
Proof.
  assert (∀ v s0 s0', forEach v addUniverse s0 = Some s0' →
                      emitted s0' = emitted s0) as Hadd.
  { intros v s0 s0' Hrun.
    apply (forEach_preserve (λ s1, emitted s1 = emitted s0) v addUniverse
             s0 s0'); [|done|done].
    intros x s1 s1' <- Hx. by apply (addUniverse_emitted x). }
  assert (∀ v s0 s0', forEach v dropUniverse s0 = Some s0' →
                      emitted s0' = emitted s0) as Hdrop.
  { intros v s0 s0' Hrun.
    apply (forEach_preserve (λ s1, emitted s1 = emitted s0) v dropUniverse
             s0 s0'); [|done|done].
    intros x s1 s1' <- Hx. by apply (dropUniverse_emitted x). }
  destruct o as [|m|err| |xs|xs|v|v|]; cbn [step socket_event].
  - destruct (bind_callback s) as [s1|] eqn:Hb; [simpl|done].
    intros [= <-]. exists [Ev_listening]. split; [|done]. simpl.
    f_equal.
    by apply (bind_callback_preserve (λ s0, emitted s0 = emitted s) s s1).
  - intros [= <-].
    destruct (onMessage_emits m s) as [e He].
    exists [e]. done.
  - intros [= <-]. by exists [Ev_error err].
  - intros [= <-]. by exists [Ev_close].
  - unfold literal. destruct (alloc (hp s) (OArr xs)) as [a h'].
    unfold addUniverses. intros Hrun%Hadd. exists []. by rewrite app_nil_r.
  - unfold literal. destruct (alloc (hp s) (OArr xs)) as [a h'].
    unfold dropUniverses. intros Hrun%Hdrop. exists [].
    by rewrite app_nil_r.
  - unfold addUniverses. intros Hrun%Hadd. exists []. by rewrite app_nil_r.
  - unfold dropUniverses. intros Hrun%Hdrop. exists [].
    by rewrite app_nil_r.
  - intros [= <-]. exists []. by rewrite app_nil_r.
Qed.

(** Events come from the socket only: over a run, the server emits exactly
    one event for each socket event it is handed ([listening], [message],
    [error], [close]), after those it had emitted, and none for a call of
    [addUniverses], [dropUniverses] or [close]. *)
Theorem run_emits_per_socket_event os : ∀ s s',
  run os s = Some s' →
  ∃ es, emitted s' = emitted s ++ es
        ∧ length es = length (filter (λ o, socket_event o = true) os).
Proof.
  induction os as [|o os IH]; intros s s'; simpl.
  - intros [= <-]. exists []. by rewrite app_nil_r.
  - destruct (step o s) as [s1|] eqn:Hstep; [simpl|done].
    intros Hrun. destruct (step_emits o s s1 Hstep) as (es1 & He1 & Hn1).
    destruct (IH s1 s' Hrun) as (es2 & He2 & Hn2).
    exists (es1 ++ es2). split.
    + by rewrite He2, He1, app_assoc.
    + rewrite length_app, Hn1, Hn2. rewrite filter_cons.
      by destruct (socket_event o).
Qed.

(** No step writes an object of the store other than the tracked array. *)
Lemma step_same_elsewhere l o s s' :
  tracks l s → step o s = Some s' → same_elsewhere l s s'.
Proof.
  intros Hs.
  assert (∀ f, (∀ x s0 s0', tracks l s0 → f x s0 = Some s0' →
                   tracks l s0' ∧ ∀ a, a ≠ l → hp s0' !! a = hp s0 !! a) →
          ∀ v s0 s0', tracks l s0 → same_elsewhere l s s0 →
                      forEach v f s0 = Some s0' → same_elsewhere l s s0')
    as Heach.
  { intros f Hf v s0 s0' Hs0 Hsame Hrun.
    apply (forEach_preserve
             (λ s1, tracks l s1 ∧ same_elsewhere l s s1) v f s0 s0');
      [|done|done].
    intros x s1 s1' [Ht1 Hsame1] Hx.
    destruct (Hf x s1 s1' Ht1 Hx) as [Ht1' Hfr]. split; [done|].
    intros a o' Ha Hao. rewrite Hfr by done. by apply Hsame1. }
  assert (∀ x s0 s0', tracks l s0 → addUniverse x s0 = Some s0' →
            tracks l s0' ∧ ∀ a, a ≠ l → hp s0' !! a = hp s0 !! a) as Hadd.
  { intros x s0 s0' Ht0 Hx. split; [by apply (addUniverse_tracks l x s0)|].
    by apply (addUniverse_frame x s0 s0' l); [apply Ht0|]. }
  assert (∀ x s0 s0', tracks l s0 → dropUniverse x s0 = Some s0' →
            tracks l s0' ∧ ∀ a, a ≠ l → hp s0' !! a = hp s0 !! a) as Hdrop.
  { intros x s0 s0' Ht0 Hx. split; [by apply (dropUniverse_tracks l x s0)|].
    by apply (dropUniverse_frame x s0 s0' l); [apply Ht0|]. }
  assert (same_elsewhere l s s) as Hrefl by (by intros a o' _ ?).
  assert (∀ xs, same_elsewhere l s (literal xs s).2) as Hlit.
  { intros xs. destruct (literal_spec xs s) as (a & -> & Ha).
    intros b o' Hb Hbo. simpl. rewrite lookup_insert_ne; [done|].
    congruence. }
  destruct o as [|m|err| |xs|xs|v|v|]; cbn [step].
  - destruct (bind_callback s) as [s1|] eqn:Hb; [simpl|done].
    intros [= <-].
    change (same_elsewhere l s s1).
    by apply (bind_callback_preserve (λ s0, same_elsewhere l s s0) s s1).
  - intros [= <-]. intros a o' Ha Hao.
    by rewrite onMessage_hp.
  - intros [= <-]. exact Hrefl.
  - intros [= <-]. exact Hrefl.
  - pose proof (literal_tracks l xs s Hs) as Ht. specialize (Hlit xs).
    destruct (literal xs s) as [v s0]. simpl in *.
    by apply (Heach addUniverse Hadd).
  - pose proof (literal_tracks l xs s Hs) as Ht. specialize (Hlit xs).
    destruct (literal xs s) as [v s0]. simpl in *.
    by apply (Heach dropUniverse Hdrop).
  - by apply (Heach addUniverse Hadd).
  - by apply (Heach dropUniverse Hdrop).
  - intros [= <-]. exact Hrefl.
Qed.

(** The server writes nothing of the caller's but the array it tracks:
    over a run, [this.universes] keeps referring to the same array, and
    every other object the store held - the configuration object, the
    arrays handed to [addUniverses] and [dropUniverses] - is as it was. *)
Theorem run_writes_only_tracked_array l os : ∀ s s',
  tracks l s → run os s = Some s' →
  tracks l s' ∧ same_elsewhere l s s'.
Proof.
  induction os as [|o os IH]; intros s s' Hs; simpl.
  - intros [= <-]. split; [done|]. by intros a o' _ ?.
  - destruct (step o s) as [s1|] eqn:Hstep; [simpl|done].
    intros Hrun.
    pose proof (step_tracks l o s s1 Hs Hstep) as Hs1.
    pose proof (step_same_elsewhere l o s s1 Hs Hstep) as Hsame1.
    destruct (IH s1 s' Hs1 Hrun) as [Hs' Hsame']. split; [done|].
    intros a o' Ha Hao. apply Hsame'; [done|]. by apply Hsame1.
Qed.

End Frames.

(** ** Membership calls the socket admits *)

Section Orderly.
Context `{E131}.

Implicit Types (s : state) (x u v p : val) (us xs : list val) (g : group)
  (h : gmap loc obj) (c : sockcall) (cs : list sockcall).

Lemma joined_no_membership g cs :
  Forall (λ c, membership_call c = false) cs → joined g cs = false.
Proof.
  induction cs as [|c cs IH] using rev_ind; intros Hq; [done|].
  apply Forall_app in Hq as [Hq Hc]. apply Forall_inv in Hc.
  rewrite joined_snoc. destruct c; try done; by apply IH.
Qed.

Lemma orderly_app_quiet cs cs' :
  orderly cs → Forall (λ c, membership_call c = false) cs' →
  orderly (cs ++ cs').
Proof.
  intros Ho. induction cs' as [|c cs' IH] using rev_ind; intros Hq.
  - by rewrite app_nil_r.
  - apply Forall_app in Hq as [Hq Hc]. apply Forall_inv in Hc.
    rewrite (assoc_L (++)). apply orderly_snoc; [by apply IH|].
    by destruct c.
Qed.

Lemma orderly_joins ifc us : ∀ cs,
  orderly cs → NoDup (getMulticastGroup <$> us) →
  (∀ u, u ∈ us → joined (getMulticastGroup u) cs = false) →
  orderly (cs ++ joins ifc us).
Proof.
  induction us as [|u us IH]; intros cs Ho Hnd Hnone.
  - unfold joins. simpl. by rewrite app_nil_r.
  - unfold joins in *. simpl. rewrite cons_middle, (assoc_L (++)).
    rewrite fmap_cons in Hnd. apply NoDup_cons in Hnd as [Hu Hnd].
    apply IH; [|done|].
    + apply orderly_snoc; [done|]. simpl. apply Hnone. by left.
    + intros u' Hu'. rewrite joined_snoc.
      rewrite decide_False; [apply Hnone; by right|].
      intros Heq. apply Hu. rewrite Heq. by apply list_elem_of_fmap_2.
Qed.

(** The calls of the callback given to [bind], for universes of distinct
    groups on a socket that has seen no membership call: each is
    admitted, and the groups joined are those of the universes. *)
Lemma bind_calls_orderly s us :
  NoDup (getMulticastGroup <$> us) →
  Forall (λ c, membership_call c = false) (_socket s) →
  orderly (_socket s ++ bind_calls s us)
  ∧ ∀ g, joined g (_socket s ++ bind_calls s us) = true
         ↔ ∃ u, u ∈ us ∧ getMulticastGroup u = g.
Proof.
  intros Hnd Hq. split.
  - assert (orderly (_socket s)) as Ho.
    { rewrite <- (app_nil_l (_socket s)).
      apply orderly_app_quiet; [constructor|done]. }
    unfold bind_calls. destruct (callback s) as [config|].
    + rewrite !(assoc_L (++)).
      assert (Forall (λ c, membership_call c = false)
                ((_socket s
                  ++ (if bool_decide (_mcastif s ≠ VUndef)
                      then [Call_setMulticastInterface (_mcastif s)]
                      else []))
                 ++ (if bool_decide (get (hp s) config "loopback"
                                     = VBool true)
                     then [Call_setMulticastLoopback true] else [])))
        as Hq'.
      { apply Forall_app. split; [apply Forall_app; split; [done|]|];
          case_bool_decide; by repeat constructor. }
      apply orderly_joins; [|done|].
      * rewrite <- (app_nil_l (_ ++ _)).
        apply orderly_app_quiet; [constructor|done].
      * intros u _. by apply joined_no_membership.
    + apply orderly_joins; [done|done|].
      intros u _. by apply joined_no_membership.
  - intros g. rewrite joined_bind_calls.
    rewrite (joined_no_membership g (_socket s)) by done.
    split; [by intros [?|?]|by right].
Qed.

Lemma NoDup_groups us :
  groups_distinct → Forall is_universe us → NoDup us →
  NoDup (getMulticastGroup <$> us).
Proof.
  intros Hd Hval Hnd. apply NoDup_fmap_2_strong; [|done].
  intros a b Ha Hb. apply Hd; eapply Forall_forall in Hval; eauto.
Qed.

(** The callback of [addUniverses] on a bound socket: the group it joins
    is not joined. *)
Lemma addUniverse_in_service x s us :
  groups_distinct → is_universe x →
  sound_with us s → complete_with us s → orderly (_socket s) →
  ∃ s' us', addUniverse x s = Some s'
    ∧ (sound_with us' s' ∧ complete_with us' s' ∧ orderly (_socket s'))
    ∧ universes s' = universes s
    ∧ (∀ a, universes s ≠ VRef a → hp s' !! a = hp s !! a).
Proof.
  intros Hd Hx Hs Hc Ho.
  destruct (addUniverse_ok x s us Hx Hs)
    as (s' & us' & Hrun & Hs' & Hc' & Hu' & Hfr).
  exists s', us'. split; [done|]. split; [|done].
  split; [done|]. split; [auto|].
  destruct Hs as (Ht & Hval & Hnd & Hj).
  destruct (decide (x ∈ us)) as [Hin|Hin].
  - rewrite (addUniverse_tracked x s us) in Hrun by done. by simplify_eq.
  - destruct (tracked_inv _ _ Ht) as (l & Hu & Hl).
    destruct (is_universe_to_key x Hx) as [k Hk].
    rewrite (addUniverse_new x s us l k) in Hrun by done.
    injection Hrun as <-. simpl.
    apply orderly_snoc; [done|]. simpl.
    destruct (joined (getMulticastGroup x) (_socket s)) eqn:Hjx; [|done].
    destruct (Hj _ Hjx) as (u & Hu0 & Hg). exfalso. apply Hin.
    assert (u = x) as <-; [|done].
    apply Hd; [|done|done]. eapply Forall_forall in Hval; eauto.
Qed.

(** The callback of [dropUniverses] on a bound socket: the group it
    leaves is joined. *)
Lemma dropUniverse_in_service x s us :
  groups_distinct → is_universe x →
  sound_with us s → complete_with us s → orderly (_socket s) →
  ∃ s' us', dropUniverse x s = Some s'
    ∧ (sound_with us' s' ∧ complete_with us' s' ∧ orderly (_socket s'))
    ∧ universes s' = universes s
    ∧ (∀ a, universes s ≠ VRef a → hp s' !! a = hp s !! a).
Proof.
  intros Hd Hx Hs Hc Ho.
  destruct (dropUniverse_ok x s us Hx Hs)
    as (s' & us' & Hrun & Hs' & Hc' & Hu' & Hfr).
  exists s', us'. split; [done|]. split; [|done].
  split; [done|]. split; [auto|].
  destruct Hs as (Ht & Hval & Hnd & Hj).
  destruct (decide (x ∈ us)) as [Hin|Hin].
  - destruct (tracked_inv _ _ Ht) as (l & Hu & Hl).
    destruct (is_universe_to_key x Hx) as [k Hk].
    rewrite (dropUniverse_tracked x s us l k) in Hrun by done.
    injection Hrun as <-. simpl.
    apply orderly_snoc; [done|]. simpl. by apply Hc.
  - rewrite (dropUniverse_absent x s us) in Hrun by done. by simplify_eq.
Qed.

(** [forEach] over an array of universe numbers other than the tracked
    one, on a bound socket. *)
Lemma forEach_in_service (f : val → state → option state) :
  (∀ x s us, is_universe x →
     sound_with us s → complete_with us s → orderly (_socket s) →
     ∃ s' us', f x s = Some s'
       ∧ (sound_with us' s' ∧ complete_with us' s' ∧ orderly (_socket s'))
       ∧ universes s' = universes s
       ∧ (∀ a, universes s ≠ VRef a → hp s' !! a = hp s !! a)) →
  ∀ a xs s us,
    Forall is_universe xs → hp s !! a = Some (OArr xs) →
    universes s ≠ VRef a →
    sound_with us s → complete_with us s → orderly (_socket s) →
    ∃ s' us', forEach (VRef a) f s = Some s'
      ∧ sound_with us' s' ∧ complete_with us' s' ∧ orderly (_socket s').
Proof.
  intros Hf a xs s us Hxs Ha Hne Hs Hc Ho. unfold forEach. rewrite Ha.
  destruct (forEach_from_inv
    (λ s0, (∃ us0, sound_with us0 s0 ∧ complete_with us0 s0
                   ∧ orderly (_socket s0))
           ∧ hp s0 !! a = Some (OArr xs) ∧ universes s0 ≠ VRef a)
    (λ x, is_universe x) a f) with (n := length xs) (k := 0%nat) (s := s)
    as (s' & Hrun & (us' & Hs' & Hc' & Ho') & _).
  - intros s0 (_ & Ha0 & _). eauto.
  - intros x s0 ((us0 & Hs0 & Hc0 & Ho0) & Ha0 & Hne0) Hx.
    destruct (Hf x s0 us0 Hx Hs0 Hc0 Ho0)
      as (s1 & us1 & Hrun & HJ1 & Hu1 & Hfr).
    exists s1. split; [done|]. split; [|split].
    + by exists us1.
    + rewrite Hfr; done.
    + by rewrite Hu1.
  - split; [|done]. exists us. auto.
  - exists s', us'. auto.
Qed.

Lemma step_in_service o s us :
  groups_distinct → service_op o →
  sound_with us s → complete_with us s → orderly (_socket s) →
  ∃ s' us', step o s = Some s'
    ∧ sound_with us' s' ∧ complete_with us' s' ∧ orderly (_socket s').
Proof.
  intros Hd Hop Hs Hc Ho.
  destruct o as [|m|err| |xs|xs|v|v|]; try done; cbn [step].
  - destruct (step_ok (Sock_message m) s us) as (s' & us' & Hrun & Hs' & Hc');
      [done|done|].
    cbn [step] in Hrun. injection Hrun as <-.
    exists (onMessage m s), us'. split; [done|]. split; [done|].
    split; [apply Hc'; auto|].
    destruct (onMessage_frame m s) as (_ & _ & -> & _). done.
  - destruct (literal_spec xs s) as (a & -> & Ha).
    pose proof Hs as (Ht & Hval & Hnd & Hj).
    destruct (tracked_literal a (OArr xs) s us Ha Ht) as [Ht' Hne].
    apply (forEach_in_service addUniverse) with (xs := xs) (us := us).
    + intros x s0 us0. by apply addUniverse_in_service.
    + by apply forallb_True.
    + simpl. by rewrite lookup_insert_eq.
    + done.
    + done.
    + done.
    + done.
  - destruct (literal_spec xs s) as (a & -> & Ha).
    pose proof Hs as (Ht & Hval & Hnd & Hj).
    destruct (tracked_literal a (OArr xs) s us Ha Ht) as [Ht' Hne].
    apply (forEach_in_service dropUniverse) with (xs := xs) (us := us).
    + intros x s0 us0. by apply dropUniverse_in_service.
    + by apply forallb_True.
    + simpl. by rewrite lookup_insert_eq.
    + done.
    + done.
    + done.
    + done.
Qed.

Lemma run_in_service os : ∀ s us,
  groups_distinct → Forall service_op os →
  sound_with us s → complete_with us s → orderly (_socket s) →
  ∃ s' us', run os s = Some s'
    ∧ sound_with us' s' ∧ complete_with us' s' ∧ orderly (_socket s').
Proof.
  induction os as [|o os IH]; intros s us Hd Hops Hs Hc Ho.
  - by exists s, us.
  - apply Forall_cons in Hops as [Hop Hops]. simpl.
    destruct (step_in_service o s us Hd Hop Hs Hc Ho)
      as (s1 & us1 & -> & Hs1 & Hc1 & Ho1). simpl.
    by apply (IH s1 us1).
Qed.

(** Bind completion on a server just constructed with distinct universe
    numbers. *)
Lemma listening_in_service h v p us :
  groups_distinct →
  tracked (Server_new h v p) = Some us → Forall is_universe us → NoDup us →
  ∃ s', step Sock_listening (Server_new h v p) = Some s'
    ∧ sound_with us s' ∧ complete_with us s' ∧ orderly (_socket s').
Proof.
  intros Hd Ht Hval Hnd.
  destruct (Server_new_fresh h v p) as (_ & _ & Hnone).
  destruct (Server_new_socket h v p) as (r & b & Hsock0).
  assert (sound_with us (Server_new h v p)) as Hs.
  { repeat split; try done. intros g. by rewrite Hnone. }
  destruct (step_ok Sock_listening (Server_new h v p) us)
    as (s' & us' & Hstep & Hs' & Hc'); [done|done|].
  destruct (bind_callback_effect (Server_new h v p) us Ht)
    as (s1 & Hbind & Hhp & Hu & _ & _ & _ & _ & Hsock & _).
  { eapply Forall_impl; [exact Hval|]. apply is_universe_to_key. }
  cbn [step] in Hstep. rewrite Hbind in Hstep. injection Hstep as <-.
  assert (us' = us) as ->.
  { destruct Hs' as (Ht' & _). unfold tracked in *. simpl in Ht'.
    rewrite Hhp, Hu in Ht'. congruence. }
  exists (onListening s1). cbn [step]. rewrite Hbind.
  split; [done|]. split; [done|]. split; [apply Hc'; auto|].
  simpl. rewrite Hsock.
  apply bind_calls_orderly; [by apply NoDup_groups|].
  rewrite Hsock0. by repeat constructor.
Qed.

End Orderly.

(** ** The constructor on every input, and bind completion *)

Section Construction.
Context `{E131}.

Implicit Types (s : state) (x u v p : val) (us xs : list val) (g : group)
  (h : gmap loc obj).

Lemma truthy_js_or v w : truthy w = true → truthy (js_or v w) = true.
Proof. unfold js_or. by destruct (truthy v) eqn:Hv. Qed.

(** Whatever the arguments, [this.port] is truthy when the default port
    is, and it is the port given to [bind]: a port 0, like every falsy
    port, is replaced by the default port. *)
Theorem Server_new_port_truthy h v p :
  truthy DEFAULT_PORT = true →
  truthy (port (Server_new h v p)) = true
  ∧ (∃ r a, _socket (Server_new h v p)
            = [Call_createSocket r; Call_bind (port (Server_new h v p)) a])
  ∧ (truthy p = false → instanceof_Object v = false → v ≠ VUndef →
     port (Server_new h v p) = DEFAULT_PORT).
Proof.
  intros Hdef. unfold Server_new.
  destruct (instanceof_Object v || bool_decide (v = VUndef)) eqn:Hform.
  - destruct (if truthy v then _ else _) as [config h1].
    destruct (if truthy (get _ config "universes") then _ else _)
      as [us h3].
    simpl. split; [by apply truthy_js_or|]. split; [by eexists _, _|].
    intros _ Hobj Hv. rewrite Hobj in Hform. simpl in Hform.
    by apply bool_decide_eq_true in Hform.
  - destruct (if bool_decide (v ≠ VUndef) && negb (isArray h v) then _ else _)
      as [u1 h1].
    destruct (if truthy u1 then _ else _) as [us h2].
    simpl. split; [by apply truthy_js_or|]. split; [by eexists _, _|].
    intros Hp _ _. unfold js_or. by rewrite Hp.
Qed.

(** The configuration-object branch on a reference with no properties (an
    array, or an address the store does not hold). *)
Lemma Server_new_plain h c p :
  (∀ name, get h (VRef c) name = VUndef) →
  hp (Server_new h (VRef c) p) = <[fresh (dom h) := OArr []]> h
  ∧ universes (Server_new h (VRef c) p) = VRef (fresh (dom h)).
Proof.
  intros Hget. unfold Server_new. simpl. rewrite !Hget.
  rewrite bool_decide_eq_false_2 by (intros Hn; by apply Hn). simpl.
  done.
Qed.

Lemma Server_new_positional h v p :
  instanceof_Object v = false → v ≠ VUndef →
  hp (Server_new h v p) = <[fresh (dom h) := OArr [v]]> h
  ∧ universes (Server_new h v p) = VRef (fresh (dom h)).
Proof.
  intros Hobj Hv. unfold Server_new. rewrite Hobj.
  rewrite (bool_decide_eq_false_2 (v = VUndef)) by done. simpl.
  rewrite bool_decide_eq_true_2 by done.
  assert (isArray h v = false) as -> by (by destruct v).
  simpl. unfold alloc. simpl. done.
Qed.

Lemma get_no_props h c :
  (∀ ps, h !! c ≠ Some (OObj ps)) → ∀ name, get h (VRef c) name = VUndef.
Proof.
  intros Hc name. unfold get. destruct (h !! c) as [[xs|ps]|] eqn:Hhc; try done.
  by destruct (Hc ps).
Qed.

(** On every input the constructor leaves [this.universes] referring to an
    array. *)
Lemma Server_new_tracks h v p : ∃ l, tracks l (Server_new h v p).
Proof.
  assert (∀ h0 c ps, h0 !! c = Some (OObj ps) →
            ∃ l, tracks l (Server_new h0 (VRef c) p)) as Hobject.
  { intros h0 c ps Hc.
    destruct (Server_new_object h0 c ps p Hc) as (Ht & _).
    destruct (tracked_inv _ _ Ht) as (l & Hu & Hl).
    exists l. split; [done|]. eauto. }
  destruct (decide (v = VUndef)) as [->|Hv].
  - rewrite Server_new_omitted. eapply Hobject. apply lookup_insert_eq.
  - destruct (instanceof_Object v) eqn:Hobj.
    + destruct v as [| | | | |c]; try done.
      destruct (h !! c) as [[xs|ps]|] eqn:Hc.
      * destruct (Server_new_plain h c p) as [Hhp Hu].
        { apply get_no_props. congruence. }
        exists (fresh (dom h)). split; [done|]. rewrite Hhp.
        eexists. apply lookup_insert_eq.
      * by apply (Hobject h c ps).
      * destruct (Server_new_plain h c p) as [Hhp Hu].
        { apply get_no_props. congruence. }
        exists (fresh (dom h)). split; [done|]. rewrite Hhp.
        eexists. apply lookup_insert_eq.
    + destruct (Server_new_positional h v p Hobj Hv) as [Hhp Hu].
      exists (fresh (dom h)). split; [done|]. rewrite Hhp.
      eexists. apply lookup_insert_eq.
Qed.

(** In every state a run reaches from the constructor, whatever its
    arguments and whatever the steps, [this.universes] is the reference the
    constructor stored and refers to an array: [includes], [push],
    [splice] and [forEach] are never called on anything else. *)
Theorem universes_always_array h v p os s :
  run os (Server_new h v p) = Some s →
  universes s = universes (Server_new h v p)
  ∧ ∃ us, tracked s = Some us.
Proof.
  intros Hrun. destruct (Server_new_tracks h v p) as [l Hl].
  destruct (run_tracks l os _ s Hl Hrun) as [Hu [us Hus]].
  destruct Hl as [Hu0 _]. split; [congruence|].
  exists us. by apply (tracked_intro _ l).
Qed.

(** The constructor writes nothing of the caller's but the [universes]
    property of the configuration object: every other object of the store
    is as it was, and the configuration object keeps its other
    properties. *)
Theorem Server_new_store_frame h v p :
  (∀ a o, v ≠ VRef a → h !! a = Some o →
          hp (Server_new h v p) !! a = Some o)
  ∧ (∀ c ps, v = VRef c → h !! c = Some (OObj ps) →
       ∃ ps', hp (Server_new h v p) !! c = Some (OObj ps')
              ∧ ∀ name, name ≠ "universes"%string →
                        ps' !! name = ps !! name).
Proof.
  assert (∀ h0 a o, h0 !! a = Some o → ∀ o', 
            <[fresh (dom h0) := o']> h0 !! a = Some o) as Hfresh.
  { intros h0 a o Ha o'. rewrite lookup_insert_ne; [done|].
    by apply (fresh_ne h0 a o). }
  assert (∀ h0 c ps, h0 !! c = Some (OObj ps) →
            (∀ a o, a ≠ c → h0 !! a = Some o →
                    hp (Server_new h0 (VRef c) p) !! a = Some o)
            ∧ ∃ ps', hp (Server_new h0 (VRef c) p) !! c = Some (OObj ps')
                     ∧ ∀ name, name ≠ "universes"%string →
                               ps' !! name = ps !! name) as Hobject.
  { intros h0 c ps Hc.
    destruct (ps !! "universes"%string) as [u|] eqn:Hps.
    - destruct (decide (u = VUndef)) as [->|Hu].
      + (* universes: undefined *)
        assert (hp (Server_new h0 (VRef c) p)
                = <[fresh (dom h0) := OArr []]> h0) as ->.
        { unfold Server_new. simpl. rewrite !(get_obj h0 c ps) by done.
          rewrite Hps. simpl.
          rewrite (get_obj h0 c ps) by done. rewrite Hps. simpl.
          unfold alloc. simpl. done. }
        split; [intros a o _ Ha; by apply Hfresh|].
        exists ps. split; [by apply Hfresh|done].
      + destruct (isArray h0 u) eqn:Harr.
        * (* universes: an array *)
          unfold isArray in Harr. destruct u as [| | | | |b]; try done.
          destruct (h0 !! b) as [[us|]|] eqn:Hb; try done.
          destruct (Server_new_array h0 c ps p b us Hc Hps Hb) as [-> _].
          split; [by intros a o _ Ha|]. exists ps. done.
        * (* universes: a single value *)
          destruct (Server_new_single h0 c ps p u Hc Hps Hu Harr) as [-> _].
          split.
          { intros a o Ha Hao. rewrite lookup_insert_ne by done.
            by apply Hfresh. }
          eexists. split; [apply lookup_insert_eq|].
          intros name Hname. by rewrite lookup_insert_ne.
    - (* universes: absent *)
      assert (hp (Server_new h0 (VRef c) p)
              = <[fresh (dom h0) := OArr []]> h0) as ->.
      { unfold Server_new. simpl. rewrite !(get_obj h0 c ps) by done.
        rewrite Hps. simpl.
        rewrite (get_obj h0 c ps) by done. rewrite Hps. simpl.
        unfold alloc. simpl. done. }
      split; [intros a o _ Ha; by apply Hfresh|].
      exists ps. split; [by apply Hfresh|done]. }
  split.
  - intros a o Hva Ha.
    destruct (decide (v = VUndef)) as [->|Hv].
    + rewrite Server_new_omitted.
      destruct (Hobject (<[fresh (dom h) := OObj ∅]> h) (fresh (dom h)) ∅)
        as [Hother _]; [apply lookup_insert_eq|].
      apply Hother; [intros ->; by rewrite fresh_None in Ha|].
      by apply Hfresh.
    + destruct (instanceof_Object v) eqn:Hobj.
      * destruct v as [| | | | |c]; try done.
        assert (a ≠ c) as Hac by congruence.
        destruct (h !! c) as [[xs|ps]|] eqn:Hc.
        -- destruct (Server_new_plain h c p) as [-> _];
             [apply get_no_props; congruence|by apply Hfresh].
        -- destruct (Hobject h c ps Hc) as [Hother _]. by apply Hother.
        -- destruct (Server_new_plain h c p) as [-> _];
             [apply get_no_props; congruence|by apply Hfresh].
      * destruct (Server_new_positional h v p Hobj Hv) as [-> _].
        by apply Hfresh.
  - intros c ps -> Hc. by destruct (Hobject h c ps Hc) as [_ ?].
Qed.

(** Bind completion, for a tracked list of universe numbers of distinct
    groups and a socket on which no membership call has been made, the
    socket's calls returning: the callback given to [bind] completes and
    [listening] is emitted after it. In the configuration-object form
    [setMulticastInterface] is called when [mcastif] was given,
    [setMulticastLoopback(true)] when [loopback] is [true], then one
    [addMembership] for each tracked universe in order, on the configured
    interface, and the last seen sequence number of each is set to 0; in
    the positional form only the [addMembership] calls are made, with no
    interface, and the map of last seen sequence numbers is left as it is.
    No group is joined twice, and the groups joined afterwards are those
    of the tracked universes. *)
Theorem bind_completion_spec s us :
  tracked s = Some us → Forall is_number us →
  NoDup (getMulticastGroup <$> us) →
  Forall (λ c, membership_call c = false) (_socket s) →
  ∃ s', step Sock_listening s = Some s'
    ∧ _socket s' = _socket s ++ bind_calls s us
    ∧ emitted s' = emitted s ++ [Ev_listening]
    ∧ tracked s' = Some us
    ∧ (callback s ≠ PositionalForm →
       ∀ u, u ∈ us → lastSeqOf s' u = Some (VNum 0))
    ∧ (callback s = PositionalForm →
       _lastSequenceNumber s' = _lastSequenceNumber s
       ∧ bind_calls s us = joins VUndef us)
    ∧ (∀ k, (∀ u, u ∈ us → to_key u ≠ Some k) →
            _lastSequenceNumber s' !! k = _lastSequenceNumber s !! k)
    ∧ orderly (_socket s')
    ∧ (∀ g, joined g (_socket s') = true
            ↔ ∃ u, u ∈ us ∧ getMulticastGroup u = g).
Proof.
  intros Ht Hnum Hnd Hquiet.
  assert (Forall (λ x, is_Some (to_key x)) us) as Hkeys.
  { eapply Forall_impl; [exact Hnum|]. intros x. apply is_number_to_key. }
  destruct (bind_callback_effect s us Ht Hkeys) as
    (s1 & Hbind & Hhp & Hu & _ & _ & _ & Hem & Hsock & Hzero & Hrest & Hpos).
  destruct (bind_calls_orderly s us Hnd Hquiet) as [Hord Hjoined].
  exists (onListening s1). cbn [step]. rewrite Hbind. split; [done|].
  split; [done|]. split; [simpl; by rewrite Hem|].
  split. { unfold tracked in *. simpl. by rewrite Hhp, Hu. }
  split.
  { intros Hcb u Hu'. unfold lastSeqOf.
    assert (is_number u) as Hun by (eapply Forall_forall in Hnum; eauto).
    destruct (is_number_to_key u Hun) as [k Hk]. rewrite Hk. simpl.
    unfold lastSeq. simpl. by rewrite (Hzero Hcb u k Hu' Hk). }
  split.
  { intros Hcb. split; [by apply Hpos|]. unfold bind_calls. by rewrite Hcb. }
  split; [done|]. simpl. rewrite Hsock. done.
Qed.

(** For a server constructed with distinct universe numbers, whose groups
    are distinct: once bind has completed, over every run of datagrams and
    of [addUniverses] / [dropUniverses] calls with universe numbers, the
    socket's calls returning, the tracked list holds distinct universe
    numbers and every membership call the server has made was admitted by
    the socket's membership state - [addMembership] only for a group that
    was not joined, [dropMembership] only for a group that was. *)
Theorem membership_calls_are_admitted h v p us0 os :
  groups_distinct →
  tracked (Server_new h v p) = Some us0 →
  Forall is_universe us0 → NoDup us0 →
  Forall service_op os →
  ∃ s us, run (Sock_listening :: os) (Server_new h v p) = Some s
    ∧ tracked s = Some us
    ∧ Forall is_universe us
    ∧ NoDup us
    ∧ orderly (_socket s).
Proof.
  intros Hd Ht Hval Hnd Hops.
  destruct (listening_in_service h v p us0 Hd Ht Hval Hnd)
    as (s1 & Hstep & Hs1 & Hc1 & Ho1).
  destruct (run_in_service os s1 us0 Hd Hops Hs1 Hc1 Ho1)
    as (s & us & Hrun & (Ht' & Hval' & Hnd' & _) & _ & Ho).
  exists s, us. cbn [run]. rewrite Hstep. simpl. by rewrite Hrun.
Qed.

End Construction.

(** ** The interface of membership calls, and the latest packet *)

Section Interface.
Context `{E131}.

Implicit Types (s : state) (x u v p i : val) (us xs : list val) (g : group)
  (h : gmap loc obj).

Lemma one_interface_call i c s :
  uses_interface i c → one_interface i s → one_interface i (call c s).
Proof.
  intros Hc (Hi & Hsock & Hpos). split; [done|]. split; [|done].
  simpl. apply Forall_app. split; [done|]. by constructor.
Qed.

Lemma Server_new_one_interface h v p :
  one_interface (_mcastif (Server_new h v p)) (Server_new h v p).
Proof.
  unfold Server_new.
  destruct (instanceof_Object v || bool_decide (v = VUndef)).
  - destruct (if truthy v then _ else _) as [config h1].
    destruct (if truthy (get _ config "universes") then _ else _)
      as [us h3].
    split; [done|]. split; [by repeat constructor|]. done.
  - destruct (if bool_decide (v ≠ VUndef) && negb (isArray h v) then _ else _)
      as [u1 h1].
    destruct (if truthy u1 then _ else _) as [us h2].
    split; [done|]. split; [by repeat constructor|]. done.
Qed.

Lemma addUniverse_one_interface i x s s' :
  one_interface i s → addUniverse x s = Some s' → one_interface i s'.
Proof.
  intros Hs. pose proof Hs as (Hi & _). unfold addUniverse.
  destruct (tracked s) as [us|]; [simpl|done].
  destruct (includes us x); [intros [= <-]; exact Hs|].
  unfold store_tracked.
  destruct (universes s); destruct (to_key x); simpl; try done.
  all: intros [= <-]; apply one_interface_call; [exact Hi | exact Hs].
Qed.

Lemma dropUniverse_one_interface i x s s' :
  one_interface i s → dropUniverse x s = Some s' → one_interface i s'.
Proof.
  intros Hs. pose proof Hs as (Hi & _). unfold dropUniverse.
  destruct (tracked s) as [us|]; [simpl|done].
  destruct (includes us x); simpl; [|intros [= <-]; exact Hs].
  unfold store_tracked.
  destruct (universes s); destruct (to_key x); simpl; try done.
  all: intros [= <-]; apply one_interface_call; [exact Hi | exact Hs].
Qed.

Lemma bind_callback_one_interface i s s' :
  one_interface i s → bind_callback s = Some s' → one_interface i s'.
Proof.
  intros Hs. unfold bind_callback.
  destruct (callback s) as [config|] eqn:Hcb.
  - set (s1 := if bool_decide (_mcastif s ≠ VUndef) then _ else s).
    set (s2 := if bool_decide (get (hp s1) config "loopback" = VBool true)
               then _ else s1).
    assert (one_interface i s1) as Hs1.
    { subst s1. destruct (bool_decide (_mcastif s ≠ VUndef)); [|done].
      by apply one_interface_call. }
    assert (one_interface i s2) as Hs2.
    { subst s2.
      destruct (bool_decide (get (hp s1) config "loopback" = VBool true));
        [|done].
      by apply one_interface_call. }
    case_bool_decide; [|intros [= <-]; exact Hs2].
    intros Hb. eapply forEach_preserve; [|exact Hs2|exact Hb].
    intros x s0 s0' Hs0. cbv beta.
    destruct (to_key x) as [k|]; simpl; [|intros [=]].
    intros [= <-]. pose proof Hs0 as (Hi0 & Hsock0 & Hpos0).
    apply one_interface_call; [exact Hi0|].
    split; [done|]. split; done.
  - intros Hb.
    assert (one_interface i s' ∧ callback s' = PositionalForm) as [? _];
      [|done].
    eapply (forEach_preserve
              (λ s0, one_interface i s0 ∧ callback s0 = PositionalForm));
      [|split; [exact Hs|exact Hcb]|exact Hb].
    intros x s0 s0' [Hs0 Hcb0]. intros [= <-]. split; [|done].
    pose proof Hs0 as (_ & _ & Hpos0).
    apply one_interface_call; [|done]. simpl. symmetry. by apply Hpos0.
Qed.

Lemma step_one_interface i o s s' :
  one_interface i s → step o s = Some s' → one_interface i s'.
Proof.
  intros Hs. destruct o as [|m|err| |xs|xs|v|v|]; cbn [step].
  - destruct (bind_callback s) as [s1|] eqn:Hb; [simpl|done].
    intros [= <-]. change (one_interface i s1).
    by apply (bind_callback_one_interface i s s1).
  - intros [= <-]. unfold onMessage. case_bool_decide; [exact Hs|].
    by destruct (discard _ _).
  - intros [= <-]. exact Hs.
  - intros [= <-]. exact Hs.
  - unfold literal. destruct (alloc (hp s) (OArr xs)) as [a h'].
    apply forEach_preserve; [|exact Hs].
    intros x s0 s0'. apply addUniverse_one_interface.
  - unfold literal. destruct (alloc (hp s) (OArr xs)) as [a h'].
    apply forEach_preserve; [|exact Hs].
    intros x s0 s0'. apply dropUniverse_one_interface.
  - apply forEach_preserve; [|exact Hs].
    intros x s0 s0'. apply addUniverse_one_interface.
  - apply forEach_preserve; [|exact Hs].
    intros x s0 s0'. apply dropUniverse_one_interface.
  - intros [= <-]. by apply one_interface_call.
Qed.

(** The interface the constructor stores is [config.mcastif]: the
    property of the configuration object, and [undefined] in the
    positional form and when the first argument is omitted. *)
Lemma Server_new_mcastif h v p :
  _mcastif (Server_new h v p) = mcastif_of h v.
Proof.
  destruct (decide (v = VUndef)) as [->|Hv].
  { rewrite Server_new_omitted.
    destruct (Server_new_object (<[fresh (dom h) := OObj ∅]> h)
                (fresh (dom h)) ∅ p) as (_ & _ & -> & _); [|done].
    apply lookup_insert_eq. }
  destruct v as [| | | | |c]; try done;
    try (unfold Server_new; simpl; by repeat (case_match; simpl)).
  unfold mcastif_of. destruct (h !! c) as [[xs|ps]|] eqn:Hc.
  - assert (∀ name, get h (VRef c) name = VUndef) as Hget
      by (apply get_no_props; congruence).
    unfold Server_new. simpl. rewrite !Hget.
    rewrite bool_decide_eq_false_2 by (intros Hn; by apply Hn). simpl.
    apply get_no_props. intros ps. unfold alloc. simpl.
    rewrite lookup_insert. destruct (decide _); congruence.
  - by destruct (Server_new_object h c ps p Hc) as (_ & _ & -> & _).
  - assert (∀ name, get h (VRef c) name = VUndef) as Hget
      by (apply get_no_props; congruence).
    unfold Server_new. simpl. rewrite !Hget.
    rewrite bool_decide_eq_false_2 by (intros Hn; by apply Hn). simpl.
    apply get_no_props. intros ps. unfold alloc. simpl.
    rewrite lookup_insert. destruct (decide _); congruence.
Qed.

(** Every membership call of a server names the same interface,
    [config.mcastif] of the constructor's first argument - the property of
    the configuration object, none in the positional form - so that each
    [dropMembership] names the interface its [addMembership] named; no
    step assigns [this._mcastif]. *)
Theorem membership_calls_share_interface h v p os : ∀ s,
  run os (Server_new h v p) = Some s →
  _mcastif s = mcastif_of h v
  ∧ Forall (uses_interface (mcastif_of h v)) (_socket s).
Proof.
  assert (∀ i os0 s0 s, one_interface i s0 → run os0 s0 = Some s →
                        one_interface i s) as Hrun.
  { intros i os0. induction os0 as [|o os0 IH]; intros s0 s Hs0; simpl.
    - by intros [= <-].
    - destruct (step o s0) as [s1|] eqn:Hstep; [simpl|done].
      apply IH. by apply (step_one_interface i o s0). }
  intros s Hs. rewrite <- (Server_new_mcastif h v p).
  destruct (Hrun _ os _ s (Server_new_one_interface h v p) Hs)
    as (Hi & Hsock & _).
  done.
Qed.

(** The last seen sequence number of a universe after a sequence of
    datagrams is that of the latest valid packet of the universe,
    whatever the discard predicate said of it and of the packets before
    it; datagrams that fail validation and packets of other universes do
    not count. *)
Theorem last_seen_is_latest_valid U ms : ∀ s s',
  run (Sock_message <$> ms) s = Some s' →
  lastSeq s' (pretty U) = latest U ms (lastSeq s (pretty U)).
Proof.
  induction ms as [|m ms IH]; intros s s'; simpl.
  - by intros [= <-].
  - intros Hrun. rewrite (IH _ _ Hrun). f_equal.
    unfold onMessage. case_bool_decide as Hbad.
    + rewrite bool_decide_eq_false_2 by done. done.
    + rewrite (bool_decide_eq_true_2 (validate _ = _)).
      2:{ destruct (decide (validate (Packet_new m)
                            = ERR_NONE (Packet_new m))); [done|].
          by destruct Hbad. }
      simpl. rewrite lastSeq_with_seq_insert.
      destruct (decide (pretty (getUniverse (Packet_new m)) = pretty U))
        as [Heq|Hne].
      * apply (inj pretty) in Heq. by rewrite bool_decide_eq_true_2.
      * rewrite bool_decide_eq_false_2 by congruence.
        by destruct (discard _ _).
Qed.

End Interface.

(** * The properties on a concrete [e131] module *)

Section Examples.

Implicit Types (s : state).

Local Ltac by_computation := reflexivity.

(** Universes 1 to 63999 have distinct groups 239.255.hi.lo. *)
Lemma Sacn_groups_distinct : groups_distinct.
Proof.
  intros [| |b1|n1|s1|l1] [| |b2|n2|s2|l2] Ha Hb; try done. simpl.
  apply andb_prop_elim in Ha as [Ha1 Ha2], Hb as [Hb1 Hb2].
  apply Is_true_eq_true in Ha1, Ha2, Hb1, Hb2.
  apply Z.leb_le in Ha1, Ha2, Hb1, Hb2.
  assert (∀ n, 1 ≤ n ≤ 63999 → (n / 256) mod 256 = n / 256) as Hsmall.
  { intros n Hn. apply Z.mod_small. split.
    - apply Z.div_pos; lia.
    - apply Z.div_lt_upper_bound; lia. }
  rewrite !Hsmall by lia. intros [= Hhi Hlo]. f_equal.
  pose proof (Z.div_mod n1 256). pose proof (Z.div_mod n2 256). lia.
Qed.

(** ** Counterexamples *)

(** C1, counterexample: universe 1 has last seen 10 and a valid packet with
    sequence number 9 arrives, which the discard predicate classifies as
    stale; [packet-out-of-order] is emitted, and the last seen sequence
    number of universe 1 becomes 9. *)
Lemma stale_packet_moves_last_seen :
  ∃ s, run [Sock_listening; Sock_message (Sacn.pkt 1 10)] Sacn.server1
       = Some s
    ∧ lastSeq s "1" = VNum 10
    ∧ validate (Packet_new (Sacn.pkt 1 9))
      = ERR_NONE (Packet_new (Sacn.pkt 1 9))
    ∧ discard (Packet_new (Sacn.pkt 1 9)) (lastSeq s "1") = true
    ∧ emitted (onMessage (Sacn.pkt 1 9) s)
      = emitted s ++ [Ev_packet_out_of_order (Sacn.pkt 1 9)]
    ∧ lastSeq (onMessage (Sacn.pkt 1 9) s) "1" = VNum 9
    ∧ lastSeq (onMessage (Sacn.pkt 1 9) s) "1" ≠ lastSeq s "1".
Proof.
  exists Sacn.seen10.
  split; [apply run_after; by_computation|].
  split; [by_computation|]. split; [by_computation|].
  split; [by_computation|]. split; [by_computation|].
  split; [by_computation|].
  intros Heq. assert (VNum 9 = VNum 10) as Hbad by exact Heq.
  discriminate Hbad.
Qed.

(** C2, counterexample: after [new Server(1)] and bind completion the
    group of universe 1 is joined while the map of last seen sequence
    numbers has no entry; and after [new Server({universes: [1]})], bind
    completion and a valid datagram of universe 2, the map has an entry
    for universe 2, whose group is not joined. *)
Lemma membership_is_not_the_key_set :
  (∃ s, run [Sock_listening] Sacn.positional1 = Some s
     ∧ joined (getMulticastGroup (VNum 1)) (_socket s) = true
     ∧ _lastSequenceNumber s !! "1"%string = None)
  ∧ (∃ s, run [Sock_listening; Sock_message (Sacn.pkt 2 0)] Sacn.server1
          = Some s
     ∧ joined (getMulticastGroup (VNum 2)) (_socket s) = false
     ∧ _lastSequenceNumber s !! "2"%string = Some (VNum 0)).
Proof.
  split.
  - exists (after (H := Sacn.e131) [Sock_listening] Sacn.positional1).
    split; [apply run_after; by_computation|].
    split; by_computation.
  - exists Sacn.seen2.
    split; [apply run_after; by_computation|].
    split; by_computation.
Qed.

(** C3, counterexample: [new Server(undefined, 5568)], the positional call
    with the universes omitted, tracks no universe rather than universe
    1. *)
Lemma positional_defaults_unreached :
  tracked (Server_new ∅ VUndef (VNum 5568)) = Some []
  ∧ tracked (Server_new ∅ VUndef (VNum 5568)) ≠ Some [VNum 1].
Proof. split; [by_computation | discriminate]. Qed.

(** C5, counterexample: after [new Server({universes: [1, 1]})] and bind
    completion, [dropUniverses([1])] leaves universe 1 in the tracked list,
    and the following [addUniverses([1])] does not set its last seen
    sequence number, which stays undefined. *)
Lemma dropped_universe_still_tracked :
  ∃ s1 s2,
    run [Sock_listening; Do_dropUniverses [VNum 1]] Sacn.server11 = Some s1
    ∧ tracked s1 = Some [VNum 1]
    ∧ step (Do_addUniverses [VNum 1]) s1 = Some s2
    ∧ tracked s2 = Some [VNum 1]
    ∧ lastSeqOf s2 (VNum 1) = Some VUndef.
Proof.
  exists (after (H := Sacn.e131) [Sock_listening; Do_dropUniverses [VNum 1]] Sacn.server11).
  exists (after (H := Sacn.e131) [Do_addUniverses [VNum 1]]
            (after (H := Sacn.e131) [Sock_listening; Do_dropUniverses [VNum 1]]
               Sacn.server11)).
  split; [apply run_after; by_computation|].
  split; [by_computation|].
  split; [apply step_after; by_computation|].
  split; by_computation.
Qed.

(** C8, counterexample: [addUniverses([5])] before bind completion calls
    [addMembership] at once, on the socket still binding; nothing is left
    for bind completion, and the socket has seen the calls it sees when
    [addUniverses([5])] comes after bind completion. *)
Lemma join_is_not_deferred :
  ∃ s1 s3,
    step (Do_addUniverses [VNum 5]) Sacn.server0 = Some s1
    ∧ emitted s1 = []
    ∧ _socket s1
      = [Call_createSocket true; Call_bind (VNum 5568) VUndef;
         Call_addMembership (239, 255, 0, 5) VUndef]
    ∧ run [Sock_listening; Do_addUniverses [VNum 5]] Sacn.server0 = Some s3
    ∧ emitted s3 = [Ev_listening]
    ∧ _socket s3
      = [Call_createSocket true; Call_bind (VNum 5568) VUndef;
         Call_addMembership (239, 255, 0, 5) VUndef].
Proof.
  exists (after (H := Sacn.e131) [Do_addUniverses [VNum 5]] Sacn.server0).
  exists (after (H := Sacn.e131) [Sock_listening; Do_addUniverses [VNum 5]] Sacn.server0).
  split; [apply step_after; by_computation|].
  split; [by_computation|].
  split; [by_computation|].
  split; [apply run_after; by_computation|].
  split; by_computation.
Qed.

(** C9, counterexample: after [close] and the socket's [close] event,
    [addUniverses([5])] tracks universe 5 and sets its last seen sequence
    number, and a datagram handed to the message handler makes it emit
    [packet]. *)
Lemma closed_server_still_acts :
  ∃ s s',
    run [Sock_listening; Do_close; Sock_close] Sacn.server0 = Some s
    ∧ tracked s = Some []
    ∧ emitted s = [Ev_listening; Ev_close]
    ∧ step (Do_addUniverses [VNum 5]) s = Some s'
    ∧ tracked s' = Some [VNum 5]
    ∧ lastSeqOf s' (VNum 5) = Some (VNum 0)
    ∧ emitted (onMessage (Sacn.pkt 1 10) s)
      = [Ev_listening; Ev_close; Ev_packet (Sacn.pkt 1 10)].
Proof.
  exists (after (H := Sacn.e131) [Sock_listening; Do_close; Sock_close] Sacn.server0).
  exists (after (H := Sacn.e131) [Do_addUniverses [VNum 5]]
            (after (H := Sacn.e131) [Sock_listening; Do_close; Sock_close] Sacn.server0)).
  split; [apply run_after; by_computation|].
  split; [by_computation|]. split; [by_computation|].
  split; [apply step_after; by_computation|].
  split; [by_computation|]. split; by_computation.
Qed.

(** ** The theorems at concrete inputs *)

(** [onMessage_stale] on universe 1 with last seen 10 and a packet with
    sequence number 9. *)
Lemma onMessage_stale_witness :
  validate (Packet_new (Sacn.pkt 1 9)) = ERR_NONE (Packet_new (Sacn.pkt 1 9))
  ∧ discard (Packet_new (Sacn.pkt 1 9))
      (lastSeq Sacn.seen10
         (pretty (getUniverse (Packet_new (Sacn.pkt 1 9))))) = true
  ∧ emitted (onMessage (Sacn.pkt 1 9) Sacn.seen10)
    = emitted Sacn.seen10
      ++ [Ev_packet_out_of_order (Packet_new (Sacn.pkt 1 9))]
  ∧ lastSeq (onMessage (Sacn.pkt 1 9) Sacn.seen10)
      (pretty (getUniverse (Packet_new (Sacn.pkt 1 9))))
    = VNum (getSequenceNumber (Packet_new (Sacn.pkt 1 9))).
Proof.
  assert (validate (Packet_new (Sacn.pkt 1 9))
          = ERR_NONE (Packet_new (Sacn.pkt 1 9))) as Hok by reflexivity.
  assert (discard (Packet_new (Sacn.pkt 1 9))
            (lastSeq Sacn.seen10
               (pretty (getUniverse (Packet_new (Sacn.pkt 1 9))))) = true)
    as Hstale by reflexivity.
  split; [exact Hok|]. split; [exact Hstale|].
  destruct (onMessage_stale (H := Sacn.e131) (Sacn.pkt 1 9) Sacn.seen10 Hok Hstale)
    as (Hev & Hseq & _).
  split; [exact Hev | exact Hseq].
Defined.

(** [onMessage_invalid] on a packet whose validation outcome is 7. *)
Lemma onMessage_invalid_witness :
  validate (Packet_new (Sacn.Pkt (VNum 7) 1 10))
  ≠ ERR_NONE (Packet_new (Sacn.Pkt (VNum 7) 1 10))
  ∧ emitted (onMessage (Sacn.Pkt (VNum 7) 1 10) Sacn.listening1)
    = emitted Sacn.listening1
      ++ [Ev_packet_error (Packet_new (Sacn.Pkt (VNum 7) 1 10))
            (validate (Packet_new (Sacn.Pkt (VNum 7) 1 10)))]
  ∧ _lastSequenceNumber (onMessage (Sacn.Pkt (VNum 7) 1 10) Sacn.listening1)
    = _lastSequenceNumber Sacn.listening1.
Proof.
  assert (validate (Packet_new (Sacn.Pkt (VNum 7) 1 10))
          ≠ ERR_NONE (Packet_new (Sacn.Pkt (VNum 7) 1 10))) as Hbad.
  { simpl. unfold Sacn.ERR_NONE. discriminate. }
  split; [exact Hbad|].
  destruct (onMessage_invalid (H := Sacn.e131) (Sacn.Pkt (VNum 7) 1 10) Sacn.listening1 Hbad)
    as (Hev & Hseq & _).
  split; [exact Hev | exact Hseq].
Defined.

(** [onMessage_valid] on universe 1 with last seen 0 and a packet with
    sequence number 10. *)
Lemma onMessage_valid_witness :
  validate (Packet_new (Sacn.pkt 1 10))
  = ERR_NONE (Packet_new (Sacn.pkt 1 10))
  ∧ discard (Packet_new (Sacn.pkt 1 10))
      (lastSeq Sacn.listening1
         (pretty (getUniverse (Packet_new (Sacn.pkt 1 10))))) = false
  ∧ emitted (onMessage (Sacn.pkt 1 10) Sacn.listening1)
    = emitted Sacn.listening1 ++ [Ev_packet (Packet_new (Sacn.pkt 1 10))]
  ∧ lastSeq (onMessage (Sacn.pkt 1 10) Sacn.listening1)
      (pretty (getUniverse (Packet_new (Sacn.pkt 1 10))))
    = VNum (getSequenceNumber (Packet_new (Sacn.pkt 1 10))).
Proof.
  assert (validate (Packet_new (Sacn.pkt 1 10))
          = ERR_NONE (Packet_new (Sacn.pkt 1 10))) as Hok by reflexivity.
  assert (discard (Packet_new (Sacn.pkt 1 10))
            (lastSeq Sacn.listening1
               (pretty (getUniverse (Packet_new (Sacn.pkt 1 10))))) = false)
    as Hacc by reflexivity.
  split; [exact Hok|]. split; [exact Hacc|].
  destruct (onMessage_valid (H := Sacn.e131) (Sacn.pkt 1 10) Sacn.listening1 Hok)
    as [_ Hnew].
  exact (Hnew Hacc).
Defined.

(** [Server_new_spec] on [new Server({universes: [1]})],
    [new Server({universes: 4})], [new Server(undefined, 7000)] and
    [new Server(3)]. *)
Lemma Server_new_spec_witness :
  tracked (Server_new Sacn.store1 (VRef 2%positive) VUndef) = Some [VNum 1]
  ∧ tracked (Server_new Sacn.store4 (VRef 2%positive) VUndef) = Some [VNum 4]
  ∧ port (Server_new Sacn.store4 (VRef 2%positive) VUndef) = VNum 5568
  ∧ tracked (Server_new ∅ VUndef (VNum 7000)) = Some []
  ∧ port (Server_new ∅ VUndef (VNum 7000)) = VNum 7000
  ∧ tracked (Server_new ∅ (VNum 3) VUndef) = Some [VNum 3]
  ∧ port (Server_new ∅ (VNum 3) VUndef) = VNum 5568.
Proof.
  destruct (Server_new_spec (H := Sacn.e131) Sacn.store1 (VRef 2%positive) VUndef)
    as (Hobj1 & _ & _).
  destruct (Hobj1 2%positive {[ "universes"%string := VRef 1%positive ]})
    as (Ht1 & _ & _); [reflexivity | reflexivity |].
  destruct (Server_new_spec (H := Sacn.e131) Sacn.store4 (VRef 2%positive) VUndef)
    as (Hobj4 & _ & _).
  destruct (Hobj4 2%positive {[ "universes"%string := VNum 4 ]})
    as (Ht4 & Hp4 & _); [reflexivity | reflexivity |].
  destruct (Server_new_spec (H := Sacn.e131) ∅ VUndef (VNum 7000)) as (_ & Hom & _).
  destruct Hom as (Ht0 & Hp0 & _); [reflexivity|].
  destruct (Server_new_spec (H := Sacn.e131) ∅ (VNum 3) VUndef) as (_ & _ & Hpos).
  destruct Hpos as (Ht3 & Hp3 & _); [reflexivity | discriminate |].
  split; [exact Ht1|]. split; [exact Ht4|]. split; [exact Hp4|].
  split; [exact Ht0|]. split; [exact Hp0|]. split; [exact Ht3 | exact Hp3].
Defined.

(** [addUniverses_spec] on a server tracking no universe and the array
    [[5, 5, 7]]: universes 5 and 7 are tracked, each with last seen
    sequence number 0, and each group is joined once. *)
Lemma addUniverses_spec_witness :
  array_at (hp (Server_new Sacn.store557 VUndef VUndef)) (VRef 1%positive)
  = Some [VNum 5; VNum 5; VNum 7]
  ∧ tracked (Server_new Sacn.store557 VUndef VUndef) = Some []
  ∧ Forall is_number [VNum 5; VNum 5; VNum 7]
  ∧ ∃ s', addUniverses (VRef 1%positive)
            (Server_new Sacn.store557 VUndef VUndef) = Some s'
      ∧ tracked s' = Some [VNum 5; VNum 7]
      ∧ lastSeqOf s' (VNum 5) = Some (VNum 0)
      ∧ lastSeqOf s' (VNum 7) = Some (VNum 0)
      ∧ _socket s'
        = _socket (Server_new Sacn.store557 VUndef VUndef)
          ++ [Call_addMembership (getMulticastGroup (VNum 5)) VUndef;
              Call_addMembership (getMulticastGroup (VNum 7)) VUndef].
Proof.
  assert (array_at (hp (Server_new Sacn.store557 VUndef VUndef))
            (VRef 1%positive) = Some [VNum 5; VNum 5; VNum 7]) as Harr
    by reflexivity.
  assert (tracked (Server_new Sacn.store557 VUndef VUndef) = Some []) as Ht
    by reflexivity.
  assert (Forall is_number [VNum 5; VNum 5; VNum 7]) as Hnum
    by (repeat constructor).
  split; [exact Harr|]. split; [exact Ht|]. split; [exact Hnum|].
  destruct (addUniverses_spec (H := Sacn.e131) (VRef 1%positive) [VNum 5; VNum 5; VNum 7] []
              (Server_new Sacn.store557 VUndef VUndef) Harr Ht Hnum)
    as (s' & Hrun & Ht' & _ & _ & Hzero & _ & Hsock & _).
  exists s'. split; [exact Hrun|]. split; [exact Ht'|].
  split; [apply Hzero; apply list_elem_of_here|].
  split; [apply Hzero; apply list_elem_of_further, list_elem_of_here|].
  exact Hsock.
Defined.

(** [membership_invariant] on [new Server({universes: [1]})], with
    [addUniverses([5])] before bind completion and a datagram and
    [dropUniverses([1])] after it. *)
Lemma membership_invariant_witness :
  groups_distinct
  ∧ tracked (Server_new Sacn.store1 (VRef 2%positive) VUndef)
    = Some [VNum 1]
  ∧ Forall is_universe [VNum 1]
  ∧ NoDup [VNum 1]
  ∧ Forall universe_op [Do_addUniverses [VNum 5]]
  ∧ Forall universe_op
      [Sock_message (Sacn.pkt 1 10); Do_dropUniverses [VNum 1]]
  ∧ ∃ s us,
      run ([Do_addUniverses [VNum 5]]
             ++ Sock_listening
                :: [Sock_message (Sacn.pkt 1 10); Do_dropUniverses [VNum 1]])
          (Server_new Sacn.store1 (VRef 2%positive) VUndef) = Some s
      ∧ tracked s = Some us
      ∧ (∀ u, is_universe u →
              (joined (getMulticastGroup u) (_socket s) = true ↔ u ∈ us))
      ∧ (∀ g, joined g (_socket s) = true →
              ∃ u, u ∈ us ∧ getMulticastGroup u = g)
      ∧ (callback s ≠ PositionalForm →
         ∀ u, u ∈ us → ∃ k, to_key u = Some k
                            ∧ is_Some (_lastSequenceNumber s !! k)).
Proof.
  assert (tracked (Server_new Sacn.store1 (VRef 2%positive) VUndef)
          = Some [VNum 1]) as Ht by reflexivity.
  assert (Forall is_universe [VNum 1]) as Hus by (repeat constructor).
  assert (NoDup [VNum 1]) as Hnd by apply NoDup_singleton.
  assert (Forall universe_op [Do_addUniverses [VNum 5]]) as Hpre
    by (repeat constructor).
  assert (Forall universe_op
            [Sock_message (Sacn.pkt 1 10); Do_dropUniverses [VNum 1]])
    as Hpost by (repeat constructor).
  split; [exact Sacn_groups_distinct|]. split; [exact Ht|].
  split; [exact Hus|]. split; [exact Hnd|]. split; [exact Hpre|].
  split; [exact Hpost|].
  exact (membership_invariant (H := Sacn.e131)
           Sacn.store1 (VRef 2%positive) VUndef [VNum 1] _ _
           Sacn_groups_distinct Ht Hus Hnd Hpre Hpost).
Defined.

(** [dropUniverses_spec] on universe 1, tracked with last seen sequence
    number 10: after the drop it is not tracked and has no entry, and after
    adding it again its last seen sequence number is 0. *)
Lemma dropUniverses_spec_witness :
  tracked Sacn.seen10 = Some [VNum 1]
  ∧ is_number (VNum 1)
  ∧ VNum 1 ∈ [VNum 1]
  ∧ lastSeqOf Sacn.seen10 (VNum 1) = Some (VNum 10)
  ∧ ∃ s1 s2,
      step (Do_dropUniverses [VNum 1]) Sacn.seen10 = Some s1
      ∧ tracked s1 = Some []
      ∧ lastSeqOf s1 (VNum 1) = Some VUndef
      ∧ joined (getMulticastGroup (VNum 1)) (_socket s1) = false
      ∧ step (Do_addUniverses [VNum 1]) s1 = Some s2
      ∧ tracked s2 = Some [VNum 1]
      ∧ lastSeqOf s2 (VNum 1) = Some (VNum 0)
      ∧ joined (getMulticastGroup (VNum 1)) (_socket s2) = true.
Proof.
  assert (tracked Sacn.seen10 = Some [VNum 1]) as Ht by reflexivity.
  assert (is_number (VNum 1)) as Hnum by exact I.
  assert (VNum 1 ∈ [VNum 1]) as Hin by apply list_elem_of_here.
  split; [exact Ht|]. split; [exact Hnum|]. split; [exact Hin|].
  split; [reflexivity|].
  destruct (dropUniverses_spec (H := Sacn.e131) (VNum 1) [VNum 1]
              Sacn.seen10 Ht Hnum Hin)
    as (s1 & Hdrop & Ht1 & Hseq1 & _ & _ & Hj1 & Hadd & _).
  destruct Hadd as (s2 & Hadd & Ht2 & Hseq2 & Hj2).
  { simpl. apply not_elem_of_nil. }
  exists s1, s2. split; [exact Hdrop|]. split; [exact Ht1|].
  split; [exact Hseq1|]. split; [exact Hj1|]. split; [exact Hadd|].
  split; [exact Ht2|]. split; [exact Hseq2 | exact Hj2].
Defined.

(** [addUniverses_before_bind] on [new Server({universes: [1]})] and
    [addUniverses([5])]. *)
Lemma addUniverses_before_bind_witness :
  tracked (Server_new Sacn.store1 (VRef 2%positive) VUndef) = Some [VNum 1]
  ∧ Forall is_number [VNum 5]
  ∧ ∃ s1,
      step (Do_addUniverses [VNum 5])
        (Server_new Sacn.store1 (VRef 2%positive) VUndef) = Some s1
      ∧ tracked s1 = Some [VNum 1; VNum 5]
      ∧ lastSeqOf s1 (VNum 5) = Some (VNum 0)
      ∧ (∃ r a, _socket s1
                = [Call_createSocket r; Call_bind (VNum 5568) a;
                   Call_addMembership (getMulticastGroup (VNum 5)) VUndef])
      ∧ emitted s1 = [].
Proof.
  assert (tracked (Server_new Sacn.store1 (VRef 2%positive) VUndef)
          = Some [VNum 1]) as Ht by reflexivity.
  assert (Forall is_number [VNum 5]) as Hxs by (repeat constructor).
  split; [exact Ht|]. split; [exact Hxs|].
  destruct (addUniverses_before_bind (H := Sacn.e131)
              Sacn.store1 (VRef 2%positive) VUndef [VNum 1] [VNum 5] Ht Hxs)
    as (s1 & Hadd & Ht1 & _ & Hzero & Hsock & Hem & _).
  exists s1. split; [exact Hadd|]. split; [exact Ht1|].
  split; [apply Hzero; apply list_elem_of_here|].
  split; [exact Hsock | exact Hem].
Defined.

(** [close_keeps_no_state] on [new Server({universes: [1]})] once bind has
    completed, universe 5 and a packet of universe 1: after [close],
    [addUniverses([5])] tracks universe 5 and then calls [addMembership]
    on the closed socket. *)
Lemma close_keeps_no_state_witness :
  tracked Sacn.listening1 = Some [VNum 1]
  ∧ is_number (VNum 5)
  ∧ _socket (Server_close Sacn.listening1)
    = _socket Sacn.listening1 ++ [Call_close]
  ∧ emitted (onClose (Server_close Sacn.listening1))
    = [Ev_listening; Ev_close]
  ∧ ∃ s1, step (Do_addUniverses [VNum 5])
            (onClose (Server_close Sacn.listening1))
          = Some (call (Call_addMembership (getMulticastGroup (VNum 5))
                          VUndef) s1)
      ∧ tracked s1 = Some [VNum 1; VNum 5]
      ∧ lastSeqOf s1 (VNum 5) = Some (VNum 0)
      ∧ _socket s1 = _socket Sacn.listening1 ++ [Call_close].
Proof.
  assert (tracked Sacn.listening1 = Some [VNum 1]) as Ht by reflexivity.
  assert (is_number (VNum 5)) as HU by exact I.
  split; [exact Ht|]. split; [exact HU|].
  destruct (close_keeps_no_state (H := Sacn.e131) Sacn.listening1 [VNum 1]
              (VNum 5) (Sacn.pkt 1 10) Ht HU)
    as (Hclose & _ & _ & Hem & Hadd & _ & _).
  split; [exact Hclose|]. split; [exact Hem|].
  destruct Hadd as (s1 & Hstep & Ht' & Hseq & Hsock & _).
  { intros Hin. apply list_elem_of_singleton in Hin. discriminate Hin. }
  exists s1. split; [exact Hstep|]. split; [exact Ht'|].
  split; [exact Hseq | exact Hsock].
Defined.

(** [config_is_shared] on the configuration objects [{universes: 4}] and
    [{universes: [1]}]: the first is given a one-element array, and the
    array of the second is [this.universes] after bind completion, and
    receives universe 5 when it is added. *)
Lemma config_is_shared_witness :
  Sacn.store4 !! 2%positive
  = Some (OObj {[ "universes"%string := VNum 4 ]})
  ∧ Sacn.store1 !! 2%positive
    = Some (OObj {[ "universes"%string := VRef 1%positive ]})
  ∧ (∃ a, Sacn.store4 !! a = None
       ∧ hp (Server_new Sacn.store4 (VRef 2%positive) VUndef) !! 2%positive
         = Some (OObj (<["universes"%string := VRef a]>
                         {[ "universes"%string := VNum 4 ]}))
       ∧ hp (Server_new Sacn.store4 (VRef 2%positive) VUndef) !! a
         = Some (OArr [VNum 4])
       ∧ universes (Server_new Sacn.store4 (VRef 2%positive) VUndef)
         = VRef a)
  ∧ universes (Server_new Sacn.store1 (VRef 2%positive) VUndef)
    = VRef 1%positive
  ∧ universes Sacn.listening1 = VRef 1%positive
  ∧ ∃ s', step (Do_addUniverses [VNum 5]) Sacn.listening1 = Some s'
          ∧ hp s' !! 1%positive = Some (OArr [VNum 1; VNum 5]).
Proof.
  assert (Sacn.store4 !! 2%positive
          = Some (OObj {[ "universes"%string := VNum 4 ]})) as Hc4
    by reflexivity.
  assert (Sacn.store1 !! 2%positive
          = Some (OObj {[ "universes"%string := VRef 1%positive ]})) as Hc1
    by reflexivity.
  split; [exact Hc4|]. split; [exact Hc1|].
  destruct (config_is_shared (H := Sacn.e131) Sacn.store4 2%positive
              {[ "universes"%string := VNum 4 ]} VUndef Hc4) as [Hsingle _].
  split.
  { apply (Hsingle (VNum 4)); [reflexivity | discriminate | reflexivity]. }
  destruct (config_is_shared (H := Sacn.e131) Sacn.store1 2%positive
              {[ "universes"%string := VRef 1%positive ]} VUndef Hc1)
    as [_ Harray].
  destruct (Harray 1%positive [VNum 1]) as (_ & Hu & Hruns);
    [reflexivity | reflexivity |].
  split; [exact Hu|].
  destruct (Hruns [Sock_listening] Sacn.listening1)
    as (Hu' & xs & Hxs & Ht & Hmut); [apply run_after; reflexivity|].
  split; [exact Hu'|].
  assert (xs = [VNum 1]) as ->.
  { assert (Some xs = Some [VNum 1]) as Heq
      by (rewrite <- Ht; reflexivity).
    by injection Heq. }
  destruct (Hmut (VNum 5) I) as [Hadd _].
  apply Hadd.
  intros Hin. apply elem_of_cons in Hin as [Heq|Hin]; [discriminate|].
  by apply elem_of_nil in Hin.
Defined.

End Examples.
(** * The further properties on the concrete [e131] module *)

Section ExtraExamples.

Implicit Types (s : state).

(** [dropUniverses_list_spec] on the tracked list [[1, 2, 3]] and the array
    [[3, 1, 7]]: universes 3 and 1 are dropped, in that order, and 7 is
    skipped. *)
Lemma dropUniverses_list_spec_witness :
  hp Sacn.listening123 !! 3%positive = Some (OArr [VNum 3; VNum 1; VNum 7])
  ∧ tracked Sacn.listening123 = Some [VNum 1; VNum 2; VNum 3]
  ∧ universes Sacn.listening123 ≠ VRef 3%positive
  ∧ Forall is_number [VNum 3; VNum 1; VNum 7]
  ∧ ∃ s', dropUniverses (VRef 3%positive) Sacn.listening123 = Some s'
      ∧ tracked s' = Some [VNum 2]
      ∧ lastSeqOf s' (VNum 3) = Some VUndef
      ∧ _socket s'
        = _socket Sacn.listening123
          ++ [Call_dropMembership (getMulticastGroup (VNum 3)) VUndef;
              Call_dropMembership (getMulticastGroup (VNum 1)) VUndef].
Proof.
  assert (hp Sacn.listening123 !! 3%positive
          = Some (OArr [VNum 3; VNum 1; VNum 7])) as Ha by reflexivity.
  assert (tracked Sacn.listening123 = Some [VNum 1; VNum 2; VNum 3]) as Ht
    by reflexivity.
  assert (universes Sacn.listening123 ≠ VRef 3%positive) as Hne
    by discriminate.
  assert (Forall is_number [VNum 3; VNum 1; VNum 7]) as Hnum
    by (repeat constructor).
  split; [exact Ha|]. split; [exact Ht|]. split; [exact Hne|].
  split; [exact Hnum|].
  destruct (dropUniverses_list_spec (H := Sacn.e131) 3%positive
              [VNum 3; VNum 1; VNum 7] [VNum 1; VNum 2; VNum 3]
              Sacn.listening123 Ha Ht Hne Hnum)
    as (s' & Hrun & Ht' & _ & Hgone & _ & _ & Hsock & _).
  exists s'. split; [exact Hrun|]. split; [exact Ht'|].
  split; [apply Hgone; apply list_elem_of_here|]. exact Hsock.
Defined.

(** [dropUniverses_of_tracked_array] on the tracked list [[1, 2, 3]]:
    universe 2 stays tracked. *)
Lemma dropUniverses_of_tracked_array_witness :
  tracked Sacn.listening123 = Some [VNum 1; VNum 2; VNum 3]
  ∧ NoDup [VNum 1; VNum 2; VNum 3]
  ∧ Forall is_number [VNum 1; VNum 2; VNum 3]
  ∧ ∃ s', dropUniverses (universes Sacn.listening123) Sacn.listening123
          = Some s'
      ∧ tracked s' = Some [VNum 2]
      ∧ lastSeqOf s' (VNum 2) = lastSeqOf Sacn.listening123 (VNum 2)
      ∧ _socket s'
        = _socket Sacn.listening123
          ++ [Call_dropMembership (getMulticastGroup (VNum 1)) VUndef;
              Call_dropMembership (getMulticastGroup (VNum 3)) VUndef].
Proof.
  assert (tracked Sacn.listening123 = Some [VNum 1; VNum 2; VNum 3]) as Ht
    by reflexivity.
  assert (NoDup [VNum 1; VNum 2; VNum 3]) as Hnd
    by exact (bool_decide_unpack (NoDup [VNum 1; VNum 2; VNum 3]) I).
  assert (Forall is_number [VNum 1; VNum 2; VNum 3]) as Hnum
    by (repeat constructor).
  split; [exact Ht|]. split; [exact Hnd|]. split; [exact Hnum|].
  destruct (dropUniverses_of_tracked_array (H := Sacn.e131)
              [VNum 1; VNum 2; VNum 3] Sacn.listening123 Ht Hnd Hnum)
    as (s' & Hrun & Ht' & Hsock & _ & Hodd & _).
  exists s'. split; [exact Hrun|]. split; [exact Ht'|].
  split; [apply Hodd; apply list_elem_of_here|]. exact Hsock.
Defined.

(** [addUniverses_idempotent] on the tracked list [[1, 2, 3]] and the array
    [[3, 1, 7]]. *)
Lemma addUniverses_idempotent_witness :
  array_at (hp Sacn.listening123) (VRef 3%positive)
  = Some [VNum 3; VNum 1; VNum 7]
  ∧ tracked Sacn.listening123 = Some [VNum 1; VNum 2; VNum 3]
  ∧ Forall is_number [VNum 3; VNum 1; VNum 7]
  ∧ ∃ s', addUniverses (VRef 3%positive) Sacn.listening123 = Some s'
          ∧ addUniverses (VRef 3%positive) s' = Some s'.
Proof.
  assert (array_at (hp Sacn.listening123) (VRef 3%positive)
          = Some [VNum 3; VNum 1; VNum 7]) as Ha by reflexivity.
  assert (tracked Sacn.listening123 = Some [VNum 1; VNum 2; VNum 3]) as Ht
    by reflexivity.
  assert (Forall is_number [VNum 3; VNum 1; VNum 7]) as Hnum
    by (repeat constructor).
  split; [exact Ha|]. split; [exact Ht|]. split; [exact Hnum|].
  exact (addUniverses_idempotent (H := Sacn.e131) (VRef 3%positive)
           [VNum 3; VNum 1; VNum 7] [VNum 1; VNum 2; VNum 3]
           Sacn.listening123 Ha Ht Hnum).
Defined.

(** [dropUniverses_idempotent] on the same list and array. *)
Lemma dropUniverses_idempotent_witness :
  hp Sacn.listening123 !! 3%positive = Some (OArr [VNum 3; VNum 1; VNum 7])
  ∧ tracked Sacn.listening123 = Some [VNum 1; VNum 2; VNum 3]
  ∧ universes Sacn.listening123 ≠ VRef 3%positive
  ∧ NoDup [VNum 1; VNum 2; VNum 3]
  ∧ Forall is_number [VNum 3; VNum 1; VNum 7]
  ∧ ∃ s', dropUniverses (VRef 3%positive) Sacn.listening123 = Some s'
          ∧ dropUniverses (VRef 3%positive) s' = Some s'.
Proof.
  assert (hp Sacn.listening123 !! 3%positive
          = Some (OArr [VNum 3; VNum 1; VNum 7])) as Ha by reflexivity.
  assert (tracked Sacn.listening123 = Some [VNum 1; VNum 2; VNum 3]) as Ht
    by reflexivity.
  assert (universes Sacn.listening123 ≠ VRef 3%positive) as Hne
    by discriminate.
  assert (NoDup [VNum 1; VNum 2; VNum 3]) as Hnd
    by exact (bool_decide_unpack (NoDup [VNum 1; VNum 2; VNum 3]) I).
  assert (Forall is_number [VNum 3; VNum 1; VNum 7]) as Hnum
    by (repeat constructor).
  split; [exact Ha|]. split; [exact Ht|]. split; [exact Hne|].
  split; [exact Hnd|]. split; [exact Hnum|].
  exact (dropUniverses_idempotent (H := Sacn.e131) 3%positive
           [VNum 3; VNum 1; VNum 7] [VNum 1; VNum 2; VNum 3]
           Sacn.listening123 Ha Ht Hne Hnd Hnum).
Defined.

(** [add_then_drop_restores] on the tracked list [[1, 2, 3]] and the
    universes 7 and 8. *)
Lemma add_then_drop_restores_witness :
  tracked Sacn.listening123 = Some [VNum 1; VNum 2; VNum 3]
  ∧ Forall is_number [VNum 7; VNum 8]
  ∧ (∀ x, x ∈ [VNum 7; VNum 8] → x ∉ [VNum 1; VNum 2; VNum 3])
  ∧ ∃ s1 s2,
      step (Do_addUniverses [VNum 7; VNum 8]) Sacn.listening123 = Some s1
      ∧ step (Do_dropUniverses [VNum 7; VNum 8]) s1 = Some s2
      ∧ tracked s2 = Some [VNum 1; VNum 2; VNum 3]
      ∧ lastSeqOf s2 (VNum 7) = Some VUndef
      ∧ joined (getMulticastGroup (VNum 7)) (_socket s2) = false
      ∧ emitted s2 = emitted Sacn.listening123.
Proof.
  assert (tracked Sacn.listening123 = Some [VNum 1; VNum 2; VNum 3]) as Ht
    by reflexivity.
  assert (Forall is_number [VNum 7; VNum 8]) as Hnum by (repeat constructor).
  assert (∀ x, x ∈ [VNum 7; VNum 8] → x ∉ [VNum 1; VNum 2; VNum 3])
    as Hdisj.
  { apply Forall_forall.
    exact (bool_decide_unpack
             (Forall (λ x, x ∉ [VNum 1; VNum 2; VNum 3]) [VNum 7; VNum 8])
             I). }
  split; [exact Ht|]. split; [exact Hnum|]. split; [exact Hdisj|].
  destruct (add_then_drop_restores (H := Sacn.e131) [VNum 7; VNum 8]
              [VNum 1; VNum 2; VNum 3] Sacn.listening123 Ht Hnum Hdisj)
    as (s1 & s2 & Hadd & Hdrop & Ht2 & Hxs & _ & Hem).
  destruct (Hxs (VNum 7)) as [Hseq Hj]; [apply list_elem_of_here|].
  exists s1, s2. split; [exact Hadd|]. split; [exact Hdrop|].
  split; [exact Ht2|]. split; [exact Hseq|]. split; [exact Hj | exact Hem].
Defined.

(** [run_emits_per_socket_event] on a run with three socket events and two
    calls of the caller. *)
Lemma run_emits_per_socket_event_witness :
  run Sacn.busy_run Sacn.server1 = Some (after Sacn.busy_run Sacn.server1)
  ∧ ∃ es, emitted (after Sacn.busy_run Sacn.server1)
          = emitted Sacn.server1 ++ es
          ∧ length es = 3%nat.
Proof.
  assert (run Sacn.busy_run Sacn.server1
          = Some (after Sacn.busy_run Sacn.server1)) as Hrun
    by (apply run_after; reflexivity).
  split; [exact Hrun|].
  exact (run_emits_per_socket_event (H := Sacn.e131) Sacn.busy_run
           Sacn.server1 (after Sacn.busy_run Sacn.server1) Hrun).
Defined.

(** [run_writes_only_tracked_array] on a run that hands the array at
    address 3 to [dropUniverses]: that array and the configuration object
    are as they were. *)
Lemma run_writes_only_tracked_array_witness :
  tracks 1%positive Sacn.server123
  ∧ run Sacn.alias_run Sacn.server123
    = Some (after Sacn.alias_run Sacn.server123)
  ∧ hp (after Sacn.alias_run Sacn.server123) !! 3%positive
    = Some (OArr [VNum 3; VNum 1; VNum 7])
  ∧ hp (after Sacn.alias_run Sacn.server123) !! 2%positive
    = Some (OObj {[ "universes"%string := VRef 1%positive ]})
  ∧ tracked (after Sacn.alias_run Sacn.server123) = Some [VNum 2; VNum 8].
Proof.
  assert (tracks 1%positive Sacn.server123) as Hs.
  { split; [reflexivity|]. exists [VNum 1; VNum 2; VNum 3]. reflexivity. }
  assert (run Sacn.alias_run Sacn.server123
          = Some (after Sacn.alias_run Sacn.server123)) as Hrun
    by (apply run_after; reflexivity).
  split; [exact Hs|]. split; [exact Hrun|].
  destruct (run_writes_only_tracked_array (H := Sacn.e131) 1%positive
              Sacn.alias_run Sacn.server123
              (after Sacn.alias_run Sacn.server123) Hs Hrun)
    as [_ Hsame].
  split; [apply Hsame; [discriminate | reflexivity]|].
  split; [apply Hsame; [discriminate | reflexivity]|].
  reflexivity.
Defined.

(** [Server_new_port_truthy] on [new Server(1, 0)]: the port is the
    default port. *)
Lemma Server_new_port_truthy_witness :
  truthy DEFAULT_PORT = true
  ∧ truthy (port (Server_new ∅ (VNum 1) (VNum 0))) = true
  ∧ port (Server_new ∅ (VNum 1) (VNum 0)) = DEFAULT_PORT.
Proof.
  assert (truthy DEFAULT_PORT = true) as Hdef by reflexivity.
  split; [exact Hdef|].
  destruct (Server_new_port_truthy (H := Sacn.e131) ∅ (VNum 1) (VNum 0) Hdef)
    as (Htruthy & _ & Hzero).
  split; [exact Htruthy|].
  apply Hzero; [reflexivity | reflexivity | discriminate].
Defined.

(** [universes_always_array] on [new Server([2, 3])], an array taken for a
    configuration object. *)
Lemma universes_always_array_witness :
  run [Do_addUniverses [VNum 4]; Sock_listening]
      (Server_new Sacn.store23 (VRef 1%positive) VUndef)
  = Some (after [Do_addUniverses [VNum 4]; Sock_listening]
            (Server_new Sacn.store23 (VRef 1%positive) VUndef))
  ∧ ∃ us, tracked (after [Do_addUniverses [VNum 4]; Sock_listening]
                     (Server_new Sacn.store23 (VRef 1%positive) VUndef))
          = Some us.
Proof.
  assert (run [Do_addUniverses [VNum 4]; Sock_listening]
              (Server_new Sacn.store23 (VRef 1%positive) VUndef)
          = Some (after [Do_addUniverses [VNum 4]; Sock_listening]
                    (Server_new Sacn.store23 (VRef 1%positive) VUndef)))
    as Hrun by (apply run_after; reflexivity).
  split; [exact Hrun|].
  exact (proj2 (universes_always_array (H := Sacn.e131) Sacn.store23
                  (VRef 1%positive) VUndef _ _ Hrun)).
Defined.

(** [Server_new_store_frame] on the configuration object
    [{universes: 4, port: 7000}]: the array at address 5 is as it was, and
    the object keeps its [port]. *)
Lemma Server_new_store_frame_witness :
  hp (Server_new Sacn.store4p (VRef 2%positive) VUndef) !! 5%positive
  = Some (OArr [VNum 9])
  ∧ ∃ ps', hp (Server_new Sacn.store4p (VRef 2%positive) VUndef) !! 2%positive
           = Some (OObj ps')
           ∧ ps' !! "port"%string = Some (VNum 7000).
Proof.
  destruct (Server_new_store_frame (H := Sacn.e131) Sacn.store4p
              (VRef 2%positive) VUndef) as [Hother Hconfig].
  split; [apply Hother; [discriminate | reflexivity]|].
  destruct (Hconfig 2%positive
              {[ "universes"%string := VNum 4;
                 "port"%string := VNum 7000 ]})
    as (ps' & Hps' & Hkeep); [reflexivity | reflexivity |].
  exists ps'. split; [exact Hps'|].
  rewrite Hkeep by discriminate. reflexivity.
Defined.

(** [bind_completion_spec] on [new Server({universes: [1, 2, 3]})]. *)
Lemma bind_completion_spec_witness :
  tracked Sacn.server123 = Some [VNum 1; VNum 2; VNum 3]
  ∧ Forall is_number [VNum 1; VNum 2; VNum 3]
  ∧ NoDup (getMulticastGroup <$> [VNum 1; VNum 2; VNum 3])
  ∧ Forall (λ c, membership_call c = false) (_socket Sacn.server123)
  ∧ ∃ s', step Sock_listening Sacn.server123 = Some s'
      ∧ _socket s'
        = _socket Sacn.server123
          ++ [Call_addMembership (getMulticastGroup (VNum 1)) VUndef;
              Call_addMembership (getMulticastGroup (VNum 2)) VUndef;
              Call_addMembership (getMulticastGroup (VNum 3)) VUndef]
      ∧ emitted s' = [Ev_listening]
      ∧ lastSeqOf s' (VNum 2) = Some (VNum 0)
      ∧ orderly (_socket s').
Proof.
  assert (tracked Sacn.server123 = Some [VNum 1; VNum 2; VNum 3]) as Ht
    by reflexivity.
  assert (Forall is_number [VNum 1; VNum 2; VNum 3]) as Hnum
    by (repeat constructor).
  assert (NoDup (getMulticastGroup <$> [VNum 1; VNum 2; VNum 3])) as Hnd
    by exact (bool_decide_unpack
                (NoDup [(239, 255, 0, 1); (239, 255, 0, 2); (239, 255, 0, 3)])
                I).
  assert (Forall (λ c, membership_call c = false) (_socket Sacn.server123))
    as Hquiet by (repeat constructor).
  split; [exact Ht|]. split; [exact Hnum|]. split; [exact Hnd|].
  split; [exact Hquiet|].
  destruct (bind_completion_spec (H := Sacn.e131) Sacn.server123
              [VNum 1; VNum 2; VNum 3] Ht Hnum Hnd Hquiet)
    as (s' & Hstep & Hsock & Hem & _ & Hzero & _ & _ & Hord & _).
  exists s'. split; [exact Hstep|]. split; [exact Hsock|].
  split; [exact Hem|]. split; [|exact Hord].
  apply Hzero; [discriminate|]. apply list_elem_of_further, list_elem_of_here.
Defined.

(** [membership_calls_are_admitted] on [new Server({universes: [1]})]:
    after bind completion, a packet of universe 1, [addUniverses([5])] and
    [dropUniverses([1])]. *)
Lemma membership_calls_are_admitted_witness :
  groups_distinct
  ∧ tracked (Server_new Sacn.store1 (VRef 2%positive) VUndef) = Some [VNum 1]
  ∧ Forall is_universe [VNum 1]
  ∧ NoDup [VNum 1]
  ∧ Forall service_op Sacn.service_run
  ∧ ∃ s us,
      run (Sock_listening :: Sacn.service_run)
        (Server_new Sacn.store1 (VRef 2%positive) VUndef) = Some s
      ∧ tracked s = Some us
      ∧ Forall is_universe us
      ∧ NoDup us
      ∧ orderly (_socket s).
Proof.
  assert (tracked (Server_new Sacn.store1 (VRef 2%positive) VUndef)
          = Some [VNum 1]) as Ht by reflexivity.
  assert (Forall is_universe [VNum 1]) as Hus by (repeat constructor).
  assert (NoDup [VNum 1]) as Hnd by apply NoDup_singleton.
  assert (Forall service_op Sacn.service_run) as Hops by (repeat constructor).
  split; [exact Sacn_groups_distinct|].
  split; [exact Ht|]. split; [exact Hus|]. split; [exact Hnd|].
  split; [exact Hops|].
  exact (membership_calls_are_admitted (H := Sacn.e131) Sacn.store1
           (VRef 2%positive) VUndef [VNum 1] Sacn.service_run
           Sacn_groups_distinct Ht Hus Hnd Hops).
Defined.

(** [membership_calls_share_interface] on
    [new Server({universes: [1], mcastif: '10.0.0.1'})]: the joins at bind
    completion, the join of universe 5 and the leave of universe 1 all
    name that interface. *)
Lemma membership_calls_share_interface_witness :
  run Sacn.membership_run (Server_new Sacn.store_if (VRef 2%positive) VUndef)
  = Some (after Sacn.membership_run
            (Server_new Sacn.store_if (VRef 2%positive) VUndef))
  ∧ mcastif_of Sacn.store_if (VRef 2%positive) = VStr "10.0.0.1"
  ∧ _mcastif (after Sacn.membership_run
                (Server_new Sacn.store_if (VRef 2%positive) VUndef))
    = VStr "10.0.0.1"
  ∧ _socket (after Sacn.membership_run
               (Server_new Sacn.store_if (VRef 2%positive) VUndef))
    = [Call_createSocket true; Call_bind (VNum 5568) VUndef;
       Call_setMulticastInterface (VStr "10.0.0.1");
       Call_addMembership (getMulticastGroup (VNum 1)) (VStr "10.0.0.1");
       Call_addMembership (getMulticastGroup (VNum 5)) (VStr "10.0.0.1");
       Call_dropMembership (getMulticastGroup (VNum 1)) (VStr "10.0.0.1")]
  ∧ Forall (uses_interface (VStr "10.0.0.1"))
      (_socket (after Sacn.membership_run
                  (Server_new Sacn.store_if (VRef 2%positive) VUndef))).
Proof.
  assert (run Sacn.membership_run
            (Server_new Sacn.store_if (VRef 2%positive) VUndef)
          = Some (after Sacn.membership_run
                    (Server_new Sacn.store_if (VRef 2%positive) VUndef)))
    as Hrun by (apply run_after; reflexivity).
  split; [exact Hrun|]. split; [reflexivity|].
  split; [exact (proj1 (membership_calls_share_interface (H := Sacn.e131)
                          Sacn.store_if (VRef 2%positive) VUndef _ _ Hrun))|].
  split; [reflexivity|].
  exact (proj2 (membership_calls_share_interface (H := Sacn.e131)
                  Sacn.store_if (VRef 2%positive) VUndef _ _ Hrun)).
Defined.

(** [last_seen_is_latest_valid] on universe 1 and the datagrams 10, 9, a
    malformed one and one of universe 2: the last seen sequence number
    is 9. *)
Lemma last_seen_is_latest_valid_witness :
  run Sacn.datagram_run Sacn.listening1
  = Some (after Sacn.datagram_run Sacn.listening1)
  ∧ lastSeq Sacn.listening1 (pretty 1) = VNum 0
  ∧ lastSeq (after Sacn.datagram_run Sacn.listening1) (pretty 1) = VNum 9.
Proof.
  assert (run Sacn.datagram_run Sacn.listening1
          = Some (after Sacn.datagram_run Sacn.listening1)) as Hrun
    by (apply run_after; reflexivity).
  split; [exact Hrun|]. split; [reflexivity|].
  exact (last_seen_is_latest_valid (H := Sacn.e131) 1 Sacn.datagrams
           Sacn.listening1 (after Sacn.datagram_run Sacn.listening1) Hrun).
Defined.

End ExtraExamples.
